(** * Hopcroft-Karp bipartite matching: [changes9.cpp]

    A shallow embedding of the class [BipartiteGraph] of
    [src/Difficulty: Hard/changes9.cpp] and the verification of its
    specification.

    C++ [int] values are modelled as [Z]; every vector access goes through a
    checked accessor that reports an out-of-range index, and every loop whose
    trip count is not syntactic (the BFS queue loop, the DFS recursion, the
    phase loop) is driven by fuel. *)

From Stdlib Require Import ZArith List Lia Bool FinFun Sorted.
From Stdlib Require Strings.String Strings.Ascii.
From stdpp Require Import base list.
Import ListNotations.
Local Open Scope Z_scope.

(** ** Results of fallible computations *)

Inductive res (A : Type) : Type :=
| Ok (a : A)
| OutOfBounds
| OutOfFuel.
Arguments Ok {A} a.
Arguments OutOfBounds {A}.
Arguments OutOfFuel {A}.

Definition rbind {A B} (m : res A) (k : A -> res B) : res B :=
  match m with
  | Ok a => k a
  | OutOfBounds => OutOfBounds
  | OutOfFuel => OutOfFuel
  end.

Notation "'let*' x ':=' m 'in' k" := (rbind m (fun x => k))
  (at level 10, x pattern, m at level 100, k at level 200).

(** ** Vectors indexed by [int] *)

(** [vec[i]] read: indices outside the vector are reported. *)
Definition vget {A} (l : list A) (i : Z) : res A :=
  if i <? 0 then OutOfBounds
  else match l !! Z.to_nat i with
       | Some a => Ok a
       | None => OutOfBounds
       end.

(** [vec[i] = a] write. *)
Definition vset {A} (l : list A) (i : Z) (a : A) : res (list A) :=
  if (0 <=? i) && (i <? Z.of_nat (length l))
  then Ok (<[Z.to_nat i := a]> l)
  else OutOfBounds.

(** The values [1, 2, ..., n] of a loop [for (int u = 1; u <= n; ++u)]. *)
Definition range1 (n : Z) : list Z := map Z.of_nat (seq 1 (Z.to_nat n)).

(** ** The class [BipartiteGraph] *)

(** [const int INF = 1e9;] *)
Definition INF : Z := 1000000000.

Record BipartiteGraph : Type := mkGraph {
  nLeft : Z;
  nRight : Z;
  adj : list (list Z);
  dist : list Z;
  pairU : list Z;
  pairV : list Z
}.

Definition set_adj (g : BipartiteGraph) (a : list (list Z)) : BipartiteGraph :=
  mkGraph (nLeft g) (nRight g) a (dist g) (pairU g) (pairV g).
Definition set_dist (g : BipartiteGraph) (d : list Z) : BipartiteGraph :=
  mkGraph (nLeft g) (nRight g) (adj g) d (pairU g) (pairV g).
Definition set_pairU (g : BipartiteGraph) (p : list Z) : BipartiteGraph :=
  mkGraph (nLeft g) (nRight g) (adj g) (dist g) p (pairV g).
Definition set_pairV (g : BipartiteGraph) (p : list Z) : BipartiteGraph :=
  mkGraph (nLeft g) (nRight g) (adj g) (dist g) (pairU g) p.

(** The constructor: four vectors of [nLeft + 1] (resp. [nRight + 1])
    entries.  The source computes the two sizes in [int]; here they are
    computed in [Z], which is the same for counts below [INT_MAX]. *)
Definition construct (leftCount rightCount : Z) : BipartiteGraph :=
  mkGraph leftCount rightCount
    (repeat [] (Z.to_nat (leftCount + 1)))
    (repeat INF (Z.to_nat (leftCount + 1)))
    (repeat 0 (Z.to_nat (leftCount + 1)))
    (repeat 0 (Z.to_nat (rightCount + 1))).

(** The diagnostic written to [cerr] by [addEdge]. *)
Inductive diagnostic : Type :=
| InvalidEdge (u v : Z).

(** [addEdge]: the guard, then [adj[u].push_back(v)]. *)
Definition addEdge (g : BipartiteGraph) (u v : Z)
  : BipartiteGraph * option diagnostic :=
  if (u <? 1) || (nLeft g <? u) || (v <? 1) || (nRight g <? v)
  then (g, Some (InvalidEdge u v))
  else (set_adj g (alter (fun l => l ++ [v]) (Z.to_nat u) (adj g)), None).

(** *** [bfs] *)

(** The first loop of [bfs]: seed the free left vertices. *)
Fixpoint bfs_init (us : list Z) (g : BipartiteGraph) (q : list Z)
  : res (BipartiteGraph * list Z) :=
  match us with
  | [] => Ok (g, q)
  | u :: us' =>
      let* pu := vget (pairU g) u in
      if pu =? 0 then
        let* d := vset (dist g) u 0 in
        bfs_init us' (set_dist g d) (q ++ [u])
      else
        let* d := vset (dist g) u INF in
        bfs_init us' (set_dist g d) q
  end.

(** The loop [for (int v : adj[u])] of [bfs]. *)
Fixpoint bfs_scan (u : Z) (vs : list Z) (g : BipartiteGraph) (q : list Z)
  : res (BipartiteGraph * list Z) :=
  match vs with
  | [] => Ok (g, q)
  | v :: vs' =>
      let* pv := vget (pairV g) v in
      let* dpv := vget (dist g) pv in
      if dpv =? INF then
        let* du := vget (dist g) u in
        let* d := vset (dist g) pv (du + 1) in
        bfs_scan u vs' (set_dist g d) (q ++ [pv])
      else bfs_scan u vs' g q
  end.

(** The loop [while (!q.empty())] of [bfs]. *)
Fixpoint bfs_loop (fuel : nat) (g : BipartiteGraph) (q : list Z)
  : res BipartiteGraph :=
  match fuel with
  | O => OutOfFuel
  | S fuel' =>
      match q with
      | [] => Ok g
      | u :: q' =>
          let* du := vget (dist g) u in
          let* d0 := vget (dist g) 0 in
          if du <? d0 then
            let* vs := vget (adj g) u in
            let* (g', q'') := bfs_scan u vs g q' in
            bfs_loop fuel' g' q''
          else bfs_loop fuel' g q'
      end
  end.

Definition bfs_fuel (fuel : nat) (g : BipartiteGraph)
  : res (BipartiteGraph * bool) :=
  let* (g1, q) := bfs_init (range1 (nLeft g)) g [] in
  let* d := vset (dist g1) 0 INF in
  let* g2 := bfs_loop fuel (set_dist g1 d) q in
  let* d0 := vget (dist g2) 0 in
  Ok (g2, negb (d0 =? INF)).

(** *** [dfs] *)

Section DfsBody.
(** The recursive call. *)
Variable rec : BipartiteGraph -> Z -> res (BipartiteGraph * bool).

(** The loop [for (int v : adj[u])] of [dfs], with the two statements
    that follow it. *)
Fixpoint dfs_neighbours (u : Z) (vs : list Z) (g : BipartiteGraph)
  : res (BipartiteGraph * bool) :=
  match vs with
  | [] =>
      let* d := vset (dist g) u INF in
      Ok (set_dist g d, false)
  | v :: vs' =>
      let* pv := vget (pairV g) v in
      let* dpv := vget (dist g) pv in
      let* du := vget (dist g) u in
      if dpv =? du + 1 then
        let* (g1, found) := rec g pv in
        if found : bool then
          let* pu' := vset (pairU g1) u v in
          let* pv' := vset (pairV g1) v u in
          Ok (set_pairV (set_pairU g1 pu') pv', true)
        else dfs_neighbours u vs' g1
      else dfs_neighbours u vs' g
  end.
End DfsBody.

Fixpoint dfs_fuel (fuel : nat) (g : BipartiteGraph) (u : Z)
  : res (BipartiteGraph * bool) :=
  match fuel with
  | O => OutOfFuel
  | S fuel' =>
      if u =? 0 then Ok (g, true)
      else
        let* vs := vget (adj g) u in
        dfs_neighbours (dfs_fuel fuel') u vs g
  end.

(** *** [maxMatching] *)

(** The loop [for (int u = 1; u <= nLeft; ++u)] of [maxMatching]. *)
Fixpoint augment (dfuel : nat) (us : list Z) (g : BipartiteGraph)
  (matching : Z) : res (BipartiteGraph * Z) :=
  match us with
  | [] => Ok (g, matching)
  | u :: us' =>
      let* pu := vget (pairU g) u in
      if pu =? 0 then
        let* (g1, found) := dfs_fuel dfuel g u in
        if found : bool then augment dfuel us' g1 (matching + 1)
        else augment dfuel us' g1 matching
      else augment dfuel us' g matching
  end.

(** The loop [while (bfs())]. *)
Fixpoint phases (pfuel bfuel dfuel : nat) (g : BipartiteGraph)
  (matching : Z) : res (BipartiteGraph * Z) :=
  match pfuel with
  | O => OutOfFuel
  | S pfuel' =>
      let* (g1, more) := bfs_fuel bfuel g in
      if more : bool then
        let* (g2, matching') := augment dfuel (range1 (nLeft g1)) g1 matching in
        phases pfuel' bfuel dfuel g2 matching'
      else Ok (g1, matching)
  end.

Definition maxMatching_fuel (pfuel bfuel dfuel : nat) (g : BipartiteGraph)
  : res (BipartiteGraph * Z) :=
  phases pfuel bfuel dfuel g 0.

(** Fuel that always suffices (see the termination theorems). *)
Definition max_degree (g : BipartiteGraph) : nat :=
  foldr Nat.max O (map length (adj g)).
Definition bfs_budget (g : BipartiteGraph) : nat :=
  S (length (dist g) * (2 * max_degree g + 3)).
Definition dfs_budget (g : BipartiteGraph) : nat :=
  S (length (dist g)).
Definition phase_budget (g : BipartiteGraph) : nat :=
  S (length (pairU g)).

Definition bfs (g : BipartiteGraph) : res (BipartiteGraph * bool) :=
  bfs_fuel (bfs_budget g) g.
Definition dfs (g : BipartiteGraph) (u : Z) : res (BipartiteGraph * bool) :=
  dfs_fuel (dfs_budget g) g u.
Definition maxMatching (g : BipartiteGraph) : res (BipartiteGraph * Z) :=
  maxMatching_fuel (phase_budget g) (bfs_budget g) (dfs_budget g) g.

(** *** [getMatchingPairs] *)

Fixpoint collect_pairs (us : list Z) (g : BipartiteGraph)
  (result : list (Z * Z)) : res (list (Z * Z)) :=
  match us with
  | [] => Ok result
  | u :: us' =>
      let* pu := vget (pairU g) u in
      if pu =? 0 then collect_pairs us' g result
      else collect_pairs us' g (result ++ [(u, pu)])
  end.

Definition getMatchingPairs (g : BipartiteGraph) : res (list (Z * Z)) :=
  collect_pairs (range1 (nLeft g)) g [].

(** A sequence of calls of [addEdge], as in the loop of [main]. *)
Fixpoint addEdges (g : BipartiteGraph) (es : list (Z * Z)) : BipartiteGraph :=
  match es with
  | [] => g
  | (u, v) :: es' => addEdges (fst (addEdge g u v)) es'
  end.

(** ** Reading the vectors in specifications *)

(** Total readers, used in statements only; inside the bounds they agree
    with [vget]. *)
Definition vat {A} (d : A) (l : list A) (i : Z) : A := nth (Z.to_nat i) l d.

Definition distA (g : BipartiteGraph) (x : Z) : Z := vat 0 (dist g) x.
Definition pairUA (g : BipartiteGraph) (u : Z) : Z := vat 0 (pairU g) u.
Definition pairVA (g : BipartiteGraph) (v : Z) : Z := vat 0 (pairV g) v.
Definition adjA (g : BipartiteGraph) (u : Z) : list Z := vat [] (adj g) u.

Abbreviation zlen l := (Z.of_nat (length l)).

Lemma lookup_nth_some {A} (d : A) (l : list A) (n : nat) :
  (n < length l)%nat -> l !! n = Some (nth n l d).
Proof.
  revert n; induction l as [|a l IH]; intros [|n] Hn; simpl in *;
    try lia; [reflexivity|]. apply IH; lia.
Qed.

Lemma lookup_none_ge {A} (l : list A) (n : nat) :
  l !! n = None -> (length l <= n)%nat.
Proof.
  revert n; induction l as [|a l IH]; intros [|n] Hn; simpl in *;
    try lia; [discriminate|]. apply IH in Hn; lia.
Qed.

Lemma vget_ok {A} (d : A) (l : list A) (i : Z) :
  0 <= i < zlen l -> vget l i = Ok (vat d l i).
Proof.
  unfold vget, vat; intros Hi.
  destruct (Z.ltb_spec i 0); [lia|].
  rewrite (lookup_nth_some d) by lia. reflexivity.
Qed.

Lemma vget_inv {A} (d : A) (l : list A) (i : Z) (a : A) :
  vget l i = Ok a -> 0 <= i < zlen l /\ a = vat d l i.
Proof.
  unfold vget, vat; intros H.
  destruct (Z.ltb_spec i 0); [discriminate|].
  destruct (l !! Z.to_nat i) eqn:E; [|discriminate].
  injection H as <-.
  destruct (Nat.lt_ge_cases (Z.to_nat i) (length l)) as [Hlt|Hge].
  - rewrite (lookup_nth_some d) in E by lia. injection E as <-. split; [lia|reflexivity].
  - exfalso. revert E. clear -Hge. revert Hge. generalize (Z.to_nat i).
    induction l as [|b l IH]; intros [|n] Hn E; simpl in *; try discriminate; try lia.
    apply (IH n); [lia|exact E].
Qed.

Lemma vget_oob {A} (l : list A) (i : Z) :
  vget l i = OutOfBounds -> ~ (0 <= i < zlen l).
Proof.
  intros H Hi. destruct l as [|a l].
  - simpl in Hi; lia.
  - rewrite (vget_ok a) in H by exact Hi. discriminate.
Qed.

Lemma vget_not_fuel {A} (l : list A) (i : Z) : vget l i <> OutOfFuel.
Proof.
  unfold vget. destruct (i <? 0); [discriminate|].
  destruct (l !! Z.to_nat i); discriminate.
Qed.

Lemma vset_ok {A} (l : list A) (i : Z) (a : A) :
  0 <= i < zlen l -> vset l i a = Ok (<[Z.to_nat i := a]> l).
Proof.
  unfold vset; intros Hi.
  destruct (Z.leb_spec 0 i); [|lia].
  destruct (Z.ltb_spec i (Z.of_nat (length l))); [|lia]. reflexivity.
Qed.

Lemma vset_inv {A} (l l' : list A) (i : Z) (a : A) :
  vset l i a = Ok l' -> 0 <= i < zlen l /\ l' = <[Z.to_nat i := a]> l.
Proof.
  unfold vset; intros H.
  destruct (Z.leb_spec 0 i); simpl in H; [|discriminate].
  destruct (Z.ltb_spec i (Z.of_nat (length l))); [|discriminate].
  injection H as <-. split; [lia|reflexivity].
Qed.

Lemma zlen_insert {A} (l : list A) (n : nat) (a : A) :
  zlen (<[n := a]> l) = zlen l.
Proof. rewrite length_insert. reflexivity. Qed.

Lemma nth_insert_eq {A} (d : A) (l : list A) (n : nat) (a : A) :
  (n < length l)%nat -> nth n (<[n := a]> l) d = a.
Proof.
  revert n; induction l as [|b l IH]; intros [|n] Hn; simpl in *;
    try lia; [reflexivity|]. apply IH; lia.
Qed.

Lemma nth_insert_ne {A} (d : A) (l : list A) (n m : nat) (a : A) :
  n <> m -> nth m (<[n := a]> l) d = nth m l d.
Proof.
  revert n m; induction l as [|b l IH]; intros [|n] [|m] Hn; simpl in *;
    try reflexivity; try lia. apply IH; lia.
Qed.

Lemma vat_insert_eq {A} (d : A) (l : list A) (i : Z) (a : A) :
  0 <= i < zlen l -> vat d (<[Z.to_nat i := a]> l) i = a.
Proof. unfold vat; intros Hi. apply nth_insert_eq; lia. Qed.

Lemma vat_insert_ne {A} (d : A) (l : list A) (i j : Z) (a : A) :
  0 <= i -> 0 <= j -> i <> j -> vat d (<[Z.to_nat i := a]> l) j = vat d l j.
Proof. unfold vat; intros Hi Hj Hij. apply nth_insert_ne; lia. Qed.

Lemma vat_insert {A} (d : A) (l : list A) (i j : Z) (a : A) :
  0 <= i < zlen l -> 0 <= j ->
  vat d (<[Z.to_nat i := a]> l) j = if j =? i then a else vat d l j.
Proof.
  intros Hi Hj. destruct (Z.eqb_spec j i) as [->|Hne].
  - apply vat_insert_eq; exact Hi.
  - apply vat_insert_ne; lia.
Qed.

Lemma In_range1 (n u : Z) : In u (range1 n) <-> 1 <= u <= n.
Proof.
  unfold range1. rewrite in_map_iff. split.
  - intros [k [<- Hk]]. apply in_seq in Hk. lia.
  - intros Hu. exists (Z.to_nat u). split; [lia|]. apply in_seq. lia.
Qed.

(** ** The shape of an engine: what the vector accesses rely on *)

Record Shape (g : BipartiteGraph) : Prop := mkShape {
  sh_nl : 0 <= nLeft g;
  sh_nr : 0 <= nRight g;
  sh_adj : zlen (adj g) = nLeft g + 1;
  sh_dist : zlen (dist g) = nLeft g + 1;
  sh_pairU : zlen (pairU g) = nLeft g + 1;
  sh_pairV : zlen (pairV g) = nRight g + 1;
  sh_edges : forall u v,
    0 <= u <= nLeft g -> In v (adjA g u) -> 1 <= v <= nRight g;
  sh_pv : forall v, 0 <= v <= nRight g -> 0 <= pairVA g v <= nLeft g
}.

(** [no_oob P r]: the computation [r] did not index outside a vector, and
    if it returned, the result satisfies [P]. *)
Definition no_oob {A} (P : A -> Prop) (r : res A) : Prop :=
  match r with
  | Ok a => P a
  | OutOfBounds => False
  | OutOfFuel => True
  end.

Lemma no_oob_bind {A B} (P : A -> Prop) (Q : B -> Prop) m (k : A -> res B) :
  no_oob P m -> (forall a, P a -> no_oob Q (k a)) -> no_oob Q (rbind m k).
Proof. destruct m; simpl; auto. Qed.

Lemma no_oob_weaken {A} (P Q : A -> Prop) (r : res A) :
  no_oob P r -> (forall a, P a -> Q a) -> no_oob Q r.
Proof. destruct r; simpl; auto. Qed.

Lemma Shape_set_dist g d :
  Shape g -> zlen d = zlen (dist g) -> Shape (set_dist g d).
Proof.
  intros [] Hd. constructor; simpl; try assumption. congruence.
Qed.

Lemma Shape_dist_insert g x a :
  Shape g -> Shape (set_dist g (<[Z.to_nat x := a]> (dist g))).
Proof. intros H. apply Shape_set_dist; [exact H|apply zlen_insert]. Qed.

Lemma Shape_rewire g u v :
  Shape g -> 0 <= u <= nLeft g -> 0 <= v <= nRight g ->
  Shape (set_pairV (set_pairU g (<[Z.to_nat u := v]> (pairU g)))
                   (<[Z.to_nat v := u]> (pairV g))).
Proof.
  intros [] Hu Hv. constructor; simpl; try assumption.
  - rewrite zlen_insert; assumption.
  - rewrite zlen_insert; assumption.
  - intros w Hw. unfold pairVA; simpl.
    rewrite vat_insert by lia. destruct (w =? v); [lia|]. apply sh_pv0; exact Hw.
Qed.

Definition in_left (g : BipartiteGraph) (x : Z) : Prop := 0 <= x <= nLeft g.

(** Rewriting steps shared by the proofs below. *)
Ltac vget_step d :=
  rewrite (vget_ok d) by lia; cbn [rbind].
Ltac vset_step :=
  rewrite vset_ok by lia; cbn [rbind].

(** The part of an engine that [bfs] and [dfs] never write. *)
Definition same_graph (g g' : BipartiteGraph) : Prop :=
  nLeft g' = nLeft g /\ nRight g' = nRight g /\ adj g' = adj g.

Lemma same_graph_refl g : same_graph g g.
Proof. repeat split. Qed.

Lemma same_graph_trans g1 g2 g3 :
  same_graph g1 g2 -> same_graph g2 g3 -> same_graph g1 g3.
Proof. unfold same_graph; intros (?&?&?) (?&?&?); repeat split; congruence. Qed.

Lemma same_graph_set_dist g d : same_graph g (set_dist g d).
Proof. repeat split. Qed.

Lemma same_graph_adjA g g' u : same_graph g g' -> adjA g' u = adjA g u.
Proof. intros (_&_&H). unfold adjA. rewrite H. reflexivity. Qed.

Lemma in_left_same g g' x : same_graph g g' -> in_left g x -> in_left g' x.
Proof. unfold in_left; intros (H&_&_) Hx. lia. Qed.

Lemma Forall_in_left_same g g' q :
  same_graph g g' -> Forall (in_left g) q -> Forall (in_left g') q.
Proof.
  intros H Hq. eapply List.Forall_impl; [|exact Hq].
  intros x. apply in_left_same; exact H.
Qed.

Create HintDb hk.
#[local] Hint Resolve same_graph_refl same_graph_set_dist : hk.
#[local] Hint Resolve Shape_dist_insert : hk.

(** The postcondition of the safety lemmas: the shape is kept and the
    graph is not written. *)
Definition keeps {B} (g : BipartiteGraph) (r : BipartiteGraph * B) : Prop :=
  Shape (fst r) /\ same_graph g (fst r).

Lemma keeps_trans {B C} g g1 (r : BipartiteGraph * B) (b : C) :
  keeps g (g1, b) -> keeps g1 r -> keeps g r.
Proof.
  unfold keeps; simpl. intros [_ H1] [H2 H3]. split; [exact H2|].
  eapply same_graph_trans; eassumption.
Qed.

Lemma bfs_init_safe us : forall g q,
  Shape g -> (forall u, In u us -> 1 <= u <= nLeft g) ->
  Forall (in_left g) q ->
  no_oob (fun r => keeps g r /\ Forall (in_left g) (snd r))
         (bfs_init us g q).
Proof.
  induction us as [|u us IH]; intros g q Hs Hus Hq; simpl.
  - unfold keeps; auto with hk.
  - assert (Hu : 1 <= u <= nLeft g) by (apply Hus; left; reflexivity).
    pose proof (sh_pairU _ Hs) as Hp. pose proof (sh_dist _ Hs) as Hd.
    vget_step 0.
    destruct (vat 0 (pairU g) u =? 0); vset_step.
    + eapply no_oob_weaken.
      * apply IH; [apply Shape_dist_insert; exact Hs| |].
        -- intros w Hw; simpl. apply Hus; right; exact Hw.
        -- apply Forall_app; split; [exact Hq|].
           constructor; [unfold in_left; simpl; lia|constructor].
      * intros [g' q'] [H1 H2]. split; [|exact H2].
        eapply keeps_trans with (b := tt); [|exact H1]. split; simpl; auto with hk.
    + eapply no_oob_weaken.
      * apply IH; [apply Shape_dist_insert; exact Hs| |exact Hq].
        intros w Hw; simpl. apply Hus; right; exact Hw.
      * intros [g' q'] [H1 H2]. split; [|exact H2].
        eapply keeps_trans with (b := tt); [|exact H1]. split; simpl; auto with hk.
Qed.

Lemma bfs_scan_safe u vs : forall g q,
  Shape g -> in_left g u -> (forall v, In v vs -> 1 <= v <= nRight g) ->
  Forall (in_left g) q ->
  no_oob (fun r => keeps g r /\ Forall (in_left g) (snd r))
         (bfs_scan u vs g q).
Proof.
  induction vs as [|v vs IH]; intros g q Hs Hu Hvs Hq; simpl.
  - unfold keeps; auto with hk.
  - assert (Hv : 1 <= v <= nRight g) by (apply Hvs; left; reflexivity).
    pose proof (sh_pairV _ Hs) as Hp. pose proof (sh_dist _ Hs) as Hd.
    assert (Hpv : 0 <= pairVA g v <= nLeft g) by (apply sh_pv; [exact Hs|lia]).
    unfold pairVA, in_left in *.
    vget_step 0. vget_step 0.
    destruct (_ =? INF).
    + vget_step 0. vset_step.
      eapply no_oob_weaken.
      * apply IH; [apply Shape_dist_insert; exact Hs|exact Hu| |].
        -- intros w Hw; simpl. apply Hvs; right; exact Hw.
        -- apply Forall_app; split; [exact Hq|].
           constructor; [unfold in_left; simpl; lia|constructor].
      * intros [g' q'] [H1 H2]. split; [|exact H2].
        eapply keeps_trans with (b := tt); [|exact H1]. split; simpl; auto with hk.
    + apply IH; auto. intros w Hw. apply Hvs; right; exact Hw.
Qed.

Lemma bfs_loop_safe fuel : forall g q,
  Shape g -> Forall (in_left g) q ->
  no_oob (fun g' => Shape g' /\ same_graph g g') (bfs_loop fuel g q).
Proof.
  induction fuel as [|fuel IH]; intros g q Hs Hq; simpl; [exact I|].
  destruct q as [|u q]; [simpl; auto with hk|].
  inversion Hq as [|? ? Hu Hq']; subst.
  pose proof (sh_dist _ Hs) as Hd. pose proof (sh_adj _ Hs) as Ha.
  pose proof (sh_nl _ Hs) as Hn. unfold in_left in Hu.
  vget_step 0. vget_step 0.
  destruct (_ <? _).
  - vget_step (@nil Z).
    eapply no_oob_bind.
    + apply bfs_scan_safe; [exact Hs|exact Hu| |exact Hq'].
      intros v Hv. eapply sh_edges; [exact Hs|exact Hu|exact Hv].
    + intros [g' q'] [[H1 H2] H3]; simpl in *.
      eapply no_oob_weaken.
      * apply IH; [exact H1|]. eapply Forall_in_left_same; eassumption.
      * simpl. intros g'' [? ?]. split; [assumption|].
        eapply same_graph_trans; eassumption.
  - apply IH; assumption.
Qed.

Lemma bfs_fuel_safe fuel g :
  Shape g -> no_oob (keeps g) (bfs_fuel fuel g).
Proof.
  intros Hs. unfold bfs_fuel.
  eapply no_oob_bind.
  - apply bfs_init_safe; [exact Hs| |constructor].
    intros u Hu. apply In_range1 in Hu. exact Hu.
  - intros [g1 q] [[H1 H2] H3]; simpl in *.
    pose proof (sh_dist _ H1) as Hd. pose proof (sh_nl _ H1) as Hn.
    vset_step.
    eapply no_oob_bind.
    + apply bfs_loop_safe.
      * apply Shape_dist_insert; exact H1.
      * eapply Forall_in_left_same; [|exact H3].
        eapply same_graph_trans; [exact H2|]. apply same_graph_set_dist.
    + simpl. intros g2 [H4 H5].
      pose proof (sh_dist _ H4) as Hd'. pose proof (sh_nl _ H4) as Hn'.
      vget_step 0. split; simpl; [exact H4|].
      eapply same_graph_trans; [exact H2|].
      eapply same_graph_trans; [|exact H5]. apply same_graph_set_dist.
Qed.

Section DfsSafe.
Variable rec : BipartiteGraph -> Z -> res (BipartiteGraph * bool).
Hypothesis rec_safe : forall g u,
  Shape g -> in_left g u -> no_oob (keeps g) (rec g u).

Lemma dfs_neighbours_safe u vs : forall g,
  Shape g -> 1 <= u <= nLeft g ->
  (forall v, In v vs -> 1 <= v <= nRight g) ->
  no_oob (keeps g) (dfs_neighbours rec u vs g).
Proof using rec_safe.
  induction vs as [|v vs IH]; intros g Hs Hu Hvs; simpl.
  - pose proof (sh_dist _ Hs) as Hd. vset_step.
    split; simpl; auto with hk.
  - assert (Hv : 1 <= v <= nRight g) by (apply Hvs; left; reflexivity).
    pose proof (sh_pairV _ Hs) as Hp. pose proof (sh_dist _ Hs) as Hd.
    assert (Hpv : 0 <= pairVA g v <= nLeft g) by (apply sh_pv; [exact Hs|lia]).
    unfold pairVA in *.
    vget_step 0. vget_step 0. vget_step 0.
    destruct (_ =? _).
    + eapply no_oob_bind; [apply rec_safe; [exact Hs|exact Hpv]|].
      intros [g1 found] [H1 H2]; simpl in *.
      destruct H2 as (En & Er & Ea).
      destruct found.
      * pose proof (sh_pairU _ H1) as Hp1. pose proof (sh_pairV _ H1) as Hp2.
        vset_step. simpl. vset_step.
        split; simpl.
        -- apply Shape_rewire; [exact H1|lia|lia].
        -- repeat split; assumption.
      * eapply no_oob_weaken.
        -- apply IH; [exact H1|lia|].
           intros w Hw. rewrite Er. apply Hvs; right; exact Hw.
        -- intros r Hr. eapply keeps_trans with (b := tt); [|exact Hr].
           split; simpl; [exact H1|repeat split; assumption].
    + apply IH; auto. intros w Hw. apply Hvs; right; exact Hw.
Qed.
End DfsSafe.

Lemma dfs_fuel_safe fuel : forall g u,
  Shape g -> in_left g u -> no_oob (keeps g) (dfs_fuel fuel g u).
Proof.
  induction fuel as [|fuel IH]; intros g u Hs Hu; simpl; [exact I|].
  destruct (Z.eqb_spec u 0) as [->|Hne].
  - split; simpl; auto with hk.
  - unfold in_left in Hu. pose proof (sh_adj _ Hs) as Ha.
    vget_step (@nil Z).
    apply dfs_neighbours_safe; [exact IH|exact Hs|lia|].
    intros v Hv. eapply sh_edges; [exact Hs|exact Hu|exact Hv].
Qed.

Lemma augment_safe dfuel us : forall g matching,
  Shape g -> (forall u, In u us -> 1 <= u <= nLeft g) ->
  no_oob (keeps g) (augment dfuel us g matching).
Proof.
  induction us as [|u us IH]; intros g m Hs Hus; simpl.
  - split; simpl; auto with hk.
  - assert (Hu : 1 <= u <= nLeft g) by (apply Hus; left; reflexivity).
    pose proof (sh_pairU _ Hs) as Hp.
    vget_step 0.
    destruct (_ =? 0).
    + eapply no_oob_bind; [apply dfs_fuel_safe; [exact Hs|unfold in_left; lia]|].
      intros [g1 found] H1.
      assert (Hus' : forall w, In w us -> 1 <= w <= nLeft g1).
      { intros w Hw. destruct H1 as [_ (En & _)]; simpl in En. rewrite En.
        apply Hus; right; exact Hw. }
      destruct found; (eapply no_oob_weaken;
        [apply IH; [exact (proj1 H1)|exact Hus']
        |intros r Hr; eapply keeps_trans; [exact H1|exact Hr]]).
    + apply IH; [exact Hs|]. intros w Hw. apply Hus; right; exact Hw.
Qed.

Lemma phases_safe pfuel bfuel dfuel : forall g matching,
  Shape g -> no_oob (keeps g) (phases pfuel bfuel dfuel g matching).
Proof.
  induction pfuel as [|pfuel IH]; intros g m Hs; simpl; [exact I|].
  eapply no_oob_bind; [apply bfs_fuel_safe; exact Hs|].
  intros [g1 more] H1. destruct more.
  - eapply no_oob_bind.
    + apply augment_safe; [exact (proj1 H1)|].
      intros u Hu. apply In_range1 in Hu. exact Hu.
    + intros [g2 m'] H2. eapply no_oob_weaken; [apply IH; exact (proj1 H2)|].
      intros r Hr. eapply keeps_trans; [|exact Hr].
      eapply keeps_trans; [exact H1|exact H2].
  - exact H1.
Qed.

Lemma collect_pairs_safe us : forall g result,
  Shape g -> (forall u, In u us -> 1 <= u <= nLeft g) ->
  no_oob (fun _ => True) (collect_pairs us g result).
Proof.
  induction us as [|u us IH]; intros g result Hs Hus; simpl; [exact I|].
  assert (Hu : 1 <= u <= nLeft g) by (apply Hus; left; reflexivity).
  pose proof (sh_pairU _ Hs) as Hp.
  vget_step 0.
  destruct (_ =? 0); apply IH; auto; intros w Hw; apply Hus; right; exact Hw.
Qed.

(** ** The matching kept in [pairU] and [pairV] *)

(** [Quasi g s]: [pairU] and [pairV] describe a matching made of edges of
    the graph, except that the entry of [pairV] at the right vertex [s] may
    be stale (it is about to be overwritten by the caller of [dfs]).  With
    [s = 0] nothing is stale. *)
Record Quasi (g : BipartiteGraph) (s : Z) : Prop := mkQuasi {
  q_range : forall u, 0 <= u <= nLeft g -> 0 <= pairUA g u <= nRight g;
  q_pu0 : pairUA g 0 = 0;
  q_pv0 : pairVA g 0 = 0;
  q_uv : forall u, 1 <= u <= nLeft g -> pairUA g u <> 0 ->
         pairVA g (pairUA g u) = u;
  q_vu : forall v, 1 <= v <= nRight g -> v <> s -> pairVA g v <> 0 ->
         pairUA g (pairVA g v) = v;
  q_stale : s <> 0 -> forall u, 1 <= u <= nLeft g -> pairUA g u <> s;
  q_edge : forall u, 1 <= u <= nLeft g -> pairUA g u <> 0 ->
           In (pairUA g u) (adjA g u)
}.

Definition dist_le (g : BipartiteGraph) : Prop :=
  forall x, 0 <= x <= nLeft g -> 0 <= distA g x <= INF.

Record Valid (g : BipartiteGraph) : Prop := mkValid {
  va_shape : Shape g;
  va_dist : dist_le g;
  va_match : Quasi g 0
}.

(** ** Layered paths *)

(** [LR g u]: from [u] the sentinel [0] is reachable along edges that go
    up exactly one layer: what [dfs] searches for. *)
Inductive LR (g : BipartiteGraph) : Z -> Prop :=
| LR_zero : LR g 0
| LR_step u v :
    1 <= u <= nLeft g ->
    In v (adjA g u) ->
    distA g (pairVA g v) = distA g u + 1 ->
    LR g (pairVA g v) ->
    LR g u.

Definition viable (g : BipartiteGraph) (u v : Z) : Prop :=
  distA g (pairVA g v) = distA g u + 1 /\ LR g (pairVA g v).

Lemma LR_inv g u :
  LR g u -> u <> 0 ->
  1 <= u <= nLeft g /\ exists v, In v (adjA g u) /\ viable g u v.
Proof.
  intros H Hu. destruct H as [|u v H1 H2 H3 H4]; [congruence|].
  split; [exact H1|]. exists v. split; [exact H2|split; assumption].
Qed.

Lemma LR_dist_lt g u :
  Shape g -> dist_le g -> LR g u -> u <> 0 -> distA g u < INF.
Proof.
  intros Hs Hd H Hu. apply LR_inv in H as [Hr (v & Hv & Hl & _)]; [|exact Hu].
  assert (1 <= v <= nRight g) by (eapply sh_edges; [exact Hs| |exact Hv]; lia).
  assert (0 <= pairVA g v <= nLeft g) by (apply sh_pv; [exact Hs|lia]).
  pose proof (Hd (pairVA g v) ltac:(lia)). lia.
Qed.

Lemma LR_transfer g g' :
  same_graph g g' -> pairV g' = pairV g ->
  (forall x, 0 <= x <= nLeft g -> LR g x -> distA g' x = distA g x) ->
  Shape g ->
  forall x, LR g x -> LR g' x.
Proof.
  intros Hsg Hpv Hd Hs x H. induction H as [|u v H1 H2 H3 H4 IH].
  - constructor.
  - assert (Hv : 1 <= v <= nRight g) by (eapply sh_edges; [exact Hs| |exact H2]; lia).
    assert (Hw : 0 <= pairVA g v <= nLeft g) by (apply sh_pv; [exact Hs|lia]).
    destruct Hsg as (En & Er & Ea).
    assert (Epv : pairVA g' v = pairVA g v) by (unfold pairVA; rewrite Hpv; reflexivity).
    apply LR_step with (v := v).
    + lia.
    + unfold adjA. rewrite Ea. exact H2.
    + rewrite Epv. rewrite (Hd (pairVA g v)) by (exact Hw || exact H4).
      rewrite (Hd u); [exact H3|lia|]. eapply LR_step; eassumption.
    + rewrite Epv. exact IH.
Qed.

(** ** Counting the entries of [dist] above a level: the measure of [dfs] *)

Fixpoint above (L : Z) (l : list Z) : nat :=
  match l with
  | [] => O
  | d :: l' => if L <? d then S (above L l') else above L l'
  end.

Lemma above_le_length L l : (above L l <= length l)%nat.
Proof. induction l as [|d l IH]; simpl; [lia|]. destruct (L <? d); lia. Qed.

Lemma vat_cons {A} (d a : A) (l : list A) (i : Z) :
  0 <= i -> vat d (a :: l) (i + 1) = vat d l i.
Proof.
  intros Hi. unfold vat. replace (Z.to_nat (i + 1)) with (S (Z.to_nat i)) by lia.
  reflexivity.
Qed.

Lemma above_pointwise L1 L2 : forall l1 l2,
  length l1 = length l2 ->
  (forall i, 0 <= i < zlen l1 -> L2 < vat 0 l2 i -> L1 < vat 0 l1 i) ->
  (above L2 l2 <= above L1 l1)%nat.
Proof.
  induction l1 as [|a l1 IH]; intros [|b l2] Hlen Hp; simpl in *; try lia.
  assert (IH' : (above L2 l2 <= above L1 l1)%nat).
  { apply IH; [lia|]. intros i Hi Hlt.
    specialize (Hp (i + 1) ltac:(lia)). rewrite !vat_cons in Hp by lia. auto. }
  specialize (Hp 0 ltac:(lia)). unfold vat in Hp; simpl in Hp.
  destruct (Z.ltb_spec L2 b), (Z.ltb_spec L1 a); lia.
Qed.

Lemma above_pointwise_strict L1 L2 : forall l1 l2 j,
  length l1 = length l2 ->
  (forall i, 0 <= i < zlen l1 -> L2 < vat 0 l2 i -> L1 < vat 0 l1 i) ->
  0 <= j < zlen l1 -> L1 < vat 0 l1 j -> ~ L2 < vat 0 l2 j ->
  (above L2 l2 < above L1 l1)%nat.
Proof.
  induction l1 as [|a l1 IH]; intros [|b l2] j Hlen Hp Hj H1 H2; simpl in *; try lia.
  assert (Hp' : forall i, 0 <= i < zlen l1 -> L2 < vat 0 l2 i -> L1 < vat 0 l1 i).
  { intros i Hi Hlt.
    specialize (Hp (i + 1) ltac:(lia)). rewrite !vat_cons in Hp by lia. auto. }
  pose proof (Hp 0 ltac:(lia)) as Hp0. unfold vat in Hp0; simpl in Hp0.
  destruct (Z.eq_dec j 0) as [->|Hj0].
  - unfold vat in H1, H2; simpl in H1, H2.
    assert ((above L2 l2 <= above L1 l1)%nat) by (apply above_pointwise; [lia|exact Hp']).
    destruct (Z.ltb_spec L2 b), (Z.ltb_spec L1 a); lia.
  - assert ((above L2 l2 < above L1 l1)%nat).
    { apply (IH l2 (j - 1)); [lia|exact Hp'|lia| |].
      - replace j with (j - 1 + 1) in H1 by lia. rewrite vat_cons in H1 by lia. exact H1.
      - replace j with (j - 1 + 1) in H2 by lia. rewrite vat_cons in H2 by lia. exact H2. }
    destruct (Z.ltb_spec L2 b), (Z.ltb_spec L1 a); lia.
Qed.

(** ** What a search may change *)

(** [kills L g g']: from [g] to [g'] the only changes of [dist] are that
    vertices of layer at least [L] were marked dead. *)
Definition kills (L : Z) (g g' : BipartiteGraph) : Prop :=
  forall x, 0 <= x <= nLeft g ->
    distA g' x = distA g x \/
    (x <> 0 /\ L <= distA g x /\ distA g' x = INF).

Lemma kills_refl L g : kills L g g.
Proof. intros x _. left; reflexivity. Qed.

Lemma kills_trans L L' g g1 g2 :
  L <= L' -> nLeft g1 = nLeft g ->
  kills L g g1 -> kills L' g1 g2 -> kills L g g2.
Proof.
  intros HL En H1 H2 x Hx.
  destruct (H2 x ltac:(lia)) as [E2|(Hx0 & Hl2 & E2)];
    destruct (H1 x Hx) as [E1|(Hx1 & Hl1 & E1)].
  - left; congruence.
  - right; repeat split; try assumption. congruence.
  - right; repeat split; try assumption. lia.
  - right; repeat split; assumption.
Qed.

Lemma kills_weaken L L' g g' : L <= L' -> kills L' g g' -> kills L g g'.
Proof.
  intros HL H x Hx. destruct (H x Hx) as [E|(H0 & H1 & H2)]; [left; exact E|].
  right; repeat split; try assumption. lia.
Qed.

Lemma kills_dist_le L g g' :
  nLeft g' = nLeft g -> dist_le g -> kills L g g' -> dist_le g'.
Proof.
  intros En Hd Hk x Hx. rewrite En in Hx.
  destruct (Hk x Hx) as [E|(_ & _ & E)]; rewrite E; [apply Hd; exact Hx|].
  unfold INF; lia.
Qed.

(** [Link L g g']: [g'] comes from [g] by failed searches at layers at
    least [L]: the matching is untouched and no layered path was lost or
    created. *)
Record Link (L : Z) (g g' : BipartiteGraph) : Prop := mkLink {
  lk_shape : Shape g';
  lk_same : same_graph g g';
  lk_pu : pairU g' = pairU g;
  lk_pv : pairV g' = pairV g;
  lk_kill : kills L g g';
  lk_lr : forall x, LR g x <-> LR g' x
}.

Lemma Link_refl L g : Shape g -> Link L g g.
Proof.
  intros Hs. constructor; try reflexivity.
  - exact Hs.
  - apply same_graph_refl.
  - apply kills_refl.
Qed.

Lemma Link_trans L L' g g1 g2 :
  L <= L' -> Link L g g1 -> Link L' g1 g2 -> Link L g g2.
Proof.
  intros HL [S1 G1 U1 V1 K1 R1] [S2 G2 U2 V2 K2 R2]. constructor.
  - exact S2.
  - eapply same_graph_trans; eassumption.
  - congruence.
  - congruence.
  - eapply kills_trans; [exact HL|exact (proj1 G1)|exact K1|exact K2].
  - intros x. rewrite R1. apply R2.
Qed.

Lemma Link_weaken L L' g g' : L <= L' -> Link L' g g' -> Link L g g'.
Proof.
  intros HL [S1 G1 U1 V1 K1 R1]. constructor; try assumption.
  eapply kills_weaken; eassumption.
Qed.

Lemma Quasi_ext g g' s :
  same_graph g g' -> pairU g' = pairU g -> pairV g' = pairV g ->
  Quasi g s -> Quasi g' s.
Proof.
  intros (En & Er & Ea) Eu Ev [].
  constructor; unfold pairUA, pairVA, adjA in *; rewrite ?Eu, ?Ev, ?En, ?Er, ?Ea;
    assumption.
Qed.

Lemma Link_Valid L g g' : Valid g -> Link L g g' -> Valid g'.
Proof.
  intros [Hs Hd Hq] [S1 G1 U1 V1 K1 R1]. constructor.
  - exact S1.
  - eapply kills_dist_le; [exact (proj1 G1)|exact Hd|exact K1].
  - eapply Quasi_ext; eassumption.
Qed.

Lemma Link_pairUA L g g' x : Link L g g' -> pairUA g' x = pairUA g x.
Proof. intros H. unfold pairUA. rewrite (lk_pu _ _ _ H). reflexivity. Qed.

Lemma Link_pairVA L g g' x : Link L g g' -> pairVA g' x = pairVA g x.
Proof. intros H. unfold pairVA. rewrite (lk_pv _ _ _ H). reflexivity. Qed.

(** A vertex that was marked dead has no layered path. *)
Lemma killed_not_LR L g g' x :
  Valid g -> Link L g g' -> 0 <= x <= nLeft g ->
  distA g' x <> distA g x -> ~ LR g x.
Proof.
  intros Hv Hl Hx Hne Hlr.
  destruct (lk_kill _ _ _ Hl x Hx) as [E|(Hx0 & _ & E)]; [congruence|].
  apply (lk_lr _ _ _ Hl) in Hlr.
  pose proof (Link_Valid _ _ _ Hv Hl) as [Hs' Hd' _].
  pose proof (LR_dist_lt _ _ Hs' Hd' Hlr Hx0). lia.
Qed.

(** The last two statements of a failed [dfs]: [dist[u] = INF]. *)
Lemma kill_Link g u :
  Valid g -> 1 <= u <= nLeft g -> ~ LR g u ->
  Link (distA g u) g (set_dist g (<[Z.to_nat u := INF]> (dist g))).
Proof.
  intros [Hs Hd Hq] Hu Hn.
  set (g' := set_dist g (<[Z.to_nat u := INF]> (dist g))).
  pose proof (sh_dist _ Hs) as Hlen.
  assert (Hs' : Shape g') by (apply Shape_dist_insert; exact Hs).
  assert (Hdist : forall x, 0 <= x <= nLeft g ->
            distA g' x = if x =? u then INF else distA g x).
  { intros x Hx. unfold distA, g'; simpl. apply vat_insert; lia. }
  assert (Hk : kills (distA g u) g g').
  { intros x Hx. rewrite (Hdist x Hx). destruct (Z.eqb_spec x u) as [->|Hxu].
    - right. repeat split; lia.
    - left; reflexivity. }
  assert (Hd' : dist_le g').
  { apply (kills_dist_le (distA g u) g g'); [reflexivity|exact Hd|exact Hk]. }
  constructor; try assumption; try reflexivity.
  - apply same_graph_set_dist.
  - intros x; split; intros Hx.
    + revert x Hx. apply LR_transfer; [apply same_graph_set_dist|reflexivity| |exact Hs].
      intros x Hx Hlr. rewrite (Hdist x Hx).
      destruct (Z.eqb_spec x u) as [->|Hxu]; [contradiction|reflexivity].
    + revert x Hx. apply LR_transfer; [repeat split|reflexivity| |exact Hs'].
      intros x Hx Hlr. simpl in Hx. rewrite (Hdist x Hx).
      destruct (Z.eqb_spec x u) as [->|Hxu]; [|reflexivity].
      pose proof (LR_dist_lt _ _ Hs' Hd' Hlr ltac:(lia)) as Hlt.
      rewrite (Hdist u ltac:(lia)) in Hlt. rewrite Z.eqb_refl in Hlt. lia.
Qed.

(** ** Augmenting along the path that [dfs] found *)

(** The two writes [pairU[u] = v; pairV[v] = u]. *)
Definition rewire (g : BipartiteGraph) (u v : Z) : BipartiteGraph :=
  set_pairV (set_pairU g (<[Z.to_nat u := v]> (pairU g)))
            (<[Z.to_nat v := u]> (pairV g)).

Lemma rewire_pairUA g u v x :
  Shape g -> 1 <= u <= nLeft g -> 0 <= x ->
  pairUA (rewire g u v) x = if x =? u then v else pairUA g x.
Proof.
  intros Hs Hu Hx. pose proof (sh_pairU _ Hs). unfold pairUA; simpl.
  apply vat_insert; lia.
Qed.

Lemma rewire_pairVA g u v x :
  Shape g -> 1 <= v <= nRight g -> 0 <= x ->
  pairVA (rewire g u v) x = if x =? v then u else pairVA g x.
Proof.
  intros Hs Hu Hx. pose proof (sh_pairV _ Hs). unfold pairVA; simpl.
  apply vat_insert; lia.
Qed.

Lemma Quasi_free g v :
  Quasi g 0 -> 1 <= v <= nRight g -> pairVA g v = 0 -> Quasi g v.
Proof.
  intros [] Hv Hf. constructor; try assumption.
  - intros r Hr _ Hne. apply q_vu0; [exact Hr|lia|exact Hne].
  - intros _ u Hu E. specialize (q_uv0 u Hu ltac:(lia)). rewrite E in q_uv0. lia.
Qed.

Lemma rewire_Quasi g u v :
  Shape g -> Quasi g v -> 1 <= u <= nLeft g -> 1 <= v <= nRight g ->
  In v (adjA g u) -> Quasi (rewire g u v) (pairUA g u).
Proof.
  intros Hs [Hr H0u H0v Huv Hvu Hst He] Hu Hv Hin.
  assert (Hst' : forall x, 1 <= x <= nLeft g -> pairUA g x <> v)
    by (apply Hst; lia).
  assert (EU : forall x, 0 <= x ->
            pairUA (rewire g u v) x = if x =? u then v else pairUA g x)
    by (intros; apply rewire_pairUA; assumption).
  assert (EV : forall x, 0 <= x ->
            pairVA (rewire g u v) x = if x =? v then u else pairVA g x)
    by (intros; apply rewire_pairVA; assumption).
  constructor; simpl.
  - intros x Hx. rewrite EU by lia. destruct (x =? u); [lia|apply Hr; exact Hx].
  - rewrite EU by lia. destruct (Z.eqb_spec 0 u); [lia|exact H0u].
  - rewrite EV by lia. destruct (Z.eqb_spec 0 v); [lia|exact H0v].
  - intros x Hx. rewrite EU by lia. destruct (Z.eqb_spec x u) as [->|Hxu].
    + intros _. rewrite EV by lia. rewrite Z.eqb_refl. reflexivity.
    + intros Hne. pose proof (Hr x ltac:(lia)). rewrite EV by lia.
      destruct (Z.eqb_spec (pairUA g x) v) as [E|_].
      * exfalso. apply (Hst' x Hx E).
      * apply Huv; assumption.
  - intros r Hr' Hrs. rewrite EV by lia. destruct (Z.eqb_spec r v) as [->|Hrv].
    + intros _. rewrite EU by lia. rewrite Z.eqb_refl. reflexivity.
    + intros Hne. pose proof (sh_pv _ Hs r ltac:(lia)) as Hw.
      rewrite EU by lia. destruct (Z.eqb_spec (pairVA g r) u) as [E|_].
      * exfalso. apply Hrs. rewrite <- E. symmetry. apply Hvu; assumption.
      * apply Hvu; assumption.
  - intros Hs0 x Hx. rewrite EU by lia. destruct (Z.eqb_spec x u) as [->|Hxu].
    + intros E. apply (Hst' u Hu). congruence.
    + intros E. apply Hxu.
      rewrite <- (Huv x Hx) by congruence. rewrite <- (Huv u Hu) by congruence.
      congruence.
  - intros x Hx. rewrite EU by lia. unfold adjA; simpl. fold (adjA g x).
    destruct (Z.eqb_spec x u) as [->|Hxu]; [intros _; exact Hin|apply He; exact Hx].
Qed.

(** [Frame L u g g']: what a successful search from layer [L] may have
    changed. *)
Record Frame (L : Z) (u : Z) (g g' : BipartiteGraph) : Prop := mkFrame {
  fr_shape : Shape g';
  fr_same : same_graph g g';
  fr_kill : kills L g g';
  fr_free : forall x, 1 <= x <= nLeft g -> x <> u ->
            (pairUA g' x = 0 <-> pairUA g x = 0);
  fr_U : forall x, 0 <= x <= nLeft g ->
         pairUA g' x <> pairUA g x -> L <= distA g x;
  fr_V : forall r, 0 <= r <= nRight g ->
         pairVA g' r <> pairVA g r -> L < distA g (pairVA g r)
}.

Lemma Frame_refl L u g : Shape g -> Frame L u g g.
Proof.
  intros Hs. constructor; try tauto; try congruence.
  - apply same_graph_refl.
  - apply kills_refl.
Qed.

Definition Augmented (g g' : BipartiteGraph) (u : Z) : Prop :=
  Frame (distA g u) u g g' /\ Quasi g' (pairUA g u) /\ pairUA g' u <> 0.

(** The result of [dfs(u)]. *)
Definition dfs_post (g : BipartiteGraph) (u : Z) (g' : BipartiteGraph)
  (found : bool) : Prop :=
  if found then Augmented g g' u
  else Link (distA g u) g g' /\ ~ LR g u.

Lemma augment_step g gc g1 u v :
  Valid g -> 1 <= u <= nLeft g ->
  Link (distA g u + 1) g gc ->
  In v (adjA g u) ->
  distA gc (pairVA gc v) = distA gc u + 1 ->
  Frame (distA g u + 1) (pairVA gc v) gc g1 ->
  Quasi g1 v ->
  (pairVA gc v <> 0 -> pairUA g1 (pairVA gc v) <> 0) ->
  Augmented g (rewire g1 u v) u.
Proof.
  intros Hv Hu Hl Hin Hlay Hf Hq Hw0.
  pose proof (Link_Valid _ _ _ Hv Hl) as Hvc.
  destruct Hv as [Hs Hd Hm]. destruct Hvc as [Hsc Hdc Hmc].
  destruct Hl as [_ Gc Uc Vc Kc Rc]. destruct Hf as [S1 G1 K1 F1 U1 V1].
  destruct Gc as (Enc & Erc & Eac). destruct G1 as (En1 & Er1 & Ea1).
  set (L := distA g u) in *. set (w := pairVA gc v) in *.
  assert (EUc : forall x, pairUA gc x = pairUA g x)
    by (intros; unfold pairUA; rewrite Uc; reflexivity).
  assert (EVc : forall x, pairVA gc x = pairVA g x)
    by (intros; unfold pairVA; rewrite Vc; reflexivity).
  assert (Hvr : 1 <= v <= nRight g) by (eapply sh_edges; [exact Hs| |exact Hin]; lia).
  assert (Hwr : 0 <= w <= nLeft g).
  { unfold w. rewrite EVc. apply sh_pv; [exact Hs|lia]. }
  assert (Hcu : distA gc u = L).
  { destruct (Kc u ltac:(lia)) as [E|(_ & Hle & _)]; [exact E|unfold L in Hle; lia]. }
  assert (Hlift : forall y k, 0 <= y <= nLeft g -> L + 1 <= k ->
            k <= distA gc y -> L + 1 <= distA g y).
  { intros y k Hy Hk Hle. destruct (Kc y Hy) as [E|(_ & Hle' & _)]; lia. }
  assert (Hgw : L + 1 <= distA g w) by (apply (Hlift w (L + 1)); lia).
  assert (EU : forall x, 0 <= x ->
            pairUA (rewire g1 u v) x = if x =? u then v else pairUA g1 x)
    by (intros; apply rewire_pairUA; [exact S1|lia|lia]).
  assert (EV : forall x, 0 <= x ->
            pairVA (rewire g1 u v) x = if x =? v then u else pairVA g1 x)
    by (intros; apply rewire_pairVA; [exact S1|lia|lia]).
  assert (E1u : pairUA g1 u = pairUA g u).
  { rewrite <- EUc. destruct (Z.eq_dec (pairUA g1 u) (pairUA gc u)) as [E|E]; [exact E|].
    apply U1 in E; lia. }
  split; [|split].
  - constructor.
    + apply Shape_rewire; [exact S1|lia|lia].
    + unfold same_graph; simpl. repeat split; congruence.
    + apply kills_weaken with (L' := L + 1); [lia|].
      intros x Hx. change (distA (rewire g1 u v) x) with (distA g1 x).
      revert x Hx. change (kills (L + 1) g g1).
      apply (kills_trans (L + 1) (L + 1) g gc g1); [lia|exact Enc|exact Kc|exact K1].
    + intros x Hx Hxu. rewrite EU by lia.
      destruct (Z.eqb_spec x u) as [|_]; [contradiction|].
      rewrite <- EUc. destruct (Z.eq_dec x w) as [->|Hxw].
      * assert (pairUA gc w = v).
        { apply (q_vu _ _ Hmc); [lia|lia|fold w; lia]. }
        specialize (Hw0 ltac:(lia)). lia.
      * apply F1; [lia|exact Hxw].
    + intros x Hx. rewrite EU by lia. destruct (Z.eqb_spec x u) as [->|Hxu].
      * intros _. unfold L; lia.
      * intros Hne. rewrite <- EUc in Hne. apply U1 in Hne; [|lia].
        pose proof (Hlift x (L + 1) Hx ltac:(lia) Hne). lia.
    + intros r Hr. rewrite EV by lia. destruct (Z.eqb_spec r v) as [->|Hrv].
      * intros _. rewrite <- EVc. fold w. lia.
      * intros Hne. rewrite <- EVc in Hne. apply V1 in Hne; [|lia].
        rewrite <- EVc.
        assert (0 <= pairVA gc r <= nLeft g).
        { rewrite <- Enc. apply sh_pv; [exact Hsc|lia]. }
        pose proof (Hlift (pairVA gc r) (L + 2) ltac:(lia) ltac:(lia) ltac:(lia)). lia.
  - rewrite <- E1u. apply rewire_Quasi; [exact S1|exact Hq|lia|lia|].
    unfold adjA. rewrite Ea1, Eac. exact Hin.
  - rewrite EU by lia. rewrite Z.eqb_refl. lia.
Qed.

(** ** [dfs] returns, and what it returns *)

Section DfsSpec.
Variable fuel : nat.
Variable rec : BipartiteGraph -> Z -> res (BipartiteGraph * bool).
Hypothesis rec_zero :
  (0 < fuel)%nat -> forall g, rec g 0 = Ok (g, true).
Hypothesis rec_spec : forall g u,
  Valid g -> 1 <= u <= nLeft g ->
  (above (distA g u) (dist g) < fuel)%nat ->
  exists g' found, rec g u = Ok (g', found) /\ dfs_post g u g' found.

Variable g : BipartiteGraph.
Variable u : Z.
Hypothesis Hvalid : Valid g.
Hypothesis Hu : 1 <= u <= nLeft g.
Hypothesis Hfuel : (above (distA g u) (dist g) < S fuel)%nat.

Lemma sub_fuel gc w :
  Link (distA g u + 1) g gc -> 0 <= w <= nLeft g ->
  distA gc w = distA gc u + 1 ->
  (above (distA gc w) (dist gc) < fuel)%nat.
Proof using Hvalid Hu Hfuel.
  clear rec rec_zero rec_spec. intros Hl Hw Hlay.
  pose proof (va_shape _ Hvalid) as Hs.
  pose proof (sh_dist _ Hs) as Hlen.
  pose proof (sh_dist _ (lk_shape _ _ _ Hl)) as Hlenc.
  pose proof (proj1 (lk_same _ _ _ Hl)) as En.
  pose proof (lk_kill _ _ _ Hl) as Hk.
  assert (Hcu : distA gc u = distA g u).
  { destruct (Hk u ltac:(lia)) as [E|(_ & Hle & _)]; [exact E|lia]. }
  enough ((above (distA gc w) (dist gc) < above (distA g u) (dist g))%nat) by lia.
  apply above_pointwise_strict with (j := w).
  - lia.
  - intros i Hi Hlt. fold (distA gc i) in Hlt. fold (distA g i).
    destruct (Hk i ltac:(lia)) as [E|(_ & Hle & _)]; lia.
  - lia.
  - fold (distA g w). destruct (Hk w Hw) as [E|(_ & Hle & _)]; lia.
  - fold (distA gc w). lia.
Qed.

Lemma dfs_neighbours_spec : forall vs done gc,
  adjA g u = done ++ vs ->
  (forall v, In v done -> ~ viable g u v) ->
  Link (distA g u + 1) g gc ->
  exists g' found,
    dfs_neighbours rec u vs gc = Ok (g', found) /\ dfs_post g u g' found.
Proof using rec_zero rec_spec Hvalid Hu Hfuel.
  pose proof (va_shape _ Hvalid) as Hs.
  induction vs as [|v vs IH]; intros done gc Hadj Hdone Hl.
  - (* every neighbour failed: dist[u] = INF; return false *)
    rewrite app_nil_r in Hadj.
    pose proof (Link_Valid _ _ _ Hvalid Hl) as Hvc.
    pose proof (sh_dist _ (va_shape _ Hvc)) as Hlenc.
    pose proof (proj1 (lk_same _ _ _ Hl)) as En.
    assert (Hcu : distA gc u = distA g u).
    { destruct (lk_kill _ _ _ Hl u ltac:(lia)) as [E|(_ & Hle & _)]; [exact E|lia]. }
    assert (Hnot : ~ LR g u).
    { intros Hlr. apply LR_inv in Hlr as [_ (v & Hv & Hvi)]; [|lia].
      rewrite Hadj in Hv. exact (Hdone v Hv Hvi). }
    simpl. vset_step.
    eexists _, false. split; [reflexivity|].
    split; [|exact Hnot].
    apply Link_trans with (L' := distA g u) (g1 := gc); [lia| |].
    + apply Link_weaken with (L' := distA g u + 1); [lia|exact Hl].
    + rewrite <- Hcu. apply kill_Link; [exact Hvc|lia|].
      intros Hlr. apply Hnot. apply (lk_lr _ _ _ Hl). exact Hlr.
  - (* the neighbour v *)
    pose proof (Link_Valid _ _ _ Hvalid Hl) as Hvc.
    pose proof (va_shape _ Hvc) as Hsc.
    pose proof (sh_dist _ Hsc) as Hlenc. pose proof (sh_pairV _ Hsc) as Hlenv.
    pose proof (sh_pairU _ Hsc) as Hlenu.
    destruct (lk_same _ _ _ Hl) as (En & Er & Ea).
    assert (Hin : In v (adjA g u)) by (rewrite Hadj; apply in_or_app; right; left; reflexivity).
    assert (Hvr : 1 <= v <= nRight g) by (eapply sh_edges; [exact Hs| |exact Hin]; lia).
    assert (Hwr : 0 <= pairVA gc v <= nLeft g).
    { rewrite <- En. apply sh_pv; [exact Hsc|lia]. }
    assert (Hcu : distA gc u = distA g u).
    { destruct (lk_kill _ _ _ Hl u ltac:(lia)) as [E|(_ & Hle & _)]; [exact E|lia]. }
    assert (Hadj' : adjA g u = (done ++ [v]) ++ vs) by (rewrite <- app_assoc; exact Hadj).
    simpl. unfold pairVA, distA in *.
    vget_step 0. vget_step 0. vget_step 0.
    fold (pairVA gc v) in *. fold (distA gc (pairVA gc v)) in *.
    fold (distA gc u) in *. fold (distA g u) in *.
    destruct (Z.eqb_spec (distA gc (pairVA gc v)) (distA gc u + 1)) as [Hlay|Hnlay].
    + (* layered edge: recurse *)
      pose proof (sub_fuel gc (pairVA gc v) Hl Hwr Hlay) as Hsub.
      destruct (Z.eq_dec (pairVA gc v) 0) as [Hw0|Hw0].
      * (* v is free *)
        assert (Erec : rec gc (pairVA gc v) = Ok (gc, true))
          by (rewrite Hw0; apply rec_zero; lia).
        rewrite Erec. cbn [rbind].
        vset_step. vset_step. fold (rewire gc u v).
        eexists _, true. split; [reflexivity|].
        apply augment_step with (gc := gc); try assumption.
        -- apply Frame_refl; exact Hsc.
        -- apply Quasi_free; [exact (va_match _ Hvc)|lia|exact Hw0].
        -- intros Hne; contradiction.
      * destruct (rec_spec gc (pairVA gc v) Hvc ltac:(lia) Hsub)
          as (g1 & found & Erec & Hpost).
        rewrite Erec. cbn [rbind]. destruct found; simpl in Hpost.
        -- destruct Hpost as (Hf & Hq & Hne).
           pose proof (sh_pairU _ (fr_shape _ _ _ _ Hf)) as Hlenu1.
           pose proof (sh_pairV _ (fr_shape _ _ _ _ Hf)) as Hlenv1.
           destruct (fr_same _ _ _ _ Hf) as (En1 & Er1 & _).
           vset_step. vset_step. fold (rewire g1 u v).
           eexists _, true. split; [reflexivity|].
           assert (Epu : pairUA gc (pairVA gc v) = v).
           { apply (q_vu _ _ (va_match _ Hvc)); [lia|lia|exact Hw0]. }
           apply augment_step with (gc := gc); try assumption.
           ++ rewrite <- Hcu, <- Hlay. exact Hf.
           ++ rewrite <- Epu. exact Hq.
           ++ intros _. exact Hne.
        -- destruct Hpost as (Hl1 & Hnlr).
           apply (IH (done ++ [v]) g1 Hadj').
           ++ intros v' Hv'. apply in_app_or in Hv' as [Hv'|[<-|[]]]; [auto|].
              intros [_ Hlr]. apply Hnlr. apply (lk_lr _ _ _ Hl).
              rewrite (Link_pairVA _ _ _ v Hl). exact Hlr.
           ++ apply Link_trans with (L' := distA gc (pairVA gc v)) (g1 := gc);
                [lia|exact Hl|exact Hl1].
    + (* not a layered edge *)
      apply (IH (done ++ [v]) gc Hadj'); [|exact Hl].
      intros v' Hv'. apply in_app_or in Hv' as [Hv'|[<-|[]]]; [auto|].
      intros [Hd Hlr]. apply Hnlay.
      rewrite (Link_pairVA _ _ _ v Hl).
      destruct (Z.eq_dec (distA gc (pairVA g v)) (distA g (pairVA g v))) as [E|E].
      * rewrite E. lia.
      * exfalso. rewrite <- (Link_pairVA _ _ _ v Hl) in E, Hlr.
        exact (killed_not_LR _ _ _ _ Hvalid Hl Hwr E Hlr).
Qed.
End DfsSpec.

Lemma dfs_fuel_zero fuel g :
  (0 < fuel)%nat -> dfs_fuel fuel g 0 = Ok (g, true).
Proof. destruct fuel; [lia|reflexivity]. Qed.

Lemma dfs_fuel_spec fuel : forall g u,
  Valid g -> 1 <= u <= nLeft g ->
  (above (distA g u) (dist g) < fuel)%nat ->
  exists g' found, dfs_fuel fuel g u = Ok (g', found) /\ dfs_post g u g' found.
Proof.
  induction fuel as [|fuel IH]; intros g u Hv Hu Hf; [lia|].
  simpl. destruct (Z.eqb_spec u 0) as [|_]; [lia|].
  pose proof (sh_adj _ (va_shape _ Hv)) as Hlen.
  vget_step (@nil Z). fold (adjA g u).
  apply dfs_neighbours_spec with (fuel := fuel) (g := g) (done := []);
    try assumption.
  - intros H0 g0. apply dfs_fuel_zero; exact H0.
  - reflexivity.
  - intros v [].
  - apply Link_refl. exact (va_shape _ Hv).
Qed.

(** ** [bfs]: the seeding loop *)

Definition is_free (g : BipartiteGraph) (u : Z) : bool := pairUA g u =? 0.

(** The layer numbers with which the queue loop of [bfs] starts. *)
Definition seed_dist (g : BipartiteGraph) (x : Z) : Z :=
  if x =? 0 then INF else if is_free g x then 0 else INF.

Lemma vat_ext (l1 l2 : list Z) :
  length l1 = length l2 ->
  (forall i, 0 <= i < zlen l1 -> vat 0 l1 i = vat 0 l2 i) ->
  l1 = l2.
Proof.
  revert l2; induction l1 as [|a l1 IH]; intros [|b l2] Hlen H; simpl in *;
    try lia; [reflexivity|].
  f_equal.
  - specialize (H 0 ltac:(lia)). exact H.
  - apply IH; [lia|]. intros i Hi.
    specialize (H (i + 1) ltac:(lia)). rewrite !vat_cons in H by lia. exact H.
Qed.

Lemma NoDup_range1 n : List.NoDup (range1 n).
Proof.
  unfold range1. apply Injective_map_NoDup.
  - intros a b H. lia.
  - apply List.seq_NoDup.
Qed.

Lemma length_range1 n : 0 <= n -> zlen (range1 n) = n.
Proof. intros Hn. unfold range1. rewrite length_map, length_seq. lia. Qed.

Lemma bfs_init_spec us : forall g q,
  Shape g -> List.NoDup us -> (forall u, In u us -> 1 <= u <= nLeft g) ->
  exists g1,
    bfs_init us g q = Ok (g1, q ++ List.filter (is_free g) us) /\
    Shape g1 /\ same_graph g g1 /\
    pairU g1 = pairU g /\ pairV g1 = pairV g /\
    (forall x, In x us -> distA g1 x = seed_dist g x) /\
    (forall x, 0 <= x -> ~ In x us -> distA g1 x = distA g x).
Proof.
  induction us as [|u us IH]; intros g q Hs Hnd Hus; simpl.
  - exists g. rewrite app_nil_r.
    split; [reflexivity|]. split; [exact Hs|]. split; [apply same_graph_refl|].
    split; [reflexivity|]. split; [reflexivity|]. split; [intros x []|reflexivity].
  - assert (Hu : 1 <= u <= nLeft g) by (apply Hus; left; reflexivity).
    pose proof (sh_pairU _ Hs) as Hp. pose proof (sh_dist _ Hs) as Hd.
    inversion Hnd as [|? ? Hnin Hnd']; subst.
    vget_step 0. fold (pairUA g u).
    change (is_free g u) with (pairUA g u =? 0).
    set (val := if pairUA g u =? 0 then 0 else INF).
    set (g0 := set_dist g (<[Z.to_nat u := val]> (dist g))).
    assert (Hfree : forall x, is_free g0 x = is_free g x) by reflexivity.
    assert (Hs0 : Shape g0) by (apply Shape_dist_insert; exact Hs).
    assert (Hd0 : forall x, 0 <= x -> distA g0 x = if x =? u then val else distA g x).
    { intros x Hx. unfold distA, g0; simpl. apply vat_insert; lia. }
    assert (Efil : List.filter (is_free g0) us = List.filter (is_free g) us)
      by (apply List.filter_ext; exact Hfree).
    assert (Hus' : forall w, In w us -> 1 <= w <= nLeft g0).
    { intros w Hw. apply Hus; right; exact Hw. }
    assert (Hrest : forall g1,
      Shape g1 -> same_graph g0 g1 -> pairU g1 = pairU g0 -> pairV g1 = pairV g0 ->
      (forall x, In x us -> distA g1 x = seed_dist g0 x) ->
      (forall x, 0 <= x -> ~ In x us -> distA g1 x = distA g0 x) ->
      Shape g1 /\ same_graph g g1 /\ pairU g1 = pairU g /\ pairV g1 = pairV g /\
      (forall x, In x (u :: us) -> distA g1 x = seed_dist g x) /\
      (forall x, 0 <= x -> ~ In x (u :: us) -> distA g1 x = distA g x)).
    { intros g1 S1 G1 U1 V1 D1 D2. split; [exact S1|]. split; [exact G1|].
      split; [exact U1|]. split; [exact V1|]. split.
      - intros x [<-|Hx].
        + rewrite D2 by (lia || exact Hnin). rewrite Hd0 by lia. rewrite Z.eqb_refl.
          unfold seed_dist, is_free, val. destruct (Z.eqb_spec u 0); [lia|reflexivity].
        + rewrite D1 by exact Hx. reflexivity.
      - intros x Hx Hnx. simpl in Hnx. rewrite D2 by tauto. rewrite Hd0 by lia.
        destruct (Z.eqb_spec x u) as [->|]; [tauto|reflexivity]. }
    subst val. destruct (pairUA g u =? 0) eqn:Ef; vset_step; fold g0.
    + destruct (IH g0 (q ++ [u]) Hs0 Hnd' Hus') as
        (g1 & E1 & S1 & G1 & U1 & V1 & D1 & D2).
      exists g1. split; [|apply Hrest; assumption].
      rewrite E1, Efil, <- app_assoc. reflexivity.
    + destruct (IH g0 q Hs0 Hnd' Hus') as
        (g1 & E1 & S1 & G1 & U1 & V1 & D1 & D2).
      exists g1. split; [|apply Hrest; assumption].
      rewrite E1, Efil. reflexivity.
Qed.

(** The state in which the queue loop starts: after the seeding loop and
    [dist[0] = INF]. *)
Definition seeded (g : BipartiteGraph) : BipartiteGraph :=
  set_dist g (map (seed_dist g) (0 :: range1 (nLeft g))).

Definition seed_queue (g : BipartiteGraph) : list Z :=
  List.filter (is_free g) (range1 (nLeft g)).

Lemma vat_map_range (f : Z -> Z) n x :
  0 <= x <= n -> vat 0 (map f (0 :: range1 n)) x = f x.
Proof.
  intros Hx. unfold vat, range1.
  change (0 :: map Z.of_nat (seq 1 (Z.to_nat n)))
    with (map Z.of_nat (seq 0 (S (Z.to_nat n)))).
  rewrite map_map.
  rewrite (nth_indep _ 0 (f (Z.of_nat 0))) by (rewrite length_map, length_seq; lia).
  rewrite (map_nth (fun k => f (Z.of_nat k))).
  rewrite seq_nth by lia. f_equal. lia.
Qed.

Lemma seeded_distA g x :
  0 <= x <= nLeft g -> distA (seeded g) x = seed_dist g x.
Proof. intros Hx. unfold distA, seeded; simpl. apply vat_map_range; exact Hx. Qed.

Lemma Shape_seeded g : Shape g -> Shape (seeded g).
Proof.
  intros Hs. apply Shape_set_dist; [exact Hs|].
  rewrite (sh_dist _ Hs). simpl. rewrite length_map.
  pose proof (length_range1 (nLeft g) (sh_nl _ Hs)). lia.
Qed.

Lemma bfs_init_seeded g :
  Shape g ->
  exists g1 d,
    bfs_init (range1 (nLeft g)) g [] = Ok (g1, seed_queue g) /\
    vset (dist g1) 0 INF = Ok d /\
    set_dist g1 d = seeded g.
Proof.
  intros Hs.
  destruct (bfs_init_spec (range1 (nLeft g)) g [] Hs (NoDup_range1 _))
    as (g1 & E1 & S1 & G1 & U1 & V1 & D1 & D2).
  { intros u Hu. apply In_range1. exact Hu. }
  pose proof (sh_dist _ S1) as Hd. pose proof (sh_nl _ S1) as Hn.
  destruct G1 as (En & Er & Ea).
  exists g1, (<[Z.to_nat 0 := INF]> (dist g1)).
  split; [exact E1|]. split; [apply vset_ok; lia|].
  unfold seeded, set_dist. rewrite En, Er, Ea, U1, V1. f_equal.
  apply vat_ext.
  - rewrite length_insert. simpl. rewrite length_map.
    pose proof (length_range1 (nLeft g) (sh_nl _ Hs)). lia.
  - intros i Hi. rewrite length_insert in Hi.
    rewrite vat_map_range by lia.
    rewrite vat_insert by lia.
    unfold seed_dist at 1. destruct (Z.eqb_spec i 0) as [->|Hi0]; [reflexivity|].
    fold (distA g1 i). rewrite D1 by (apply In_range1; lia).
    unfold seed_dist. destruct (Z.eqb_spec i 0); [lia|reflexivity].
Qed.

Lemma bfs_fuel_unfold fuel g :
  Shape g ->
  bfs_fuel fuel g =
  let* g2 := bfs_loop fuel (seeded g) (seed_queue g) in
  let* d0 := vget (dist g2) 0 in
  Ok (g2, negb (d0 =? INF)).
Proof.
  intros Hs. unfold bfs_fuel.
  destruct (bfs_init_seeded g Hs) as (g1 & d & E1 & E2 & E3).
  rewrite E1. cbn [rbind]. rewrite E2. cbn [rbind]. rewrite E3. reflexivity.
Qed.

(** ** [bfs]: the queue loop returns *)

(** The number of entries of [dist] that are [INF]. *)
Fixpoint infs (l : list Z) : nat :=
  match l with
  | [] => O
  | d :: l' => if d =? INF then S (infs l') else infs l'
  end.

Lemma infs_le_length l : (infs l <= length l)%nat.
Proof. induction l as [|d l IH]; simpl; [lia|]. destruct (d =? INF); lia. Qed.

Lemma infs_insert_dec : forall l n val,
  (n < length l)%nat -> nth n l 0 = INF -> val <> INF ->
  S (infs (<[n := val]> l)) = infs l.
Proof.
  induction l as [|d l IH]; intros [|n] val Hn Hd Hval; simpl in *; try lia.
  - subst d. rewrite Z.eqb_refl. destruct (Z.eqb_spec val INF); [contradiction|reflexivity].
  - destruct (d =? INF); rewrite <- (IH n val) by (lia || assumption); reflexivity.
Qed.

Lemma insert_same : forall (l : list Z) n,
  (n < length l)%nat -> <[n := nth n l 0]> l = l.
Proof.
  induction l as [|d l IH]; intros [|n] Hn; simpl in *; try lia; [reflexivity|].
  f_equal. apply IH. lia.
Qed.

(** The cost of a queue entry: one pop, and, for a vertex that has a
    layer, one push for each of its edges. *)
Definition ecost (D : nat) (g : BipartiteGraph) (x : Z) : nat :=
  if distA g x =? INF then 1%nat else S D.

Fixpoint qcost (D : nat) (g : BipartiteGraph) (q : list Z) : nat :=
  match q with
  | [] => O
  | x :: q' => (ecost D g x + qcost D g q')%nat
  end.

Definition potential (D : nat) (g : BipartiteGraph) (q : list Z) : nat :=
  (qcost D g q + (D + 2) * infs (dist g))%nat.

Lemma qcost_app D g q1 q2 :
  qcost D g (q1 ++ q2) = (qcost D g q1 + qcost D g q2)%nat.
Proof. induction q1 as [|x q1 IH]; simpl; [reflexivity|]. rewrite IH. lia. Qed.

Lemma qcost_ext D g g' q :
  (forall x, In x q -> distA g' x = distA g x) ->
  qcost D g' q = qcost D g q.
Proof.
  induction q as [|x q IH]; intros H; simpl; [reflexivity|].
  unfold ecost. rewrite (H x) by (left; reflexivity).
  rewrite IH; [reflexivity|]. intros y Hy. apply H. right; exact Hy.
Qed.

Lemma qcost_le D g q : (qcost D g q <= length q * S D)%nat.
Proof.
  induction q as [|x q IH]; simpl; [lia|].
  unfold ecost. destruct (_ =? INF); lia.
Qed.

Lemma max_degree_ge g u :
  0 <= u < zlen (adj g) -> (length (adjA g u) <= max_degree g)%nat.
Proof.
  unfold max_degree, adjA, vat. intros Hu.
  assert (Hn : (Z.to_nat u < length (adj g))%nat) by lia.
  revert Hn. generalize (Z.to_nat u). generalize (adj g). clear.
  induction l as [|a l IH]; intros [|n] Hn; simpl in *; try lia.
  specialize (IH n ltac:(lia)). lia.
Qed.

(** The queue of [bfs] holds at most two consecutive layers, in order. *)
Definition layer_is (g : BipartiteGraph) (d : Z) (x : Z) : Prop :=
  in_left g x /\ distA g x = d.

Definition SortedQ (g : BipartiteGraph) (q : list Z) : Prop :=
  match q with
  | [] => True
  | u :: q' =>
      in_left g u /\
      exists qa qb, q' = qa ++ qb /\
        Forall (layer_is g (distA g u)) qa /\
        Forall (layer_is g (distA g u + 1)) qb
  end.

Lemma SortedQ_layers g d qa qb :
  Forall (layer_is g d) qa -> Forall (layer_is g (d + 1)) qb ->
  SortedQ g (qa ++ qb).
Proof.
  intros Ha Hb. destruct qa as [|x qa]; simpl.
  - destruct qb as [|x qb]; [exact I|].
    inversion Hb as [|? ? Hx0 Hb']; subst. destruct Hx0 as [Hx Ex]. split; [exact Hx|].
    exists qb, []. rewrite app_nil_r. split; [reflexivity|].
    split; [|constructor]. rewrite Ex. exact Hb'.
  - inversion Ha as [|? ? Hx0 Ha']; subst. destruct Hx0 as [Hx Ex]. split; [exact Hx|].
    exists qa, qb. split; [reflexivity|]. rewrite Ex. split; assumption.
Qed.

Lemma bfs_scan_total D u : forall vs g qa qb,
  Shape g -> dist_le g -> in_left g u ->
  (forall v, In v vs -> 1 <= v <= nRight g) ->
  distA g u < INF ->
  Forall (layer_is g (distA g u)) qa ->
  Forall (layer_is g (distA g u + 1)) qb ->
  exists g' qb',
    bfs_scan u vs g (qa ++ qb) = Ok (g', qa ++ qb') /\
    Shape g' /\ dist_le g' /\ same_graph g g' /\
    distA g' u = distA g u /\
    Forall (layer_is g' (distA g u)) qa /\
    Forall (layer_is g' (distA g u + 1)) qb' /\
    (potential D g' (qa ++ qb') <= potential D g (qa ++ qb) + length vs)%nat.
Proof.
  induction vs as [|v vs IH]; intros g qa qb Hs Hd Hu Hvs Hlt Ha Hb.
  - exists g, qb. simpl.
    split; [reflexivity|]. split; [exact Hs|]. split; [exact Hd|].
    split; [apply same_graph_refl|]. split; [reflexivity|].
    split; [exact Ha|]. split; [exact Hb|lia].
  - assert (Hv : 1 <= v <= nRight g) by (apply Hvs; left; reflexivity).
    assert (Hvs' : forall w, In w vs -> 1 <= w <= nRight g)
      by (intros w Hw; apply Hvs; right; exact Hw).
    pose proof (sh_pairV _ Hs) as Hp. pose proof (sh_dist _ Hs) as Hlen.
    assert (Hpv : 0 <= pairVA g v <= nLeft g) by (apply sh_pv; [exact Hs|lia]).
    unfold in_left in Hu.
    simpl. unfold pairVA in Hpv |- *.
    vget_step 0. vget_step 0.
    fold (pairVA g v) in *. fold (distA g (pairVA g v)).
    destruct (Z.eqb_spec (distA g (pairVA g v)) INF) as [Einf|Hninf].
    + vget_step 0. vset_step. fold (distA g u).
      set (w := pairVA g v) in *. set (du := distA g u) in *.
      set (g1 := set_dist g (<[Z.to_nat w := du + 1]> (dist g))).
      assert (Hd1 : forall x, 0 <= x -> distA g1 x = if x =? w then du + 1 else distA g x).
      { intros x Hx. unfold distA, g1; simpl. apply vat_insert; lia. }
      assert (Hwu : w <> u) by (intros ->; unfold du in Hlt; lia).
      assert (Hs1 : Shape g1) by (apply Shape_dist_insert; exact Hs).
      assert (Hdl1 : dist_le g1).
      { intros x Hx. simpl in Hx. rewrite Hd1 by lia. destruct (x =? w).
        - pose proof (Hd u ltac:(lia)). fold du in H. lia.
        - apply Hd; exact Hx. }
      assert (Hu1 : distA g1 u = du).
      { rewrite Hd1 by lia. destruct (Z.eqb_spec u w); [congruence|reflexivity]. }
      assert (Ha1 : Forall (layer_is g1 (distA g1 u)) qa).
      { rewrite Hu1. eapply List.Forall_impl; [|exact Ha].
        intros x [Hx Ex]. split; [exact Hx|]. unfold in_left in Hx.
        rewrite Hd1 by lia. destruct (Z.eqb_spec x w) as [->|]; [|exact Ex]. lia. }
      assert (Hb1 : Forall (layer_is g1 (distA g1 u + 1)) (qb ++ [w])).
      { rewrite Hu1. apply Forall_app; split.
        - eapply List.Forall_impl; [|exact Hb].
          intros x [Hx Ex]. split; [exact Hx|]. unfold in_left in Hx.
          rewrite Hd1 by lia. destruct (Z.eqb_spec x w) as [->|]; [reflexivity|exact Ex].
        - constructor; [|constructor]. split; [unfold in_left; simpl; lia|].
          rewrite Hd1 by lia. rewrite Z.eqb_refl. reflexivity. }
      assert (Hlt1 : distA g1 u < INF) by (rewrite Hu1; exact Hlt).
      destruct (IH g1 qa (qb ++ [w]) Hs1 Hdl1 Hu Hvs' Hlt1 Ha1 Hb1) as
        (g' & qb' & E & S' & D' & G' & U' & A' & B' & P').
      exists g', qb'. rewrite <- List.app_assoc. rewrite E.
      rewrite Hu1 in U', A', B'.
      split; [reflexivity|]. split; [exact S'|]. split; [exact D'|].
      split; [eapply same_graph_trans; [apply same_graph_set_dist|exact G']|].
      split; [exact U'|]. split; [exact A'|]. split; [exact B'|].
      (* the potential *)
      eapply Nat.le_trans; [exact P'|].
      enough (potential D g1 (qa ++ qb ++ [w]) <= S (potential D g (qa ++ qb)))%nat
        by (cbn [length]; lia).
      destruct (Z.eq_dec (du + 1) INF) as [Etr|Hnorm].
      * (* the layer number is INF itself: nothing changes *)
        assert (Eg : g1 = g).
        { unfold g1. rewrite Etr, <- Einf. unfold distA, vat.
          rewrite insert_same by lia. destruct g; reflexivity. }
        rewrite Eg. unfold potential. rewrite !qcost_app. cbn [qcost].
        unfold ecost. rewrite Einf, Z.eqb_refl. lia.
      * assert (Hq : forall x, In x (qa ++ qb) -> distA g1 x = distA g x).
        { intros x Hx. apply in_app_or in Hx.
          assert (Hl : in_left g x /\ (distA g x = du \/ distA g x = du + 1)).
          { destruct Hx as [Hx|Hx].
            - rewrite List.Forall_forall in Ha. destruct (Ha x Hx). tauto.
            - rewrite List.Forall_forall in Hb. destruct (Hb x Hx). tauto. }
          destruct Hl as [Hx' Hdx]. unfold in_left in Hx'.
          rewrite Hd1 by lia. destruct (Z.eqb_spec x w) as [->|]; [lia|reflexivity]. }
        assert (Ei : S (infs (dist g1)) = infs (dist g)).
        { unfold g1; simpl. apply infs_insert_dec; [lia|exact Einf|exact Hnorm]. }
        unfold potential. rewrite List.app_assoc, (qcost_app D g1 (qa ++ qb)).
        rewrite (qcost_ext D g g1 (qa ++ qb) Hq). cbn [qcost].
        unfold ecost. rewrite Hd1 by lia. rewrite Z.eqb_refl.
        destruct (Z.eqb_spec (du + 1) INF); [contradiction|].
        rewrite <- Ei. nia.
    + destruct (IH g qa qb Hs Hd Hu Hvs' Hlt Ha Hb) as
        (g' & qb' & E & S' & D' & G' & U' & A' & B' & P').
      exists g', qb'. rewrite E.
      split; [reflexivity|]. split; [exact S'|]. split; [exact D'|].
      split; [exact G'|]. split; [exact U'|]. split; [exact A'|].
      split; [exact B'|]. cbn [length]. lia.
Qed.

Lemma same_graph_max_degree g g' : same_graph g g' -> max_degree g' = max_degree g.
Proof. intros (_ & _ & E). unfold max_degree. rewrite E. reflexivity. Qed.

Lemma bfs_loop_total fuel : forall g q,
  Shape g -> dist_le g -> SortedQ g q ->
  (potential (max_degree g) g q < fuel)%nat ->
  exists g', bfs_loop fuel g q = Ok g'.
Proof.
  induction fuel as [|fuel IH]; intros g q Hs Hd Hq Hpot; [lia|].
  destruct q as [|u q]; [exists g; reflexivity|].
  destruct Hq as (Hu & qa & qb & -> & Ha & Hb).
  pose proof (sh_dist _ Hs) as Hlen. pose proof (sh_adj _ Hs) as Hlena.
  pose proof (sh_nl _ Hs) as Hn. unfold in_left in Hu.
  simpl. unfold distA in *. vget_step 0. vget_step 0.
  fold (distA g u) in *. fold (distA g 0).
  unfold potential in Hpot. cbn [qcost] in Hpot.
  destruct (Z.ltb_spec (distA g u) (distA g 0)) as [Hlt|Hge].
  - vget_step (@nil Z). fold (adjA g u).
    assert (Hlt' : distA g u < INF) by (pose proof (Hd 0 ltac:(lia)); lia).
    destruct (bfs_scan_total (max_degree g) u (adjA g u) g qa qb Hs Hd Hu)
      as (g' & qb' & E & S' & D' & G' & U' & A' & B' & P'); try assumption.
    { intros v Hv. eapply sh_edges; [exact Hs|exact Hu|exact Hv]. }
    rewrite E. cbn [rbind].
    apply IH; [exact S'|exact D'| |].
    + eapply SortedQ_layers; eassumption.
    + rewrite (same_graph_max_degree _ _ G').
      pose proof (max_degree_ge g u ltac:(lia)).
      unfold potential in P'. unfold ecost in Hpot.
      destruct (Z.eqb_spec (distA g u) INF); [lia|]. unfold potential. lia.
  - apply IH; [exact Hs|exact Hd| |].
    + eapply SortedQ_layers; eassumption.
    + unfold potential. unfold ecost in Hpot. destruct (_ =? INF); lia.
Qed.

Lemma seed_queue_layer g :
  Shape g -> Forall (layer_is (seeded g) 0) (seed_queue g).
Proof.
  intros Hs. apply List.Forall_forall. intros x Hx.
  unfold seed_queue in Hx. apply filter_In in Hx as [Hx Hf].
  apply In_range1 in Hx. split; [unfold in_left; simpl; lia|].
  rewrite seeded_distA by lia. unfold seed_dist. rewrite Hf.
  destruct (Z.eqb_spec x 0); [lia|reflexivity].
Qed.

Lemma dist_le_seeded g : Shape g -> dist_le (seeded g).
Proof.
  intros Hs x Hx. simpl in Hx. rewrite seeded_distA by exact Hx.
  unfold seed_dist, INF. destruct (x =? 0); [lia|]. destruct (is_free g x); lia.
Qed.

Lemma SortedQ_seeded g : Shape g -> SortedQ (seeded g) (seed_queue g).
Proof.
  intros Hs. pose proof (seed_queue_layer g Hs) as H.
  rewrite <- (app_nil_r (seed_queue g)).
  apply (SortedQ_layers (seeded g) 0 (seed_queue g) []); [exact H|constructor].
Qed.

Lemma filter_length_le {A} (f : A -> bool) (l : list A) :
  (length (List.filter f l) <= length l)%nat.
Proof. induction l as [|a l IH]; simpl; [lia|]. destruct (f a); simpl; lia. Qed.

Lemma potential_seeded g :
  Shape g ->
  (potential (max_degree g) (seeded g) (seed_queue g) < bfs_budget g)%nat.
Proof.
  intros Hs. unfold potential, bfs_budget.
  pose proof (qcost_le (max_degree g) (seeded g) (seed_queue g)) as Hq.
  pose proof (infs_le_length (dist (seeded g))) as Hi.
  pose proof (filter_length_le (is_free g) (range1 (nLeft g))) as Hf.
  fold (seed_queue g) in Hf.
  pose proof (length_range1 (nLeft g) (sh_nl _ Hs)) as Hr.
  pose proof (sh_dist _ Hs) as Hd. pose proof (sh_dist _ (Shape_seeded g Hs)) as Hd'.
  simpl nLeft in Hd'.
  assert (length (dist (seeded g)) = length (dist g)) by lia.
  assert (length (seed_queue g) <= length (dist g))%nat by lia.
  nia.
Qed.

(** ** [bfs] with a record of the layer numbers it writes *)

(** [bfs_scan_log] and [bfs_loop_log] are [bfs_scan] and [bfs_loop] with one
    ghost variable: the list of the values written by the statement
    [dist[pairV[v]] = dist[u] + 1], in the order of the writes.  The lemmas
    [bfs_scan_erase] and [bfs_loop_erase] show that the ghost variable does
    not change what is computed. *)
Fixpoint bfs_scan_log (u : Z) (vs : list Z) (g : BipartiteGraph) (q : list Z)
  (log : list Z) : res (BipartiteGraph * list Z * list Z) :=
  match vs with
  | [] => Ok (g, q, log)
  | v :: vs' =>
      let* pv := vget (pairV g) v in
      let* dpv := vget (dist g) pv in
      if dpv =? INF then
        let* du := vget (dist g) u in
        let* d := vset (dist g) pv (du + 1) in
        bfs_scan_log u vs' (set_dist g d) (q ++ [pv]) (log ++ [du + 1])
      else bfs_scan_log u vs' g q log
  end.

Fixpoint bfs_loop_log (fuel : nat) (g : BipartiteGraph) (q : list Z)
  (log : list Z) : res (BipartiteGraph * list Z) :=
  match fuel with
  | O => OutOfFuel
  | S fuel' =>
      match q with
      | [] => Ok (g, log)
      | u :: q' =>
          let* du := vget (dist g) u in
          let* d0 := vget (dist g) 0 in
          if du <? d0 then
            let* vs := vget (adj g) u in
            let* (gq, log') := bfs_scan_log u vs g q' log in
            bfs_loop_log fuel' (fst gq) (snd gq) log'
          else bfs_loop_log fuel' g q' log
      end
  end.

(** The layer numbers written by one call of [bfs]. *)
Definition bfs_writes (fuel : nat) (g : BipartiteGraph) : res (list Z) :=
  let* (g1, q) := bfs_init (range1 (nLeft g)) g [] in
  let* d := vset (dist g1) 0 INF in
  let* (g2, log) := bfs_loop_log fuel (set_dist g1 d) q [] in
  Ok log.

Definition rmap {A B} (f : A -> B) (r : res A) : res B :=
  match r with
  | Ok a => Ok (f a)
  | OutOfBounds => OutOfBounds
  | OutOfFuel => OutOfFuel
  end.

Lemma bfs_scan_erase u vs : forall g q log,
  bfs_scan u vs g q = rmap fst (bfs_scan_log u vs g q log).
Proof.
  induction vs as [|v vs IH]; intros g q log; simpl; [reflexivity|].
  destruct (vget (pairV g) v) as [pv| |]; cbn [rbind rmap]; try reflexivity.
  destruct (vget (dist g) pv) as [dpv| |]; cbn [rbind rmap]; try reflexivity.
  destruct (dpv =? INF); [|apply IH].
  destruct (vget (dist g) u) as [du| |]; cbn [rbind rmap]; try reflexivity.
  destruct (vset (dist g) pv (du + 1)) as [d| |]; cbn [rbind rmap]; try reflexivity.
  apply IH.
Qed.

Lemma bfs_loop_erase fuel : forall g q log,
  bfs_loop fuel g q = rmap fst (bfs_loop_log fuel g q log).
Proof.
  induction fuel as [|fuel IH]; intros g q log; simpl; [reflexivity|].
  destruct q as [|u q]; [reflexivity|].
  destruct (vget (dist g) u) as [du| |]; cbn [rbind rmap]; try reflexivity.
  destruct (vget (dist g) 0) as [d0| |]; cbn [rbind rmap]; try reflexivity.
  destruct (du <? d0); [|apply IH].
  destruct (vget (adj g) u) as [vs| |]; cbn [rbind rmap]; try reflexivity.
  rewrite (bfs_scan_erase u vs g q log).
  destruct (bfs_scan_log u vs g q log) as [[[g' q'] log']| |];
    cbn [rbind rmap fst snd]; try reflexivity.
  apply IH.
Qed.

Lemma bfs_writes_unfold fuel g :
  Shape g ->
  bfs_writes fuel g =
  let* (g2, log) := bfs_loop_log fuel (seeded g) (seed_queue g) [] in
  Ok log.
Proof.
  intros Hs. unfold bfs_writes.
  destruct (bfs_init_seeded g Hs) as (g1 & d & E1 & E2 & E3).
  rewrite E1. cbn [rbind]. rewrite E2. cbn [rbind]. rewrite E3. reflexivity.
Qed.

(** ** An invariant rule for the queue loop *)

Section BfsRule.
(** [I g q log]: between two iterations of the [while] loop;
    [J u g q log vs]: inside the [for] loop over the neighbours of [u],
    with [vs] still to visit. *)
Variable I : BipartiteGraph -> list Z -> list Z -> Prop.
Variable J : Z -> BipartiteGraph -> list Z -> list Z -> list Z -> Prop.

Hypothesis I_skip : forall g u q log,
  I g (u :: q) log -> ~ distA g u < distA g 0 -> I g q log.
Hypothesis I_expand : forall g u q log,
  I g (u :: q) log -> distA g u < distA g 0 -> J u g q log (adjA g u).
Hypothesis J_skip : forall u g q log v vs,
  J u g q log (v :: vs) -> distA g (pairVA g v) <> INF -> J u g q log vs.
Hypothesis J_assign : forall u g q log v vs,
  J u g q log (v :: vs) -> distA g (pairVA g v) = INF ->
  J u (set_dist g (<[Z.to_nat (pairVA g v) := distA g u + 1]> (dist g)))
    (q ++ [pairVA g v]) (log ++ [distA g u + 1]) vs.
Hypothesis J_done : forall u g q log, J u g q log [] -> I g q log.

Lemma bfs_scan_rule u vs : forall g q log g' q' log',
  J u g q log vs ->
  bfs_scan_log u vs g q log = Ok (g', q', log') -> I g' q' log'.
Proof using J_skip J_assign J_done.
  induction vs as [|v vs IH]; intros g q log g' q' log' HJ E; simpl in E.
  - injection E as <- <- <-. apply J_done with (u := u). exact HJ.
  - destruct (vget (pairV g) v) as [pv| |] eqn:E1; cbn [rbind] in E; try discriminate.
    apply (vget_inv 0) in E1 as [_ ->].
    destruct (vget (dist g) _) as [dpv| |] eqn:E2; cbn [rbind] in E; try discriminate.
    apply (vget_inv 0) in E2 as [_ ->].
    fold (pairVA g v) in E. fold (distA g (pairVA g v)) in E.
    destruct (Z.eqb_spec (distA g (pairVA g v)) INF) as [Einf|Hne].
    + destruct (vget (dist g) u) as [du| |] eqn:E3; cbn [rbind] in E; try discriminate.
      apply (vget_inv 0) in E3 as [_ ->]. fold (distA g u) in E.
      destruct (vset (dist g) _ _) as [d| |] eqn:E4; cbn [rbind] in E; try discriminate.
      apply vset_inv in E4 as [_ ->].
      eapply IH; [|exact E]. apply J_assign; assumption.
    + eapply IH; [|exact E]. eapply J_skip; eassumption.
Qed.

Lemma bfs_loop_rule fuel : forall g q log g' log',
  I g q log -> bfs_loop_log fuel g q log = Ok (g', log') -> I g' [] log'.
Proof using I_skip I_expand J_skip J_assign J_done.
  induction fuel as [|fuel IH]; intros g q log g' log' HI E; simpl in E;
    [discriminate|].
  destruct q as [|u q]; [injection E as <- <-; exact HI|].
  destruct (vget (dist g) u) as [du| |] eqn:E1; cbn [rbind] in E; try discriminate.
  apply (vget_inv 0) in E1 as [_ ->].
  destruct (vget (dist g) 0) as [d0| |] eqn:E2; cbn [rbind] in E; try discriminate.
  apply (vget_inv 0) in E2 as [_ ->].
  fold (distA g u) in E. fold (distA g 0) in E.
  destruct (Z.ltb_spec (distA g u) (distA g 0)) as [Hlt|Hge].
  - destruct (vget (adj g) u) as [vs| |] eqn:E3; cbn [rbind] in E; try discriminate.
    apply (vget_inv []) in E3 as [_ ->]. fold (adjA g u) in E.
    destruct (bfs_scan_log u (adjA g u) g q log) as [[[g1 q1] log1]| |] eqn:E4;
      cbn [rbind fst snd] in E; try discriminate.
    eapply IH; [|exact E].
    eapply bfs_scan_rule; [|exact E4]. apply I_expand; assumption.
  - eapply IH; [|exact E]. eapply I_skip; [exact HI|lia].
Qed.
End BfsRule.

(** ** What the queue loop keeps *)

Record BfsBase (g0 g : BipartiteGraph) (q : list Z) : Prop := mkBfsBase {
  bb_shape : Shape g;
  bb_same : same_graph g0 g;
  bb_pu : pairU g = pairU g0;
  bb_pv : pairV g = pairV g0;
  bb_dist : dist_le g;
  bb_q : Forall (in_left g) q
}.

Lemma BfsBase_tail g0 g u q :
  BfsBase g0 g (u :: q) -> BfsBase g0 g q /\ 0 <= u <= nLeft g.
Proof.
  intros []. inversion bb_q0; subst. split; [constructor; assumption|assumption].
Qed.

Lemma BfsBase_assign g0 g q w val :
  BfsBase g0 g q -> 0 <= w <= nLeft g -> 0 <= val <= INF ->
  BfsBase g0 (set_dist g (<[Z.to_nat w := val]> (dist g))) (q ++ [w]).
Proof.
  intros [] Hw Hval. pose proof (sh_dist _ bb_shape0) as Hlen. constructor; simpl.
  - apply Shape_dist_insert; assumption.
  - eapply same_graph_trans; [eassumption|apply same_graph_set_dist].
  - assumption.
  - assumption.
  - intros x Hx. simpl in Hx. unfold distA; simpl. rewrite vat_insert by lia.
    destruct (x =? w); [lia|apply bb_dist0; exact Hx].
  - apply Forall_app; split; [exact bb_q0|]. constructor; [exact Hw|constructor].
Qed.

Lemma assign_distA g w val x :
  Shape g -> 0 <= w <= nLeft g -> 0 <= x ->
  distA (set_dist g (<[Z.to_nat w := val]> (dist g))) x =
  if x =? w then val else distA g x.
Proof.
  intros Hs Hw Hx. pose proof (sh_dist _ Hs). unfold distA; simpl.
  apply vat_insert; lia.
Qed.

Lemma BfsBase_seeded g : Shape g -> BfsBase g (seeded g) (seed_queue g).
Proof.
  intros Hs. constructor.
  - apply Shape_seeded; exact Hs.
  - apply same_graph_set_dist.
  - reflexivity.
  - reflexivity.
  - apply dist_le_seeded; exact Hs.
  - eapply List.Forall_impl; [|apply seed_queue_layer; exact Hs].
    intros x [Hx _]. exact Hx.
Qed.

(** ** Layered paths from the free left vertices *)

(** [Reach g x]: [x] has a layer number, and a layered path leads from a
    free left vertex to [x]. *)
Inductive Reach (g : BipartiteGraph) : Z -> Prop :=
| Reach_free u :
    1 <= u <= nLeft g -> pairUA g u = 0 -> distA g u = 0 -> Reach g u
| Reach_step u v :
    Reach g u -> 1 <= u <= nLeft g -> In v (adjA g u) ->
    distA g (pairVA g v) = distA g u + 1 ->
    distA g (pairVA g v) <> INF ->
    Reach g (pairVA g v).

Lemma Reach_not_inf g x : Reach g x -> distA g x <> INF.
Proof. intros [u H1 H2 H3|u v H1 H2 H3 H4 H5]; [rewrite H3; discriminate|exact H5]. Qed.

Lemma Reach_LR g x :
  Reach g x -> LR g x ->
  exists u, 1 <= u <= nLeft g /\ pairUA g u = 0 /\ LR g u.
Proof.
  intros H. induction H as [u H1 H2 H3|u v H1 IH H2 H3 H4 H5]; intros Hlr.
  - exists u. auto.
  - apply IH. eapply LR_step; eassumption.
Qed.

Lemma Reach_transfer g g' :
  Shape g -> same_graph g g' -> pairU g' = pairU g -> pairV g' = pairV g ->
  (forall x, 0 <= x <= nLeft g -> distA g x <> INF -> distA g' x = distA g x) ->
  forall x, Reach g x -> Reach g' x.
Proof.
  intros Hs (En & Er & Ea) Eu Ev Hd x H.
  induction H as [u H1 H2 H3|u v H1 IH H2 H3 H4 H5].
  - apply Reach_free; [lia| |].
    + unfold pairUA. rewrite Eu. exact H2.
    + rewrite Hd; [exact H3|lia|rewrite H3; discriminate].
  - assert (Hv : 1 <= v <= nRight g) by (eapply sh_edges; [exact Hs| |exact H3]; lia).
    assert (Hw : 0 <= pairVA g v <= nLeft g) by (apply sh_pv; [exact Hs|lia]).
    assert (Epv : pairVA g' v = pairVA g v) by (unfold pairVA; rewrite Ev; reflexivity).
    rewrite <- Epv. apply Reach_step with (u := u); [exact IH|lia| | |].
    + unfold adjA. rewrite Ea. exact H3.
    + rewrite Epv. rewrite (Hd (pairVA g v) Hw H5).
      rewrite (Hd u ltac:(lia) (Reach_not_inf _ _ H1)). exact H4.
    + rewrite Epv. rewrite (Hd (pairVA g v) Hw H5). exact H5.
Qed.

Definition ReachInv (g0 g : BipartiteGraph) (q : list Z) : Prop :=
  BfsBase g0 g q /\
  (forall u, 1 <= u <= nLeft g -> pairUA g u = 0 -> distA g u = 0) /\
  (forall x, 0 <= x <= nLeft g -> distA g x <> INF -> Reach g x).

Definition ReachScan (g0 : BipartiteGraph) (u : Z) (g : BipartiteGraph)
  (q vs : list Z) : Prop :=
  ReachInv g0 g q /\ 1 <= u <= nLeft g /\ distA g u < INF /\
  (forall v, In v vs -> In v (adjA g u)).

Lemma ReachInv_assign g0 u g q v vs :
  ReachScan g0 u g q (v :: vs) -> distA g (pairVA g v) = INF ->
  ReachScan g0 u
    (set_dist g (<[Z.to_nat (pairVA g v) := distA g u + 1]> (dist g)))
    (q ++ [pairVA g v]) vs.
Proof.
  intros ((Hb & Hfree & Hreach) & Hu & Hlt & Hvs) Einf.
  pose proof (bb_shape _ _ _ Hb) as Hs.
  assert (Hin : In v (adjA g u)) by (apply Hvs; left; reflexivity).
  assert (Hv : 1 <= v <= nRight g) by (eapply sh_edges; [exact Hs| |exact Hin]; lia).
  assert (Hw : 0 <= pairVA g v <= nLeft g) by (apply sh_pv; [exact Hs|lia]).
  pose proof (bb_dist _ _ _ Hb u ltac:(lia)) as Hdu.
  set (w := pairVA g v) in *.
  set (g1 := set_dist g (<[Z.to_nat w := distA g u + 1]> (dist g))).
  assert (Hd1 : forall x, 0 <= x -> distA g1 x = if x =? w then distA g u + 1 else distA g x)
    by (intros; apply assign_distA; assumption).
  assert (Hwu : w <> u) by (intros E; rewrite E in Einf; lia).
  assert (Htr : forall x, Reach g x -> Reach g1 x).
  { apply Reach_transfer; [exact Hs|apply same_graph_set_dist|reflexivity|reflexivity|].
    intros x Hx Hne. rewrite Hd1 by lia.
    destruct (Z.eqb_spec x w) as [->|]; [contradiction|reflexivity]. }
  split; [split; [|split]|split; [exact Hu|split]].
  - apply BfsBase_assign; [exact Hb|exact Hw|lia].
  - intros x Hx Hf. simpl in Hx. rewrite Hd1 by lia.
    destruct (Z.eqb_spec x w) as [->|].
    + rewrite (Hfree w Hx Hf) in Einf. discriminate.
    + apply Hfree; assumption.
  - intros x Hx Hne. simpl in Hx. rewrite Hd1 in Hne by lia.
    destruct (Z.eqb_spec x w) as [->|Hxw].
    + assert (Hru : Reach g1 u).
      { apply Htr. apply Hreach; lia. }
      change w with (pairVA g1 v). apply Reach_step with (u := u); [exact Hru|exact Hu|exact Hin| |].
      * change (pairVA g1 v) with w. rewrite !Hd1 by lia. rewrite Z.eqb_refl.
        destruct (Z.eqb_spec u w); [congruence|reflexivity].
      * change (pairVA g1 v) with w. rewrite Hd1 by lia. rewrite Z.eqb_refl. exact Hne.
    + apply Htr. apply Hreach; assumption.
  - rewrite Hd1 by lia. destruct (Z.eqb_spec u w); [congruence|exact Hlt].
  - intros v' Hv'. apply Hvs. right; exact Hv'.
Qed.

Lemma ReachInv_rule g0 fuel g q log g' log' :
  ReachInv g0 g q ->
  bfs_loop_log fuel g q log = Ok (g', log') -> ReachInv g0 g' [].
Proof.
  intros HI E.
  apply (bfs_loop_rule (fun g q _ => ReachInv g0 g q)
                       (fun u g q _ vs => ReachScan g0 u g q vs))
    with (fuel := fuel) (g := g) (q := q) (log := log) (log' := log');
    [| | | | |exact HI|exact E]; clear.
  - intros g u q _ (Hb & H1 & H2) _.
    apply BfsBase_tail in Hb as [Hb _]. split; [exact Hb|split; assumption].
  - intros g u q _ (Hb & H1 & H2) Hlt.
    pose proof (bb_dist _ _ _ Hb) as Hd. pose proof (sh_nl _ (bb_shape _ _ _ Hb)).
    apply BfsBase_tail in Hb as [Hb Hu].
    assert (u <> 0) by (intros ->; lia).
    split; [split; [exact Hb|split; assumption]|].
    split; [lia|]. split; [pose proof (Hd 0 ltac:(lia)); lia|auto].
  - intros u g q _ v vs (HI & Hu & Hlt & Hvs) _.
    split; [exact HI|]. split; [exact Hu|]. split; [exact Hlt|].
    intros v' Hv'. apply Hvs. right; exact Hv'.
  - intros u g q _ v vs HJ Einf. apply ReachInv_assign; assumption.
  - intros u g q _ (HI & _). exact HI.
Qed.

Lemma ReachInv_seeded g : Valid g -> ReachInv g (seeded g) (seed_queue g).
Proof.
  intros [Hs _ _]. split; [apply BfsBase_seeded; exact Hs|]. split.
  - intros u Hu Hf. simpl in Hu. rewrite seeded_distA by lia.
    unfold seed_dist, is_free. change (pairUA (seeded g) u) with (pairUA g u) in Hf.
    rewrite Hf. destruct (Z.eqb_spec u 0); [lia|reflexivity].
  - intros x Hx Hne. simpl in Hx. rewrite seeded_distA in Hne by exact Hx.
    unfold seed_dist in Hne. destruct (Z.eqb_spec x 0) as [|Hx0]; [contradiction|].
    destruct (is_free g x) eqn:Hf; [|contradiction].
    apply Reach_free; simpl; [lia| |].
    + unfold is_free in Hf. change (pairUA (seeded g) x) with (pairUA g x). lia.
    + rewrite seeded_distA by exact Hx. unfold seed_dist. rewrite Hf.
      destruct (Z.eqb_spec x 0); [contradiction|reflexivity].
Qed.

(** ** How large a layer number can be *)

Lemma filter_count_incr (p p' : Z -> bool) w : forall l,
  List.NoDup l -> In w l -> p w = false -> p' w = true ->
  (forall x, In x l -> x <> w -> p' x = p x) ->
  length (List.filter p' l) = S (length (List.filter p l)).
Proof.
  induction l as [|a l IH]; intros Hnd Hin Hp Hp' Hext; [destruct Hin|].
  inversion Hnd as [|? ? Hna Hnd']; subst. simpl.
  assert (Hext' : forall x, In x l -> x <> w -> p' x = p x)
    by (intros x Hx; apply Hext; right; exact Hx).
  destruct (Z.eq_dec a w) as [->|Haw].
  - rewrite Hp, Hp'. simpl. f_equal. f_equal.
    apply List.filter_ext_in. intros x Hx. apply Hext'; [exact Hx|].
    intros ->. contradiction.
  - destruct Hin as [E|Hin]; [contradiction|].
    rewrite (Hext a (or_introl eq_refl) Haw).
    destruct (p a); simpl; rewrite IH; auto.
Qed.

Lemma filter_count_pos (p : Z -> bool) x l :
  In x l -> p x = true -> (0 < length (List.filter p l))%nat.
Proof.
  intros Hin Hp. assert (H : In x (List.filter p l)) by (apply filter_In; auto).
  destruct (List.filter p l); [destruct H|simpl; lia].
Qed.

Definition has_layer (g : BipartiteGraph) (x : Z) : bool :=
  negb (distA g x =? INF).

(** The number of left vertices that have a layer number. *)
Definition layered_count (g : BipartiteGraph) : Z :=
  zlen (List.filter (has_layer g) (range1 (nLeft g))).

Lemma layered_count_le g : 0 <= nLeft g -> layered_count g <= nLeft g.
Proof.
  intros Hn. unfold layered_count.
  pose proof (filter_length_le (has_layer g) (range1 (nLeft g))).
  pose proof (length_range1 (nLeft g) Hn). lia.
Qed.

Definition CountInv (g : BipartiteGraph) : Prop :=
  (forall x, 1 <= x <= nLeft g -> distA g x <> INF ->
             distA g x < layered_count g) /\
  (distA g 0 <> INF -> distA g 0 <= layered_count g).

(** Every neighbour of [x] leads to a vertex that has a layer number. *)
Definition Expanded (g : BipartiteGraph) (x : Z) : Prop :=
  forall v, In v (adjA g x) -> distA g (pairVA g v) <> INF.

Definition Cover (g : BipartiteGraph) (q : list Z) : Prop :=
  forall x, 1 <= x <= nLeft g -> distA g x <> INF -> In x q \/ Expanded g x.

Definition CountI (g0 g : BipartiteGraph) (q log : list Z) : Prop :=
  BfsBase g0 g q /\ CountInv g /\
  Forall (fun w => 1 <= w <= nLeft g) log /\
  (nLeft g < INF -> distA g 0 = INF -> Cover g q).

Definition CountJ (g0 : BipartiteGraph) (u : Z) (g : BipartiteGraph)
  (q log vs : list Z) : Prop :=
  BfsBase g0 g q /\ CountInv g /\
  Forall (fun w => 1 <= w <= nLeft g) log /\
  1 <= u <= nLeft g /\ distA g u < INF /\
  exists done, adjA g u = done ++ vs /\
    (nLeft g < INF -> distA g 0 = INF ->
     Cover g (u :: q) /\
     forall v, In v done -> distA g (pairVA g v) <> INF).

Lemma CountJ_assign g0 u g q log v vs :
  CountJ g0 u g q log (v :: vs) -> distA g (pairVA g v) = INF ->
  CountJ g0 u
    (set_dist g (<[Z.to_nat (pairVA g v) := distA g u + 1]> (dist g)))
    (q ++ [pairVA g v]) (log ++ [distA g u + 1]) vs.
Proof.
  intros (Hb & [Hc1 Hc0] & Hlog & Hu & Hlt & done & Hadj & Hcov) Einf.
  pose proof (bb_shape _ _ _ Hb) as Hs. pose proof (sh_nl _ Hs) as Hn.
  assert (Hin : In v (adjA g u)).
  { rewrite Hadj. apply in_or_app. right; left; reflexivity. }
  assert (Hv : 1 <= v <= nRight g) by (eapply sh_edges; [exact Hs| |exact Hin]; lia).
  assert (Hw : 0 <= pairVA g v <= nLeft g) by (apply sh_pv; [exact Hs|lia]).
  pose proof (bb_dist _ _ _ Hb u ltac:(lia)) as Hdu.
  assert (Hducnt : distA g u < layered_count g) by (apply Hc1; lia).
  pose proof (layered_count_le g Hn) as Hcnt.
  set (w := pairVA g v) in *. set (val := distA g u + 1) in *.
  set (g1 := set_dist g (<[Z.to_nat w := val]> (dist g))).
  assert (Hd1 : forall x, 0 <= x -> distA g1 x = if x =? w then val else distA g x)
    by (intros; apply assign_distA; assumption).
  assert (Hwu : w <> u) by (intros E; rewrite E in Einf; lia).
  assert (Hkeep : forall x, 0 <= x -> distA g x <> INF -> distA g1 x = distA g x).
  { intros x Hx Hne. rewrite Hd1 by lia.
    destruct (Z.eqb_spec x w) as [->|]; [contradiction|reflexivity]. }
  (* the count of layered vertices after the write *)
  assert (Hcnt1 : layered_count g1 =
            if (val =? INF) || (w =? 0) then layered_count g
            else layered_count g + 1).
  { unfold layered_count. change (nLeft g1) with (nLeft g).
    destruct (Z.eqb_spec val INF) as [Ev|Ev]; simpl.
    - f_equal. f_equal. apply List.filter_ext_in. intros x Hx. apply In_range1 in Hx.
      unfold has_layer. rewrite Hd1 by lia.
      destruct (Z.eqb_spec x w) as [->|]; [rewrite Ev, Einf|]; reflexivity.
    - destruct (Z.eqb_spec w 0) as [Ew|Ew].
      + f_equal. f_equal. apply List.filter_ext_in. intros x Hx. apply In_range1 in Hx.
        unfold has_layer. rewrite Hd1 by lia.
        destruct (Z.eqb_spec x w) as [->|]; [lia|reflexivity].
      + rewrite (filter_count_incr (has_layer g) (has_layer g1) w).
        * lia.
        * apply NoDup_range1.
        * apply In_range1. lia.
        * unfold has_layer. rewrite Einf. reflexivity.
        * unfold has_layer. rewrite Hd1 by lia. rewrite Z.eqb_refl.
          destruct (Z.eqb_spec val INF); [contradiction|reflexivity].
        * intros x Hx Hxw. apply In_range1 in Hx. unfold has_layer.
          rewrite Hd1 by lia. destruct (Z.eqb_spec x w); [contradiction|reflexivity]. }
  split; [apply BfsBase_assign; [exact Hb|exact Hw|unfold val; lia]|].
  split; [|split; [|split; [exact Hu|split]]].
  - (* CountInv *)
    split.
    + intros x Hx Hne. simpl in Hx. rewrite Hd1 in Hne |- * by lia. rewrite Hcnt1.
      destruct (Z.eqb_spec x w) as [->|Hxw].
      * destruct (Z.eqb_spec val INF); [contradiction|].
        destruct (Z.eqb_spec w 0); [lia|]. simpl. unfold val. lia.
      * specialize (Hc1 x Hx Hne). destruct (_ || _); lia.
    + intros Hne. rewrite Hd1 in Hne |- * by lia. rewrite Hcnt1.
      destruct (Z.eqb_spec 0 w) as [E0|E0].
      * destruct (Z.eqb_spec val INF); [contradiction|].
        rewrite <- E0. simpl. unfold val. lia.
      * specialize (Hc0 Hne). destruct (_ || _); lia.
  - apply Forall_app; split; [exact Hlog|].
    constructor; [simpl; unfold val; lia|constructor].
  - rewrite Hd1 by lia. destruct (Z.eqb_spec u w); [congruence|exact Hlt].
  - exists (done ++ [v]). split.
    { change (adjA g1 u) with (adjA g u). rewrite Hadj, <- List.app_assoc. reflexivity. }
    intros Hnorm H0. simpl in Hnorm.
    assert (Hval : val <> INF) by (unfold val; lia).
    rewrite Hd1 in H0 by lia.
    destruct (Z.eqb_spec 0 w) as [E0|E0]; [contradiction|].
    destruct (Hcov Hnorm H0) as [Hcv Hdone].
    assert (Hmono : forall y, 1 <= y <= nRight g ->
              distA g (pairVA g y) <> INF -> distA g1 (pairVA g1 y) <> INF).
    { intros y Hy Hne. change (pairVA g1 y) with (pairVA g y).
      pose proof (sh_pv _ Hs y ltac:(lia)). rewrite Hkeep; [exact Hne|lia|exact Hne]. }
    split.
    + intros x Hx Hne. simpl in Hx. rewrite Hd1 in Hne by lia.
      destruct (Z.eqb_spec x w) as [->|Hxw].
      * left. right. apply in_or_app. right; left; reflexivity.
      * destruct (Hcv x Hx Hne) as [[<-|Hq]|Hex].
        -- left; left; reflexivity.
        -- left; right. apply in_or_app. left; exact Hq.
        -- right. intros y Hy. change (adjA g1 x) with (adjA g x) in Hy.
           apply Hmono; [|apply Hex; exact Hy].
           eapply sh_edges; [exact Hs| |exact Hy]. lia.
    + intros y Hy. apply in_app_or in Hy as [Hy|[<-|[]]].
      * apply Hmono; [|apply Hdone; exact Hy].
        eapply sh_edges; [exact Hs| |]; [|rewrite Hadj; apply in_or_app; left; exact Hy]. lia.
      * change (pairVA g1 v) with w. rewrite Hd1 by lia. rewrite Z.eqb_refl. exact Hval.
Qed.

Lemma CountI_rule g0 fuel g q log g' log' :
  CountI g0 g q log ->
  bfs_loop_log fuel g q log = Ok (g', log') -> CountI g0 g' [] log'.
Proof.
  intros HI E.
  apply (bfs_loop_rule (CountI g0) (CountJ g0))
    with (fuel := fuel) (g := g) (q := q) (log := log); [| | | | |exact HI|exact E];
    clear.
  - intros g u q log (Hb & Hc & Hlog & Hcov) Hge.
    pose proof (bb_dist _ _ _ Hb) as Hd.
    apply BfsBase_tail in Hb as [Hb Hu].
    split; [exact Hb|]. split; [exact Hc|]. split; [exact Hlog|].
    intros Hnorm H0 x Hx Hne. destruct (Hcov Hnorm H0 x Hx Hne) as [[->|Hq]|Hex]; auto.
    pose proof (Hd x ltac:(lia)). lia.
  - intros g u q log (Hb & Hc & Hlog & Hcov) Hlt.
    pose proof (bb_dist _ _ _ Hb) as Hd. pose proof (sh_nl _ (bb_shape _ _ _ Hb)).
    apply BfsBase_tail in Hb as [Hb Hu].
    assert (u <> 0) by (intros ->; lia).
    split; [exact Hb|]. split; [exact Hc|]. split; [exact Hlog|].
    split; [lia|]. split; [pose proof (Hd 0 ltac:(lia)); lia|].
    exists []. split; [reflexivity|]. intros Hnorm Hz.
    split; [apply Hcov; assumption|intros v []].
  - intros u g q log v vs (Hb & Hc & Hlog & Hu & Hlt & done & Hadj & Hcov) Hne.
    split; [exact Hb|]. split; [exact Hc|]. split; [exact Hlog|].
    split; [exact Hu|]. split; [exact Hlt|].
    exists (done ++ [v]). split; [rewrite Hadj, <- List.app_assoc; reflexivity|].
    intros Hnorm H0. destruct (Hcov Hnorm H0) as [Hcv Hdone].
    split; [exact Hcv|]. intros y Hy. apply in_app_or in Hy as [Hy|[<-|[]]]; auto.
  - intros u g q log v vs HJ Einf. apply CountJ_assign; assumption.
  - intros u g q log (Hb & Hc & Hlog & Hu & Hlt & done & Hadj & Hcov).
    rewrite app_nil_r in Hadj.
    split; [exact Hb|]. split; [exact Hc|]. split; [exact Hlog|].
    intros Hnorm H0 x Hx Hne. destruct (Hcov Hnorm H0) as [Hcv Hdone].
    destruct (Hcv x Hx Hne) as [[->|Hq]|Hex]; auto.
    right. intros y Hy. apply Hdone. rewrite <- Hadj. exact Hy.
Qed.

Lemma CountI_seeded g : Shape g -> CountI g (seeded g) (seed_queue g) [].
Proof.
  intros Hs. split; [apply BfsBase_seeded; exact Hs|].
  assert (Hseed : forall x, 1 <= x <= nLeft g -> distA (seeded g) x <> INF ->
            is_free g x = true /\ distA (seeded g) x = 0).
  { intros x Hx Hne. rewrite seeded_distA in Hne |- * by lia.
    unfold seed_dist in *. destruct (Z.eqb_spec x 0); [lia|].
    destruct (is_free g x); [split; reflexivity|contradiction]. }
  split; [split|split; [constructor|]].
  - intros x Hx Hne. simpl in Hx. destruct (Hseed x Hx Hne) as [Hf E]. rewrite E.
    unfold layered_count.
    pose proof (filter_count_pos (has_layer (seeded g)) x (range1 (nLeft (seeded g)))) as Hp.
    simpl nLeft in Hp. specialize (Hp ltac:(apply In_range1; lia)).
    unfold has_layer at 1 in Hp. rewrite E in Hp. specialize (Hp eq_refl).
    simpl nLeft. lia.
  - intros Hne. exfalso. apply Hne. pose proof (sh_nl _ Hs).
    rewrite seeded_distA by lia. reflexivity.
  - intros _ _ x Hx Hne. simpl in Hx. destruct (Hseed x Hx Hne) as [Hf E].
    left. unfold seed_queue. apply filter_In. split; [apply In_range1; lia|exact Hf].
Qed.

(** ** [bfs] returns, and what it returns *)

Record BfsPost (g g' : BipartiteGraph) (more : bool) (log : list Z) : Prop :=
  mkBfsPost {
  bp_valid : Valid g';
  bp_same : same_graph g g';
  bp_pu : pairU g' = pairU g;
  bp_pv : pairV g' = pairV g;
  bp_more : more = negb (distA g' 0 =? INF);
  bp_free : forall u, 1 <= u <= nLeft g -> pairUA g u = 0 -> distA g' u = 0;
  bp_path : more = true ->
            exists u, 1 <= u <= nLeft g /\ pairUA g u = 0 /\ LR g' u;
  bp_log : Forall (fun w => 1 <= w <= nLeft g) log;
  bp_cover : nLeft g < INF -> more = false ->
             forall x, 1 <= x <= nLeft g -> distA g' x <> INF -> Expanded g' x
}.

Lemma rmap_fst_ok {A B} (r : res (A * B)) a :
  rmap fst r = Ok a -> exists b, r = Ok (a, b).
Proof.
  destruct r as [[a' b]| |]; simpl; intros E; try discriminate.
  injection E as <-. exists b. reflexivity.
Qed.

Lemma bfs_fuel_spec fuel g :
  Valid g -> (bfs_budget g <= fuel)%nat ->
  exists g' more log,
    bfs_fuel fuel g = Ok (g', more) /\
    bfs_writes fuel g = Ok log /\
    BfsPost g g' more log.
Proof.
  intros Hv Hfuel. pose proof (va_shape _ Hv) as Hs.
  rewrite (bfs_fuel_unfold fuel g Hs), (bfs_writes_unfold fuel g Hs).
  destruct (bfs_loop_total fuel (seeded g) (seed_queue g)) as [g' Eloop].
  { apply Shape_seeded; exact Hs. }
  { apply dist_le_seeded; exact Hs. }
  { apply SortedQ_seeded; exact Hs. }
  { pose proof (potential_seeded g Hs). change (max_degree (seeded g)) with (max_degree g). lia. }
  rewrite Eloop. cbn [rbind].
  rewrite (bfs_loop_erase fuel _ _ []) in Eloop.
  apply rmap_fst_ok in Eloop as [log Elog]. rewrite Elog. cbn [rbind].
  pose proof (ReachInv_rule g fuel _ _ _ _ _ (ReachInv_seeded g Hv) Elog)
    as (Hb & Hfree & Hreach).
  pose proof (CountI_rule g fuel _ _ _ _ _ (CountI_seeded g Hs) Elog)
    as (_ & Hcnt & Hlog & Hcov).
  destruct Hb as [S' G' U' V' D' _].
  pose proof (sh_dist _ S') as Hlen. pose proof (sh_nl _ S') as Hn.
  destruct G' as (En & Er & Ea).
  vget_step 0. fold (distA g' 0).
  exists g', (negb (distA g' 0 =? INF)), log.
  split; [reflexivity|]. split; [reflexivity|].
  assert (EU : forall x, pairUA g' x = pairUA g x)
    by (intros; unfold pairUA; rewrite U'; reflexivity).
  constructor.
  - constructor; [exact S'|exact D'|].
    eapply Quasi_ext; [split; [exact En|split; [exact Er|exact Ea]]|exact U'|exact V'|].
    exact (va_match _ Hv).
  - split; [exact En|split; [exact Er|exact Ea]].
  - exact U'.
  - exact V'.
  - reflexivity.
  - intros u Hu Hf. apply Hfree; [lia|rewrite EU; exact Hf].
  - intros Hm. apply negb_true_iff in Hm. apply Z.eqb_neq in Hm.
    destruct (Reach_LR g' 0 (Hreach 0 ltac:(lia) Hm) (LR_zero g')) as (u & Hu & Hf & Hlr).
    exists u. split; [lia|]. split; [rewrite <- EU; exact Hf|exact Hlr].
  - eapply List.Forall_impl; [|exact Hlog]. intros w Hw. simpl in Hw. lia.
  - intros Hnorm Hm x Hx Hne. apply negb_false_iff in Hm. apply Z.eqb_eq in Hm.
    destruct (Hcov ltac:(lia) Hm x ltac:(lia) Hne) as [[]|Hex]. exact Hex.
Qed.

(** ** The size of the matching *)

Definition is_matched (g : BipartiteGraph) (u : Z) : bool :=
  negb (pairUA g u =? 0).

(** The number of matched left vertices. *)
Definition msize (g : BipartiteGraph) : Z :=
  zlen (List.filter (is_matched g) (range1 (nLeft g))).

Lemma msize_bounds g : 0 <= nLeft g -> 0 <= msize g <= nLeft g.
Proof.
  intros Hn. unfold msize.
  pose proof (filter_length_le (is_matched g) (range1 (nLeft g))).
  pose proof (length_range1 (nLeft g) Hn). lia.
Qed.

Lemma msize_ext g g' :
  nLeft g' = nLeft g -> pairU g' = pairU g -> msize g' = msize g.
Proof.
  intros En Eu. unfold msize, is_matched, pairUA. rewrite En, Eu. reflexivity.
Qed.

Lemma Augmented_Valid g g' u :
  Valid g -> pairUA g u = 0 -> Augmented g g' u -> Valid g'.
Proof.
  intros Hv Hf (Hfr & Hq & _). constructor.
  - exact (fr_shape _ _ _ _ Hfr).
  - eapply kills_dist_le;
      [exact (proj1 (fr_same _ _ _ _ Hfr))|exact (va_dist _ Hv)|exact (fr_kill _ _ _ _ Hfr)].
  - rewrite Hf in Hq. exact Hq.
Qed.

Lemma Augmented_msize g g' u :
  1 <= u <= nLeft g -> pairUA g u = 0 -> Augmented g g' u ->
  msize g' = msize g + 1.
Proof.
  intros Hu Hf (Hfr & _ & Hne).
  unfold msize. rewrite (proj1 (fr_same _ _ _ _ Hfr)).
  rewrite (filter_count_incr (is_matched g) (is_matched g') u).
  - lia.
  - apply NoDup_range1.
  - apply In_range1; exact Hu.
  - unfold is_matched. rewrite Hf. reflexivity.
  - unfold is_matched. destruct (Z.eqb_spec (pairUA g' u) 0); [contradiction|reflexivity].
  - intros x Hx Hxu. apply In_range1 in Hx. unfold is_matched.
    pose proof (fr_free _ _ _ _ Hfr x Hx Hxu) as Hiff.
    destruct (Z.eqb_spec (pairUA g' x) 0), (Z.eqb_spec (pairUA g x) 0);
      try reflexivity; tauto.
Qed.

(** ** The augmentation loop of one phase *)

Lemma augment_spec dfuel : forall us g matching,
  Valid g -> (dfs_budget g <= dfuel)%nat ->
  (forall u, In u us -> 1 <= u <= nLeft g) ->
  exists g' matching',
    augment dfuel us g matching = Ok (g', matching') /\
    Valid g' /\ same_graph g g' /\
    matching' - matching = msize g' - msize g /\
    matching <= matching' /\
    ((exists u, In u us /\ pairUA g u = 0 /\ LR g u) -> matching < matching').
Proof.
  induction us as [|u us IH]; intros g m Hv Hfuel Hus.
  - exists g, m. simpl. split; [reflexivity|]. split; [exact Hv|].
    split; [apply same_graph_refl|]. split; [lia|]. split; [lia|].
    intros (u & [] & _).
  - assert (Hu : 1 <= u <= nLeft g) by (apply Hus; left; reflexivity).
    pose proof (va_shape _ Hv) as Hs. pose proof (sh_pairU _ Hs) as Hlen.
    simpl. vget_step 0. fold (pairUA g u).
    destruct (Z.eqb_spec (pairUA g u) 0) as [Hf|Hnf].
    + destruct (dfs_fuel_spec dfuel g u Hv Hu) as (g1 & found & E & Hpost).
      { pose proof (above_le_length (distA g u) (dist g)). unfold dfs_budget in Hfuel. lia. }
      rewrite E. cbn [rbind]. destruct found; simpl in Hpost.
      * pose proof (Augmented_Valid _ _ _ Hv Hf Hpost) as Hv1.
        pose proof (Augmented_msize _ _ _ Hu Hf Hpost) as Hm1.
        destruct Hpost as (Hfr & _ & _).
        destruct (fr_same _ _ _ _ Hfr) as (En & Er & Ea).
        destruct (IH g1 (m + 1) Hv1) as (g' & m' & E' & V' & G' & M' & L' & _).
        { unfold dfs_budget in *.
          pose proof (sh_dist _ (va_shape _ Hv1)). pose proof (sh_dist _ Hs). lia. }
        { intros w Hw. rewrite En. apply Hus; right; exact Hw. }
        exists g', m'. split; [exact E'|]. split; [exact V'|].
        split; [eapply same_graph_trans; [|exact G']; repeat split; assumption|].
        split; [lia|]. split; [lia|]. intros _. lia.
      * destruct Hpost as (Hl & Hnlr).
        pose proof (Link_Valid _ _ _ Hv Hl) as Hv1.
        destruct (lk_same _ _ _ Hl) as (En & Er & Ea).
        destruct (IH g1 m Hv1) as (g' & m' & E' & V' & G' & M' & L' & P').
        { unfold dfs_budget in *.
          pose proof (sh_dist _ (va_shape _ Hv1)). pose proof (sh_dist _ Hs). lia. }
        { intros w Hw. rewrite En. apply Hus; right; exact Hw. }
        exists g', m'. split; [exact E'|]. split; [exact V'|].
        split; [eapply same_graph_trans; [|exact G']; repeat split; assumption|].
        rewrite (msize_ext g g1 En (lk_pu _ _ _ Hl)) in M'.
        split; [exact M'|]. split; [exact L'|].
        intros (u' & [<-|Hin] & Hf' & Hlr); [contradiction|].
        apply P'. exists u'. split; [exact Hin|].
        split; [rewrite (Link_pairUA _ _ _ u' Hl); exact Hf'|].
        apply (lk_lr _ _ _ Hl). exact Hlr.
    + destruct (IH g m Hv Hfuel) as (g' & m' & E' & V' & G' & M' & L' & P').
      { intros w Hw. apply Hus; right; exact Hw. }
      exists g', m'. split; [exact E'|]. split; [exact V'|]. split; [exact G'|].
      split; [exact M'|]. split; [exact L'|].
      intros (u' & [<-|Hin] & Hf' & Hlr); [contradiction|].
      apply P'. exists u'. auto.
Qed.

(** ** The phase loop *)

(** The state in which [maxMatching] stops: [bfs] finds no augmenting
    path, and does not change the state any more. *)
Definition Final (bfuel : nat) (g : BipartiteGraph) : Prop :=
  exists log, bfs_fuel bfuel g = Ok (g, false) /\ BfsPost g g false log.

Lemma seeded_ext g g' :
  same_graph g g' -> pairU g' = pairU g -> pairV g' = pairV g ->
  seeded g' = seeded g /\ seed_queue g' = seed_queue g.
Proof.
  intros (En & Er & Ea) Eu Ev.
  unfold seeded, seed_queue, set_dist, seed_dist, is_free, pairUA.
  rewrite En, Er, Ea, Eu, Ev. split; reflexivity.
Qed.

Lemma bfs_fuel_again fuel g g' more :
  Shape g -> Shape g' ->
  same_graph g g' -> pairU g' = pairU g -> pairV g' = pairV g ->
  bfs_fuel fuel g = Ok (g', more) -> bfs_fuel fuel g' = Ok (g', more).
Proof.
  intros Hs Hs' G U V E.
  rewrite (bfs_fuel_unfold fuel g Hs) in E. rewrite (bfs_fuel_unfold fuel g' Hs').
  destruct (seeded_ext g g' G U V) as [-> ->]. exact E.
Qed.

Lemma budgets_same g g' :
  Shape g -> Shape g' -> same_graph g g' ->
  bfs_budget g' = bfs_budget g /\ dfs_budget g' = dfs_budget g /\
  phase_budget g' = phase_budget g.
Proof.
  intros Hs Hs' G. unfold bfs_budget, dfs_budget, phase_budget.
  rewrite (same_graph_max_degree _ _ G). destruct G as (En & _ & _).
  pose proof (sh_dist _ Hs). pose proof (sh_dist _ Hs').
  pose proof (sh_pairU _ Hs). pose proof (sh_pairU _ Hs').
  assert (length (dist g') = length (dist g)) by lia.
  assert (length (pairU g') = length (pairU g)) by lia.
  split; [|split]; congruence.
Qed.

Lemma phases_spec bfuel dfuel pfuel : forall g matching,
  Valid g -> (bfs_budget g <= bfuel)%nat -> (dfs_budget g <= dfuel)%nat ->
  nLeft g - msize g < Z.of_nat pfuel ->
  exists g' matching',
    phases pfuel bfuel dfuel g matching = Ok (g', matching') /\
    Valid g' /\ same_graph g g' /\
    matching' - matching = msize g' - msize g /\
    Final bfuel g'.
Proof.
  induction pfuel as [|pfuel IH]; intros g m Hv Hb Hd Hp.
  - pose proof (msize_bounds g (sh_nl _ (va_shape _ Hv))). lia.
  - simpl.
    destruct (bfs_fuel_spec bfuel g Hv Hb) as (g1 & more & log & E & _ & Hpost).
    rewrite E. cbn [rbind].
    pose proof (bp_valid _ _ _ _ Hpost) as Hv1.
    pose proof (bp_same _ _ _ _ Hpost) as G1.
    pose proof (va_shape _ Hv) as Hs. pose proof (va_shape _ Hv1) as Hs1.
    destruct (budgets_same g g1 Hs Hs1 G1) as (B1 & B2 & _).
    assert (Em : msize g1 = msize g)
      by (apply msize_ext; [exact (proj1 G1)|exact (bp_pu _ _ _ _ Hpost)]).
    destruct more.
    + destruct (augment_spec dfuel (range1 (nLeft g1)) g1 m Hv1)
        as (g2 & m2 & E2 & V2 & G2 & M2 & _ & P2).
      { lia. }
      { intros u Hu. apply In_range1. exact Hu. }
      rewrite E2. cbn [rbind].
      assert (Hprog : m < m2).
      { apply P2. destruct (bp_path _ _ _ _ Hpost eq_refl) as (u & Hu & Hf & Hlr).
        exists u. split; [apply In_range1; rewrite (proj1 G1); exact Hu|].
        split; [|exact Hlr]. unfold pairUA. rewrite (bp_pu _ _ _ _ Hpost). exact Hf. }
      pose proof (va_shape _ V2) as Hs2.
      destruct (budgets_same g1 g2 Hs1 Hs2 G2) as (B3 & B4 & _).
      destruct (IH g2 m2 V2) as (g' & m' & E' & V' & G' & M' & F'); try lia.
      { rewrite (proj1 G2), (proj1 G1). lia. }
      exists g', m'. split; [exact E'|]. split; [exact V'|].
      split; [eapply same_graph_trans; [exact G1|eapply same_graph_trans; eassumption]|].
      split; [lia|exact F'].
    + exists g1, m. split; [reflexivity|]. split; [exact Hv1|]. split; [exact G1|].
      split; [lia|].
      assert (Eagain : bfs_fuel bfuel g1 = Ok (g1, false)).
      { apply (bfs_fuel_again bfuel g g1 false Hs Hs1 G1
                 (bp_pu _ _ _ _ Hpost) (bp_pv _ _ _ _ Hpost) E). }
      destruct (bfs_fuel_spec bfuel g1 Hv1 ltac:(lia)) as (g1' & more' & log' & E1 & _ & Hpost').
      rewrite Eagain in E1. injection E1 as <- <-.
      exists log'. split; [exact Eagain|exact Hpost'].
Qed.

Lemma maxMatching_spec g :
  Valid g ->
  exists g' k,
    maxMatching g = Ok (g', k) /\
    Valid g' /\ same_graph g g' /\
    k = msize g' - msize g /\
    Final (bfs_budget g) g'.
Proof.
  intros Hv. unfold maxMatching, maxMatching_fuel.
  destruct (phases_spec (bfs_budget g) (dfs_budget g) (phase_budget g) g 0 Hv)
    as (g' & k & E & V' & G' & M' & F'); try lia.
  { pose proof (msize_bounds g (sh_nl _ (va_shape _ Hv))).
    pose proof (sh_pairU _ (va_shape _ Hv)). unfold phase_budget. lia. }
  exists g', k. split; [exact E|]. split; [exact V'|]. split; [exact G'|].
  split; [lia|exact F'].
Qed.

(** ** Engines *)

Lemma vat_repeat {A} (d a : A) (n : nat) (i : Z) :
  0 <= i < Z.of_nat n -> vat d (repeat a n) i = a.
Proof.
  intros Hi. unfold vat. rewrite (nth_indep _ d a) by (rewrite repeat_length; lia).
  apply nth_repeat.
Qed.

Lemma Valid_construct l r : 0 <= l -> 0 <= r -> Valid (construct l r).
Proof.
  intros Hl Hr.
  assert (HU : forall x, 0 <= x <= l -> pairUA (construct l r) x = 0)
    by (intros; unfold pairUA; simpl; apply vat_repeat; lia).
  assert (HV : forall x, 0 <= x <= r -> pairVA (construct l r) x = 0)
    by (intros; unfold pairVA; simpl; apply vat_repeat; lia).
  assert (HA : forall x, 0 <= x <= l -> adjA (construct l r) x = [])
    by (intros; unfold adjA; simpl; apply vat_repeat; lia).
  constructor.
  - constructor; simpl; rewrite ?repeat_length; try lia.
    + intros u v Hu Hin. rewrite HA in Hin by exact Hu. destruct Hin.
    + intros v Hv. rewrite HV by exact Hv. lia.
  - intros x Hx. simpl in Hx. unfold distA; simpl.
    rewrite vat_repeat by lia. unfold INF; lia.
  - constructor; simpl.
    + intros u Hu. rewrite HU by exact Hu. lia.
    + apply HU; lia.
    + apply HV; lia.
    + intros u Hu Hne. rewrite HU in Hne by lia. contradiction.
    + intros v Hv _ Hne. rewrite HV in Hne by lia. contradiction.
    + intros Hne; contradiction.
    + intros u Hu Hne. rewrite HU in Hne by lia. contradiction.
Qed.

(** The guard of [addEdge]. *)
Definition in_range (l r : Z) (e : Z * Z) : bool :=
  negb ((fst e <? 1) || (l <? fst e) || (snd e <? 1) || (r <? snd e)).

Lemma in_range_spec l r u v :
  in_range l r (u, v) = true <-> 1 <= u <= l /\ 1 <= v <= r.
Proof.
  unfold in_range; simpl.
  destruct (Z.ltb_spec u 1), (Z.ltb_spec l u), (Z.ltb_spec v 1), (Z.ltb_spec r v);
    simpl; split; intros Hx; try discriminate; try reflexivity; lia.
Qed.

Lemma addEdge_rejected g u v :
  in_range (nLeft g) (nRight g) (u, v) = false ->
  addEdge g u v = (g, Some (InvalidEdge u v)).
Proof.
  unfold in_range, addEdge; simpl. intros H. apply negb_false_iff in H.
  rewrite H. reflexivity.
Qed.

Lemma addEdge_accepted g u v :
  in_range (nLeft g) (nRight g) (u, v) = true ->
  addEdge g u v =
  (set_adj g (alter (fun l => l ++ [v]) (Z.to_nat u) (adj g)), None).
Proof.
  unfold in_range, addEdge; simpl. intros H. apply negb_true_iff in H.
  rewrite H. reflexivity.
Qed.

Lemma length_alter_list {A} (f : A -> A) : forall (l : list A) n,
  length (alter f n l) = length l.
Proof. intros l n. apply length_alter. Qed.

Lemma nth_alter_eq {A} (f : A -> A) (d : A) : forall (l : list A) n,
  (n < length l)%nat -> nth n (alter f n l) d = f (nth n l d).
Proof.
  unfold alter. induction l as [|a l IH]; intros [|n] Hn; simpl in *; try lia; [reflexivity|].
  apply IH. lia.
Qed.

Lemma nth_alter_ne {A} (f : A -> A) (d : A) : forall (l : list A) n m,
  n <> m -> nth m (alter f n l) d = nth m l d.
Proof.
  unfold alter. induction l as [|a l IH]; intros [|n] [|m] Hnm; simpl in *;
    try reflexivity; try lia. apply IH. lia.
Qed.

Lemma addEdge_adjA g u v x :
  Shape g -> in_range (nLeft g) (nRight g) (u, v) = true -> 0 <= x ->
  adjA (fst (addEdge g u v)) x =
  if x =? u then adjA g x ++ [v] else adjA g x.
Proof.
  intros Hs Hr Hx. rewrite (addEdge_accepted g u v Hr). simpl.
  apply in_range_spec in Hr. pose proof (sh_adj _ Hs) as Hlen.
  unfold adjA, vat; simpl. destruct (Z.eqb_spec x u) as [->|Hxu].
  - apply (nth_alter_eq (fun l => l ++ [v])). lia.
  - apply nth_alter_ne. lia.
Qed.

Lemma Valid_addEdge g u v : Valid g -> Valid (fst (addEdge g u v)).
Proof.
  intros Hv. destruct (in_range (nLeft g) (nRight g) (u, v)) eqn:Hr.
  - pose proof (va_shape _ Hv) as Hs.
    pose proof (fun x => addEdge_adjA g u v x Hs Hr) as HA.
    rewrite (addEdge_accepted g u v Hr) in *. simpl in *.
    set (g' := set_adj g _) in *.
    apply in_range_spec in Hr.
    destruct Hv as [[] Hd [] ]. constructor.
    + constructor; simpl; try assumption.
      * rewrite length_alter_list; assumption.
      * intros x y Hx Hin. rewrite HA in Hin by lia.
        destruct (Z.eqb_spec x u) as [->|].
        -- apply in_app_or in Hin as [Hin|[<-|[]]]; [eapply sh_edges0; eassumption|lia].
        -- eapply sh_edges0; eassumption.
    + exact Hd.
    + constructor; simpl; try assumption.
      intros x Hx Hne. rewrite HA by lia. specialize (q_edge0 x Hx Hne).
      destruct (x =? u); [apply in_or_app; left|]; exact q_edge0.
  - rewrite (addEdge_rejected g u v Hr). exact Hv.
Qed.

(** [reachable l r calls g]: the engine state [g] is reached from
    [BipartiteGraph(l, r)] by the calls [addEdge(u, v)] listed in [calls]
    (accepted or not), interleaved with any number of calls of
    [maxMatching]. *)
Inductive reachable (l r : Z) : list (Z * Z) -> BipartiteGraph -> Prop :=
| reach_new :
    0 <= l -> 0 <= r -> reachable l r [] (construct l r)
| reach_edge calls g u v :
    reachable l r calls g ->
    reachable l r (calls ++ [(u, v)]) (fst (addEdge g u v))
| reach_match calls g g' k :
    reachable l r calls g ->
    maxMatching g = Ok (g', k) ->
    reachable l r calls g'.

(** The edges of the graph: the accepted calls. *)
Definition accepted (l r : Z) (calls : list (Z * Z)) : list (Z * Z) :=
  List.filter (in_range l r) calls.

Definition edge (g : BipartiteGraph) (u v : Z) : Prop :=
  1 <= u <= nLeft g /\ In v (adjA g u).

Record Engine (l r : Z) (calls : list (Z * Z)) (g : BipartiteGraph) : Prop :=
  mkEngine {
  en_valid : Valid g;
  en_l : nLeft g = l;
  en_r : nRight g = r;
  en_edges : forall u v, edge g u v <-> In (u, v) (accepted l r calls)
}.

Lemma Engine_same l r calls g g' :
  Engine l r calls g -> Valid g' -> same_graph g g' -> Engine l r calls g'.
Proof.
  intros [Hv El Er He] Hv' (En & Enr & Ea). constructor; try congruence.
  intros u v. rewrite <- He. unfold edge, adjA. rewrite En, Ea. reflexivity.
Qed.

Lemma reachable_Engine l r calls g : reachable l r calls g -> Engine l r calls g.
Proof.
  induction 1 as [Hl Hr|calls g u v H IH|calls g g' k H IH E].
  - constructor; [apply Valid_construct; assumption|reflexivity|reflexivity|].
    intros u v. simpl. split; [|intros []].
    intros [Hu Hin]. simpl in Hu. unfold adjA in Hin; simpl in Hin.
    rewrite vat_repeat in Hin by lia. destruct Hin.
  - destruct IH as [Hv El Er He].
    pose proof (Valid_addEdge g u v Hv) as Hv'.
    assert (Hacc : accepted l r (calls ++ [(u, v)]) =
              accepted l r calls ++ (if in_range l r (u, v) then [(u, v)] else [])).
    { unfold accepted. rewrite List.filter_app. simpl.
      destruct (in_range l r (u, v)); reflexivity. }
    destruct (in_range l r (u, v)) eqn:Hr.
    + assert (Hr' : in_range (nLeft g) (nRight g) (u, v) = true) by (rewrite El, Er; exact Hr).
      pose proof (fun x => addEdge_adjA g u v x (va_shape _ Hv) Hr') as HA.
      rewrite (addEdge_accepted g u v Hr') in *. simpl in *.
      apply in_range_spec in Hr.
      constructor; try assumption.
      intros x y. rewrite Hacc. unfold edge. simpl nLeft.
      rewrite in_app_iff, <- He. unfold edge.
      split.
      * intros [Hx Hin]. rewrite HA in Hin by lia.
        destruct (Z.eqb_spec x u) as [->|]; [|left; auto].
        apply in_app_or in Hin as [Hin|[<-|[]]]; [left; auto|right; left; reflexivity].
      * intros [[Hx Hin]|[E|[]]].
        -- split; [exact Hx|]. rewrite HA by lia.
           destruct (x =? u); [apply in_or_app; left|]; exact Hin.
        -- injection E as <- <-. split; [lia|]. rewrite HA by lia.
           rewrite Z.eqb_refl. apply in_or_app. right; left; reflexivity.
    + assert (Hr' : in_range (nLeft g) (nRight g) (u, v) = false) by (rewrite El, Er; exact Hr).
      rewrite (addEdge_rejected g u v Hr'). simpl.
      constructor; try assumption.
      intros x y. rewrite Hacc, app_nil_r. apply He.
  - pose proof (en_valid _ _ _ _ IH) as Hv.
    destruct (maxMatching_spec g Hv) as (g1 & k1 & E1 & V1 & G1 & _).
    rewrite E in E1. injection E1 as <- <-.
    apply (Engine_same l r calls g g' IH V1 G1).
Qed.

Lemma reachable_addEdges l r es : forall calls g,
  reachable l r calls g -> reachable l r (calls ++ es) (addEdges g es).
Proof.
  induction es as [|[u v] es IH]; intros calls g H; simpl.
  - rewrite app_nil_r. exact H.
  - replace (calls ++ (u, v) :: es) with ((calls ++ [(u, v)]) ++ es)
      by (rewrite <- List.app_assoc; reflexivity).
    apply IH. apply reach_edge. exact H.
Qed.

Lemma reachable_fresh l r es :
  0 <= l -> 0 <= r -> reachable l r es (addEdges (construct l r) es).
Proof.
  intros Hl Hr. apply (reachable_addEdges l r es [] (construct l r)).
  apply reach_new; assumption.
Qed.

Lemma addEdges_pairU es : forall g, pairU (addEdges g es) = pairU g.
Proof.
  induction es as [|[u v] es IH]; intros g; simpl; [reflexivity|].
  rewrite IH. unfold addEdge. destruct (_ || _); reflexivity.
Qed.

Lemma addEdges_nLeft es : forall g, nLeft (addEdges g es) = nLeft g.
Proof.
  induction es as [|[u v] es IH]; intros g; simpl; [reflexivity|].
  rewrite IH. unfold addEdge. destruct (_ || _); reflexivity.
Qed.

(** ** [getMatchingPairs] *)

(** The matched pairs, by increasing left vertex. *)
Definition pairs_of (g : BipartiteGraph) : list (Z * Z) :=
  map (fun u => (u, pairUA g u))
      (List.filter (is_matched g) (range1 (nLeft g))).

Lemma collect_pairs_spec us : forall g result,
  Shape g -> (forall u, In u us -> 1 <= u <= nLeft g) ->
  collect_pairs us g result =
  Ok (result ++ map (fun u => (u, pairUA g u)) (List.filter (is_matched g) us)).
Proof.
  induction us as [|u us IH]; intros g result Hs Hus; simpl.
  - rewrite app_nil_r. reflexivity.
  - assert (Hu : 1 <= u <= nLeft g) by (apply Hus; left; reflexivity).
    pose proof (sh_pairU _ Hs) as Hlen.
    vget_step 0. fold (pairUA g u). unfold is_matched at 1.
    destruct (pairUA g u =? 0); simpl.
    + apply IH; [exact Hs|]. intros w Hw. apply Hus; right; exact Hw.
    + rewrite IH; [|exact Hs|intros w Hw; apply Hus; right; exact Hw].
      rewrite <- List.app_assoc. reflexivity.
Qed.

Lemma getMatchingPairs_spec g : Shape g -> getMatchingPairs g = Ok (pairs_of g).
Proof.
  intros Hs. unfold getMatchingPairs.
  rewrite collect_pairs_spec; [reflexivity|exact Hs|].
  intros u Hu. apply In_range1. exact Hu.
Qed.

Lemma length_pairs_of g : zlen (pairs_of g) = msize g.
Proof. unfold pairs_of, msize. rewrite length_map. reflexivity. Qed.

Lemma In_pairs_of g u v :
  In (u, v) (pairs_of g) <->
  1 <= u <= nLeft g /\ v = pairUA g u /\ v <> 0.
Proof.
  unfold pairs_of. rewrite in_map_iff. split.
  - intros (x & E & Hx). injection E as <- <-.
    apply filter_In in Hx as [Hx Hm]. apply In_range1 in Hx.
    unfold is_matched in Hm. destruct (Z.eqb_spec (pairUA g x) 0); [discriminate|].
    auto.
  - intros (Hu & -> & Hne). exists u. split; [reflexivity|].
    apply filter_In. split; [apply In_range1; exact Hu|].
    unfold is_matched. destruct (Z.eqb_spec (pairUA g u) 0); [contradiction|reflexivity].
Qed.

Lemma range1_sorted n : StronglySorted Z.lt (range1 n).
Proof.
  unfold range1. generalize 1%nat. induction (Z.to_nat n) as [|k IH]; intros a; simpl.
  - constructor.
  - constructor; [apply IH|].
    apply List.Forall_forall. intros x Hx. apply in_map_iff in Hx as (y & <- & Hy).
    apply in_seq in Hy. lia.
Qed.

Lemma filter_sorted (f : Z -> bool) l :
  StronglySorted Z.lt l -> StronglySorted Z.lt (List.filter f l).
Proof.
  induction 1 as [|a l Hs IH Ha]; simpl; [constructor|].
  destruct (f a); [|exact IH]. constructor; [exact IH|].
  apply List.Forall_forall. intros x Hx. apply filter_In in Hx as [Hx _].
  rewrite List.Forall_forall in Ha. apply Ha. exact Hx.
Qed.

Lemma pairs_of_sorted g : StronglySorted Z.lt (map fst (pairs_of g)).
Proof.
  unfold pairs_of. rewrite map_map. simpl. rewrite map_id.
  apply filter_sorted. apply range1_sorted.
Qed.

(** ** Matchings of the graph *)

Definition is_matching (E : Z -> Z -> Prop) (M : list (Z * Z)) : Prop :=
  List.NoDup (map fst M) /\ List.NoDup (map snd M) /\
  forall u v, In (u, v) M -> E u v.

Lemma NoDup_map_inj {A B} (f : A -> B) (l : list A) x y :
  List.NoDup (map f l) -> In x l -> In y l -> f x = f y -> x = y.
Proof.
  induction l as [|a l IH]; intros Hnd Hx Hy E; [destruct Hx|].
  simpl in Hnd. inversion Hnd as [|? ? Hna Hnd']; subst.
  destruct Hx as [->|Hx], Hy as [->|Hy]; auto.
  - exfalso. apply Hna. rewrite E. apply in_map. exact Hy.
  - exfalso. apply Hna. rewrite <- E. apply in_map. exact Hx.
Qed.

Lemma sorted_NoDup l : StronglySorted Z.lt l -> List.NoDup l.
Proof.
  induction 1 as [|a l Hs IH Ha]; constructor; [|exact IH].
  intros Hin. rewrite List.Forall_forall in Ha. specialize (Ha a Hin). lia.
Qed.

Lemma pairs_of_matching g : Valid g -> is_matching (edge g) (pairs_of g).
Proof.
  intros [Hs Hd Hq]. split; [|split].
  - apply sorted_NoDup. apply pairs_of_sorted.
  - unfold pairs_of. rewrite map_map. simpl.
    apply Injective_map_NoDup_in.
    + intros x y Hx Hy E.
      apply filter_In in Hx as [Hx Hmx]. apply filter_In in Hy as [Hy Hmy].
      apply In_range1 in Hx, Hy. unfold is_matched in Hmx, Hmy.
      destruct (Z.eqb_spec (pairUA g x) 0); [discriminate|].
      destruct (Z.eqb_spec (pairUA g y) 0); [discriminate|].
      rewrite <- (q_uv _ _ Hq x Hx) by assumption.
      rewrite <- (q_uv _ _ Hq y Hy) by assumption. congruence.
    + apply List.NoDup_filter. apply NoDup_range1.
  - intros u v Hin. apply In_pairs_of in Hin as (Hu & -> & Hne).
    split; [exact Hu|]. apply (q_edge _ _ Hq); assumption.
Qed.

(** ** When [bfs] fails the matching is maximum *)

(** Each edge of a matching is charged to a matched left vertex: its own
    left end when that has no layer number, the partner of its right end
    otherwise.  No matched left vertex is charged twice. *)
Definition charge (g : BipartiteGraph) (e : Z * Z) : Z :=
  if has_layer g (fst e) then pairVA g (snd e) else fst e.

Lemma no_larger_matching g :
  Valid g ->
  distA g 0 = INF ->
  (forall u, 1 <= u <= nLeft g -> pairUA g u = 0 -> distA g u = 0) ->
  (forall x, 1 <= x <= nLeft g -> distA g x <> INF -> Expanded g x) ->
  forall M, is_matching (edge g) M -> zlen M <= msize g.
Proof.
  intros [Hs Hd Hq] H0 Hfree Hexp M (Hn1 & Hn2 & HE).
  assert (Hlay : forall u v, In (u, v) M -> distA g u <> INF ->
            1 <= pairVA g v <= nLeft g /\ distA g (pairVA g v) <> INF /\
            pairUA g (pairVA g v) = v).
  { intros u v Hin Hne. destruct (HE u v Hin) as [Hu Hadj].
    pose proof (Hexp u Hu Hne v Hadj) as Hw.
    assert (Hv : 1 <= v <= nRight g) by (eapply sh_edges; [exact Hs| |exact Hadj]; lia).
    pose proof (sh_pv _ Hs v ltac:(lia)) as Hr.
    assert (pairVA g v <> 0) by (intros E; rewrite E in Hw; contradiction).
    split; [lia|]. split; [exact Hw|]. apply (q_vu _ _ Hq); [exact Hv|lia|assumption]. }
  assert (Hcharge : forall e, In e M ->
            In (charge g e) (List.filter (is_matched g) (range1 (nLeft g)))).
  { intros [u v] Hin. unfold charge, has_layer; simpl.
    apply filter_In. unfold is_matched.
    destruct (Z.eqb_spec (distA g u) INF) as [Ei|Hne]; simpl.
    - destruct (HE u v Hin) as [Hu _]. split; [apply In_range1; exact Hu|].
      destruct (Z.eqb_spec (pairUA g u) 0) as [Ef|]; [|reflexivity].
      rewrite (Hfree u Hu Ef) in Ei. discriminate.
    - destruct (Hlay u v Hin Hne) as (Hr & _ & Ep).
      split; [apply In_range1; exact Hr|]. rewrite Ep.
      destruct (HE u v Hin) as [Hu Hadj].
      assert (1 <= v <= nRight g) by (eapply sh_edges; [exact Hs| |exact Hadj]; lia).
      destruct (Z.eqb_spec v 0); [lia|reflexivity]. }
  assert (Hinj : forall e1 e2, In e1 M -> In e2 M ->
            charge g e1 = charge g e2 -> e1 = e2).
  { intros [u1 v1] [u2 v2] H1 H2. unfold charge, has_layer; simpl.
    destruct (Z.eqb_spec (distA g u1) INF) as [E1|N1];
      destruct (Z.eqb_spec (distA g u2) INF) as [E2|N2]; simpl; intros E.
    - apply (NoDup_map_inj fst M _ _ Hn1 H1 H2). exact E.
    - destruct (Hlay u2 v2 H2 N2) as (_ & Hw & _). congruence.
    - destruct (Hlay u1 v1 H1 N1) as (_ & Hw & _). congruence.
    - destruct (Hlay u1 v1 H1 N1) as (_ & _ & P1).
      destruct (Hlay u2 v2 H2 N2) as (_ & _ & P2).
      apply (NoDup_map_inj snd M _ _ Hn2 H1 H2). simpl. congruence. }
  assert (HndM : List.NoDup M) by (apply (NoDup_map_inv fst); exact Hn1).
  assert (Hnd : List.NoDup (map (charge g) M))
    by (apply Injective_map_NoDup_in; assumption).
  assert (Hincl : incl (map (charge g) M)
                       (List.filter (is_matched g) (range1 (nLeft g)))).
  { intros x Hx. apply in_map_iff in Hx as (e & <- & He). apply Hcharge. exact He. }
  pose proof (NoDup_incl_length Hnd Hincl) as Hlen.
  rewrite length_map in Hlen. unfold msize. lia.
Qed.

Lemma Final_maximum bfuel g :
  Valid g -> Final bfuel g -> nLeft g < INF ->
  forall M, is_matching (edge g) M -> zlen M <= msize g.
Proof.
  intros Hv (log & _ & Hpost) Hnorm.
  pose proof (bp_more _ _ _ _ Hpost) as Hm. symmetry in Hm.
  apply negb_false_iff in Hm. apply Z.eqb_eq in Hm.
  apply no_larger_matching; [exact Hv|exact Hm| |].
  - exact (bp_free _ _ _ _ Hpost).
  - exact (bp_cover _ _ _ _ Hpost Hnorm eq_refl).
Qed.

(** ** The states between the phases of one call of [maxMatching] *)

(** [phase_state bfuel dfuel g0 g m]: in the call of [maxMatching] started
    in [g0], the state is [g] and the counter [matching] is [m] at the
    head of the [while] loop, after some number of complete phases. *)
Inductive phase_state (bfuel dfuel : nat) (g0 : BipartiteGraph)
  : BipartiteGraph -> Z -> Prop :=
| ps_start : phase_state bfuel dfuel g0 g0 0
| ps_phase g m g1 g2 m' :
    phase_state bfuel dfuel g0 g m ->
    bfs_fuel bfuel g = Ok (g1, true) ->
    augment dfuel (range1 (nLeft g1)) g1 m = Ok (g2, m') ->
    phase_state bfuel dfuel g0 g2 m'.

(** Every call of [maxMatching] that returns went through phase states
    and stopped at a failing [bfs]. *)
Lemma phases_phase_state bfuel dfuel g0 pfuel : forall g m g' m',
  phase_state bfuel dfuel g0 g m ->
  phases pfuel bfuel dfuel g m = Ok (g', m') ->
  exists gl, phase_state bfuel dfuel g0 gl m' /\
             bfs_fuel bfuel gl = Ok (g', false).
Proof.
  induction pfuel as [|pfuel IH]; intros g m g' m' Hps E; simpl in E; [discriminate|].
  destruct (bfs_fuel bfuel g) as [[g1 more]| |] eqn:Eb; cbn [rbind] in E; try discriminate.
  destruct more.
  - destruct (augment dfuel (range1 (nLeft g1)) g1 m) as [[g2 m2]| |] eqn:Ea;
      cbn [rbind] in E; try discriminate.
    apply (IH g2 m2 g' m'); [|exact E].
    eapply ps_phase; eassumption.
  - injection E as <- <-. exists g. split; [exact Hps|exact Eb].
Qed.

Lemma phase_state_Valid bfuel dfuel g0 g m :
  Valid g0 -> (bfs_budget g0 <= bfuel)%nat -> (dfs_budget g0 <= dfuel)%nat ->
  phase_state bfuel dfuel g0 g m ->
  Valid g /\ same_graph g0 g /\ m = msize g - msize g0.
Proof.
  intros Hv0 Hb Hd H.
  induction H as [|g m g1 g2 m' H (Hv & G & M) Eb Ea].
  - split; [exact Hv0|]. split; [apply same_graph_refl|lia].
  - pose proof (va_shape _ Hv0) as Hs0. pose proof (va_shape _ Hv) as Hs.
    destruct (budgets_same g0 g Hs0 Hs G) as (B1 & B2 & _).
    destruct (bfs_fuel_spec bfuel g Hv ltac:(lia)) as (g1' & more & log & E1 & _ & Hpost).
    rewrite Eb in E1. injection E1 as <- <-.
    pose proof (bp_valid _ _ _ _ Hpost) as Hv1.
    destruct (budgets_same g g1 Hs (va_shape _ Hv1) (bp_same _ _ _ _ Hpost)) as (_ & B3 & _).
    destruct (augment_spec dfuel (range1 (nLeft g1)) g1 m Hv1 ltac:(lia))
      as (g2' & m2 & E2 & V2 & G2 & M2 & _).
    { intros x Hx. apply In_range1. exact Hx. }
    rewrite Ea in E2. injection E2 as <- <-.
    split; [exact V2|]. split.
    + eapply same_graph_trans; [exact G|].
      eapply same_graph_trans; [exact (bp_same _ _ _ _ Hpost)|exact G2].
    + rewrite (msize_ext g g1 (proj1 (bp_same _ _ _ _ Hpost)) (bp_pu _ _ _ _ Hpost)) in M2.
      lia.
Qed.

(** ** The pairing state as a matching *)

Record MatchingOK (g : BipartiteGraph) : Prop := mkMatchingOK {
  mo_iff : forall u v, 1 <= u <= nLeft g -> 1 <= v <= nRight g ->
           (pairUA g u = v <-> pairVA g v = u);
  mo_left : forall u, 0 <= u <= nLeft g -> 0 <= pairUA g u <= nRight g;
  mo_right : forall v, 0 <= v <= nRight g -> 0 <= pairVA g v <= nLeft g;
  mo_once_right : forall u1 u2, 1 <= u1 <= nLeft g -> 1 <= u2 <= nLeft g ->
           pairUA g u1 <> 0 -> pairUA g u1 = pairUA g u2 -> u1 = u2;
  mo_once_left : forall v1 v2, 1 <= v1 <= nRight g -> 1 <= v2 <= nRight g ->
           pairVA g v1 <> 0 -> pairVA g v1 = pairVA g v2 -> v1 = v2
}.

Lemma Valid_MatchingOK g : Valid g -> MatchingOK g.
Proof.
  intros [Hs Hd Hq]. constructor.
  - intros u v Hu Hv. split; intros E.
    + rewrite <- E. apply (q_uv _ _ Hq); [exact Hu|lia].
    + rewrite <- E. apply (q_vu _ _ Hq); [exact Hv|lia|lia].
  - exact (q_range _ _ Hq).
  - exact (sh_pv _ Hs).
  - intros u1 u2 H1 H2 Hne E.
    rewrite <- (q_uv _ _ Hq u1 H1 Hne).
    rewrite <- (q_uv _ _ Hq u2 H2) by congruence. congruence.
  - intros v1 v2 H1 H2 Hne E.
    rewrite <- (q_vu _ _ Hq v1 H1 ltac:(lia) Hne).
    rewrite <- (q_vu _ _ Hq v2 H2 ltac:(lia)) by congruence. congruence.
Qed.

Lemma is_matching_ext (E E' : Z -> Z -> Prop) M :
  (forall u v, E u v -> E' u v) -> is_matching E M -> is_matching E' M.
Proof. intros H (H1 & H2 & H3). split; [exact H1|split; [exact H2|]]. auto. Qed.

Lemma msize_fresh l r es : msize (addEdges (construct l r) es) = 0.
Proof.
  unfold msize. rewrite addEdges_nLeft.
  rewrite (List.filter_ext_in _ (fun _ => false)).
  - rewrite List.filter_false. reflexivity.
  - intros x Hx. apply In_range1 in Hx. simpl in Hx.
    unfold is_matched, pairUA. rewrite addEdges_pairU. simpl.
    rewrite vat_repeat by lia. reflexivity.
Qed.

Lemma no_oob_neq {A} (P : A -> Prop) (r : res A) : no_oob P r -> r <> OutOfBounds.
Proof. destruct r; simpl; intros H E; try discriminate. exact H. Qed.

Lemma phase_state_Shape bfuel dfuel g0 g m :
  Shape g0 -> phase_state bfuel dfuel g0 g m -> Shape g /\ same_graph g0 g.
Proof.
  intros Hs0 H. induction H as [|g m g1 g2 m' H (Hs & G) Eb Ea].
  - split; [exact Hs0|apply same_graph_refl].
  - pose proof (bfs_fuel_safe bfuel g Hs) as H1. rewrite Eb in H1.
    destruct H1 as [Hs1 G1]; simpl in *.
    pose proof (augment_safe dfuel (range1 (nLeft g1)) g1 m Hs1) as H2.
    rewrite Ea in H2. destruct H2 as [Hs2 G2]; simpl in *.
    { intros u Hu. apply In_range1. exact Hu. }
    split; [exact Hs2|].
    eapply same_graph_trans; [exact G|]. eapply same_graph_trans; eassumption.
Qed.

(** * Engines with as many left vertices as [INF] *)

(** The sentinel [INF] is the literal [1e9], whatever the size of the graph.
    This part runs [maxMatching] on a chain with [N] left vertices, for
    every [N], on states given by functions rather than by lists, and reads
    off what happens at [N = INF]. *)

(** ** Vectors given by a function *)

(** [tab f n]: the vector with the entries [f 0, f 1, ..., f n]. *)
Definition tab {A} (f : Z -> A) (n : Z) : list A := map f (0 :: range1 n).
Arguments tab : simpl never.

Lemma length_tab {A} (f : Z -> A) n : 0 <= n -> zlen (tab f n) = n + 1.
Proof.
  intros Hn. unfold tab. rewrite length_map. cbn [length].
  pose proof (length_range1 n Hn). lia.
Qed.

Lemma vat_tab {A} (d : A) (f : Z -> A) n x :
  0 <= x <= n -> vat d (tab f n) x = f x.
Proof.
  intros Hx. unfold vat, tab, range1.
  change (0 :: map Z.of_nat (seq 1 (Z.to_nat n)))
    with (map Z.of_nat (seq 0 (S (Z.to_nat n)))).
  rewrite map_map.
  rewrite (nth_indep _ d (f (Z.of_nat 0))) by (rewrite length_map, length_seq; lia).
  rewrite (map_nth (fun k => f (Z.of_nat k))).
  rewrite seq_nth by lia. f_equal. lia.
Qed.

Lemma tab_ext {A} (f g : Z -> A) n :
  0 <= n -> (forall x, 0 <= x <= n -> f x = g x) -> tab f n = tab g n.
Proof.
  intros Hn H. unfold tab. apply map_ext_in. intros x [<-|Hx].
  - apply H. lia.
  - apply H. apply In_range1 in Hx. lia.
Qed.

(** The entry [i] replaced by [a]. *)
Definition upd {A} (f : Z -> A) (i : Z) (a : A) (x : Z) : A :=
  if x =? i then a else f x.

Lemma insert_tab {A} (f : Z -> A) n i a :
  0 <= i <= n -> <[Z.to_nat i := a]> (tab f n) = tab (upd f i a) n.
Proof.
  intros Hi. pose proof (length_tab f n ltac:(lia)) as Hlen.
  pose proof (length_tab (upd f i a) n ltac:(lia)) as Hlen'.
  apply (nth_ext _ _ a a).
  - rewrite length_insert. lia.
  - intros k Hk. rewrite length_insert in Hk.
    replace k with (Z.to_nat (Z.of_nat k)) by lia.
    fold (vat a (<[Z.to_nat i := a]> (tab f n)) (Z.of_nat k)).
    fold (vat a (tab (upd f i a) n) (Z.of_nat k)).
    rewrite vat_insert by lia. rewrite !vat_tab by lia. reflexivity.
Qed.

Lemma vget_tab {A} (f : Z -> A) n x :
  0 <= x <= n -> vget (tab f n) x = Ok (f x).
Proof.
  intros Hx. pose proof (length_tab f n ltac:(lia)).
  rewrite (vget_ok (f x)) by lia. rewrite vat_tab by lia. reflexivity.
Qed.

Lemma vset_tab {A} (f : Z -> A) n x a :
  0 <= x <= n -> vset (tab f n) x a = Ok (tab (upd f x a) n).
Proof.
  intros Hx. pose proof (length_tab f n ltac:(lia)).
  rewrite vset_ok by lia. rewrite insert_tab by lia. reflexivity.
Qed.

Lemma alter_tab {A} (h : A -> A) (f : Z -> A) n i :
  0 <= i <= n -> alter h (Z.to_nat i) (tab f n) = tab (upd f i (h (f i))) n.
Proof.
  intros Hi. pose proof (length_tab f n ltac:(lia)) as Hlen.
  pose proof (length_tab (upd f i (h (f i))) n ltac:(lia)) as Hlen'.
  apply (nth_ext _ _ (f 0) (f 0)).
  - rewrite length_alter. lia.
  - intros k Hk. rewrite length_alter in Hk.
    replace k with (Z.to_nat (Z.of_nat k)) by lia.
    fold (vat (f 0) (tab (upd f i (h (f i))) n) (Z.of_nat k)).
    rewrite vat_tab by lia. unfold upd.
    destruct (Z.eqb_spec (Z.of_nat k) i) as [E|E].
    + rewrite E. rewrite (nth_alter_eq h) by lia.
      fold (vat (f 0) (tab f n) i). rewrite vat_tab by lia. reflexivity.
    + rewrite nth_alter_ne by lia.
      fold (vat (f 0) (tab f n) (Z.of_nat k)). rewrite vat_tab by lia. reflexivity.
Qed.

Lemma repeat_tab {A} (a : A) n :
  0 <= n -> repeat a (Z.to_nat (n + 1)) = tab (fun _ => a) n.
Proof.
  intros Hn. pose proof (length_tab (fun _ : Z => a) n Hn) as Hlen.
  apply (nth_ext _ _ a a).
  - rewrite repeat_length. lia.
  - intros k Hk. rewrite repeat_length in Hk. rewrite nth_repeat.
    replace k with (Z.to_nat (Z.of_nat k)) by lia.
    fold (vat a (tab (fun _ : Z => a) n) (Z.of_nat k)).
    rewrite vat_tab by lia. reflexivity.
Qed.

(** ** Engine states given by functions *)

Definition gstate (N : Z) (A : Z -> list Z) (D PU PV : Z -> Z) : BipartiteGraph :=
  mkGraph N N (tab A N) (tab D N) (tab PU N) (tab PV N).

Lemma gstate_ext N A A' D D' PU PU' PV PV' :
  0 <= N ->
  (forall x, 0 <= x <= N -> A x = A' x) ->
  (forall x, 0 <= x <= N -> D x = D' x) ->
  (forall x, 0 <= x <= N -> PU x = PU' x) ->
  (forall x, 0 <= x <= N -> PV x = PV' x) ->
  gstate N A D PU PV = gstate N A' D' PU' PV'.
Proof.
  intros HN HA HD HU HV. unfold gstate.
  rewrite (tab_ext A A' N HN HA), (tab_ext D D' N HN HD),
    (tab_ext PU PU' N HN HU), (tab_ext PV PV' N HN HV). reflexivity.
Qed.

Lemma construct_gstate N :
  0 <= N ->
  construct N N = gstate N (fun _ => []) (fun _ => INF) (fun _ => 0) (fun _ => 0).
Proof.
  intros HN. unfold construct, gstate. rewrite !repeat_tab by exact HN. reflexivity.
Qed.

Lemma addEdge_gstate N A D PU PV u v :
  1 <= u <= N -> 1 <= v <= N ->
  fst (addEdge (gstate N A D PU PV) u v) =
  gstate N (upd A u (A u ++ [v])) D PU PV.
Proof.
  intros Hu Hv. rewrite addEdge_accepted.
  - unfold gstate, set_adj; simpl. rewrite alter_tab by lia. reflexivity.
  - apply in_range_spec. simpl. lia.
Qed.

(** The calls of [addEdge] that build the adjacency [A], left vertex by
    left vertex. *)
Definition calls_for (A : Z -> list Z) (us : list Z) : list (Z * Z) :=
  concat (map (fun u => map (fun v => (u, v)) (A u)) us).

Lemma addEdges_app es1 : forall es2 g,
  addEdges g (es1 ++ es2) = addEdges (addEdges g es1) es2.
Proof.
  induction es1 as [|[u v] es1 IH]; intros es2 g; simpl; [reflexivity|apply IH].
Qed.

Lemma addEdges_one_vertex N D PU PV u vs : forall B,
  1 <= u <= N -> (forall v, In v vs -> 1 <= v <= N) ->
  addEdges (gstate N B D PU PV) (map (fun v => (u, v)) vs) =
  gstate N (upd B u (B u ++ vs)) D PU PV.
Proof.
  induction vs as [|v vs IH]; intros B Hu Hvs; simpl.
  - apply gstate_ext; try reflexivity; [lia|].
    intros x Hx. unfold upd. destruct (Z.eqb_spec x u) as [->|]; [|reflexivity].
    rewrite app_nil_r. reflexivity.
  - rewrite addEdge_gstate by (lia || (apply Hvs; left; reflexivity)).
    rewrite IH by (lia || (intros w Hw; apply Hvs; right; exact Hw)).
    apply gstate_ext; try reflexivity; [lia|].
    intros x Hx. unfold upd. destruct (Z.eqb_spec x u) as [->|]; [|reflexivity].
    rewrite Z.eqb_refl. rewrite <- List.app_assoc. reflexivity.
Qed.

Lemma addEdges_calls_for N A D PU PV n : forall k B,
  0 <= k -> k + Z.of_nat n <= N ->
  (forall x, k < x <= N -> B x = []) ->
  (forall u v, 1 <= u <= N -> In v (A u) -> 1 <= v <= N) ->
  addEdges (gstate N B D PU PV)
           (calls_for A (map Z.of_nat (seq (S (Z.to_nat k)) n))) =
  gstate N (fun x => if (k <? x) && (x <=? k + Z.of_nat n) then A x else B x)
         D PU PV.
Proof.
  induction n as [|n IH]; intros k B Hk Hn HB HA.
  - simpl. apply gstate_ext; try reflexivity; [lia|].
    intros x Hx. destruct (Z.ltb_spec k x), (Z.leb_spec x (k + Z.of_nat 0)); simpl;
      try reflexivity. lia.
  - cbn [seq map]. unfold calls_for. cbn [map concat]. fold (calls_for A).
    rewrite addEdges_app.
    replace (Z.of_nat (S (Z.to_nat k))) with (k + 1) by lia.
    rewrite addEdges_one_vertex; [|lia|intros v Hv; apply (HA (k + 1)); [lia|exact Hv]].
    replace (S (S (Z.to_nat k))) with (S (Z.to_nat (k + 1))) by lia.
    change (concat (map (fun u => map (fun v => (u, v)) (A u))
                        (map Z.of_nat (seq (S (Z.to_nat (k + 1))) n))))
      with (calls_for A (map Z.of_nat (seq (S (Z.to_nat (k + 1))) n))).
    rewrite IH; [|lia|lia| |exact HA].
    + apply gstate_ext; try reflexivity; [lia|].
      intros x Hx. unfold upd.
      destruct (Z.ltb_spec (k + 1) x), (Z.leb_spec x (k + 1 + Z.of_nat n)),
        (Z.ltb_spec k x), (Z.leb_spec x (k + Z.of_nat (S n))),
        (Z.eqb_spec x (k + 1)); simpl; try reflexivity; try lia.
      subst x. rewrite HB by lia. reflexivity.
    + intros x Hx. unfold upd. destruct (Z.eqb_spec x (k + 1)); [lia|].
      apply HB. lia.
Qed.

Lemma addEdges_build N A :
  0 <= N ->
  (forall u v, 1 <= u <= N -> In v (A u) -> 1 <= v <= N) ->
  addEdges (construct N N) (calls_for A (range1 N)) =
  gstate N (fun x => if x =? 0 then [] else A x)
         (fun _ => INF) (fun _ => 0) (fun _ => 0).
Proof.
  intros HN HA. rewrite construct_gstate by exact HN. unfold range1.
  change (seq 1 (Z.to_nat N)) with (seq (S (Z.to_nat 0)) (Z.to_nat N)).
  rewrite addEdges_calls_for; [|lia|lia|reflexivity|exact HA].
  apply gstate_ext; try reflexivity; [lia|].
  intros x Hx. destruct (Z.ltb_spec 0 x), (Z.leb_spec x (0 + Z.of_nat (Z.to_nat N))),
    (Z.eqb_spec x 0); simpl; try reflexivity; lia.
Qed.

(** ** One step of each loop on a state given by functions *)

Section Steps.
Variable N : Z.
Hypothesis HN : 0 <= N.
Variables (A : Z -> list Z) (D PU PV : Z -> Z).

Lemma scan_skip u v vs q log :
  1 <= v <= N -> 0 <= PV v <= N -> D (PV v) <> INF ->
  bfs_scan_log u (v :: vs) (gstate N A D PU PV) q log =
  bfs_scan_log u vs (gstate N A D PU PV) q log.
Proof using HN.
  intros Hv Hw Hne. cbn [bfs_scan_log gstate pairV dist].
  rewrite vget_tab by lia. cbn [rbind]. rewrite vget_tab by lia. cbn [rbind].
  destruct (Z.eqb_spec (D (PV v)) INF); [contradiction|reflexivity].
Qed.

Lemma scan_assign u v vs q log :
  1 <= v <= N -> 0 <= PV v <= N -> D (PV v) = INF -> 0 <= u <= N ->
  bfs_scan_log u (v :: vs) (gstate N A D PU PV) q log =
  bfs_scan_log u vs (gstate N A (upd D (PV v) (D u + 1)) PU PV)
               (q ++ [PV v]) (log ++ [D u + 1]).
Proof using HN.
  intros Hv Hw Einf Hu. cbn [bfs_scan_log gstate pairV dist].
  rewrite vget_tab by lia. cbn [rbind]. rewrite vget_tab by lia. cbn [rbind].
  rewrite Einf, Z.eqb_refl.
  rewrite vget_tab by lia. cbn [rbind]. rewrite vset_tab by lia. cbn [rbind].
  reflexivity.
Qed.

Lemma loop_expand fuel u q log :
  0 <= u <= N -> D u < D 0 ->
  bfs_loop_log (S fuel) (gstate N A D PU PV) (u :: q) log =
  let* (gq, log') := bfs_scan_log u (A u) (gstate N A D PU PV) q log in
  bfs_loop_log fuel (fst gq) (snd gq) log'.
Proof using HN.
  intros Hu Hlt. cbn [bfs_loop_log gstate dist adj].
  rewrite vget_tab by lia. cbn [rbind]. rewrite vget_tab by lia. cbn [rbind].
  destruct (Z.ltb_spec (D u) (D 0)); [|lia].
  rewrite vget_tab by lia. cbn [rbind]. reflexivity.
Qed.

Lemma loop_skip fuel u q log :
  0 <= u <= N -> ~ D u < D 0 ->
  bfs_loop_log (S fuel) (gstate N A D PU PV) (u :: q) log =
  bfs_loop_log fuel (gstate N A D PU PV) q log.
Proof using HN.
  intros Hu Hlt. cbn [bfs_loop_log gstate dist adj].
  rewrite vget_tab by lia. cbn [rbind]. rewrite vget_tab by lia. cbn [rbind].
  destruct (Z.ltb_spec (D u) (D 0)); [lia|reflexivity].
Qed.

Lemma dfs_step fuel u :
  1 <= u <= N ->
  dfs_fuel (S fuel) (gstate N A D PU PV) u =
  dfs_neighbours (dfs_fuel fuel) u (A u) (gstate N A D PU PV).
Proof using HN.
  intros Hu. cbn [dfs_fuel gstate adj].
  destruct (Z.eqb_spec u 0); [lia|].
  rewrite vget_tab by lia. cbn [rbind]. reflexivity.
Qed.

Lemma dfsn_skip rec u v vs :
  1 <= v <= N -> 0 <= PV v <= N -> 0 <= u <= N -> D (PV v) <> D u + 1 ->
  dfs_neighbours rec u (v :: vs) (gstate N A D PU PV) =
  dfs_neighbours rec u vs (gstate N A D PU PV).
Proof using HN.
  intros Hv Hw Hu Hne. cbn [dfs_neighbours gstate pairV dist].
  rewrite vget_tab by lia. cbn [rbind]. rewrite vget_tab by lia. cbn [rbind].
  rewrite vget_tab by lia. cbn [rbind].
  destruct (Z.eqb_spec (D (PV v)) (D u + 1)); [contradiction|reflexivity].
Qed.

Lemma dfsn_free rec u v vs :
  1 <= v <= N -> PV v = 0 -> 1 <= u <= N -> D 0 = D u + 1 ->
  rec (gstate N A D PU PV) 0 = Ok (gstate N A D PU PV, true) ->
  dfs_neighbours rec u (v :: vs) (gstate N A D PU PV) =
  Ok (gstate N A D (upd PU u v) (upd PV v u), true).
Proof using HN.
  intros Hv Hw Hu Hlay Hrec. cbn [dfs_neighbours gstate pairV dist].
  rewrite vget_tab by lia. cbn [rbind]. rewrite Hw.
  rewrite vget_tab by lia. cbn [rbind].
  rewrite vget_tab by lia. cbn [rbind].
  rewrite Hlay, Z.eqb_refl.
  change (mkGraph N N (tab A N) (tab D N) (tab PU N) (tab PV N))
    with (gstate N A D PU PV).
  rewrite Hrec. cbn [rbind gstate pairU pairV].
  rewrite vset_tab by lia. cbn [rbind]. rewrite vset_tab by lia. cbn [rbind].
  reflexivity.
Qed.

Lemma dfsn_end rec u :
  1 <= u <= N ->
  dfs_neighbours rec u [] (gstate N A D PU PV) =
  Ok (gstate N A (upd D u INF) PU PV, false).
Proof using HN.
  intros Hu. cbn [dfs_neighbours gstate dist].
  rewrite vset_tab by lia. cbn [rbind]. reflexivity.
Qed.

Lemma augment_free dfuel u us m g1 found :
  1 <= u <= N -> PU u = 0 ->
  dfs_fuel dfuel (gstate N A D PU PV) u = Ok (g1, found) ->
  augment dfuel (u :: us) (gstate N A D PU PV) m =
  augment dfuel us g1 (if found then m + 1 else m).
Proof using HN.
  intros Hu Hf E. cbn [augment gstate pairU].
  rewrite vget_tab by lia. cbn [rbind]. rewrite Hf. cbn [Z.eqb].
  change (mkGraph N N (tab A N) (tab D N) (tab PU N) (tab PV N))
    with (gstate N A D PU PV).
  rewrite E. cbn [rbind]. destruct found; reflexivity.
Qed.

End Steps.

Lemma augment_app dfuel us1 : forall us2 g m,
  augment dfuel (us1 ++ us2) g m =
  let* (g1, m1) := augment dfuel us1 g m in augment dfuel us2 g1 m1.
Proof.
  induction us1 as [|u us1 IH]; intros us2 g m; [reflexivity|].
  cbn [app augment].
  destruct (vget (pairU g) u) as [pu| |]; cbn [rbind]; try reflexivity.
  destruct (pu =? 0); [|apply IH].
  destruct (dfs_fuel dfuel g u) as [[g1 found]| |]; cbn [rbind]; try reflexivity.
  destruct found; apply IH.
Qed.

(** ** [bfs] on a state given by functions *)

Lemma Shape_gstate N A D PU PV :
  0 <= N ->
  (forall u v, 0 <= u <= N -> In v (A u) -> 1 <= v <= N) ->
  (forall v, 0 <= v <= N -> 0 <= PV v <= N) ->
  Shape (gstate N A D PU PV).
Proof.
  intros HN HA HV. constructor; cbn [gstate nLeft nRight adj dist pairU pairV];
    try exact HN; try (apply length_tab; exact HN).
  - intros u v Hu Hin. unfold adjA in Hin. cbn [gstate adj] in Hin.
    rewrite vat_tab in Hin by exact Hu. eapply HA; eassumption.
  - intros v Hv. unfold pairVA. cbn [gstate pairV]. rewrite vat_tab by exact Hv.
    apply HV; exact Hv.
Qed.

Definition seed_fun (PU : Z -> Z) (x : Z) : Z :=
  if x =? 0 then INF else if PU x =? 0 then 0 else INF.

Lemma seeded_gstate N A D PU PV :
  0 <= N ->
  seeded (gstate N A D PU PV) = gstate N A (seed_fun PU) PU PV.
Proof.
  intros HN. unfold seeded, set_dist. cbn [gstate nLeft nRight adj pairU pairV].
  change (map (seed_dist (gstate N A D PU PV)) (0 :: range1 N))
    with (tab (seed_dist (gstate N A D PU PV)) N).
  unfold gstate at 2. f_equal. apply tab_ext; [exact HN|].
  intros x Hx. unfold seed_dist, seed_fun, is_free, pairUA. cbn [gstate pairU].
  rewrite vat_tab by exact Hx. reflexivity.
Qed.

Lemma seed_queue_gstate N A D PU PV :
  0 <= N ->
  seed_queue (gstate N A D PU PV) = List.filter (fun u => PU u =? 0) (range1 N).
Proof.
  intros HN. unfold seed_queue. cbn [gstate nLeft].
  apply List.filter_ext_in. intros x Hx. apply In_range1 in Hx.
  unfold is_free, pairUA. cbn [gstate pairU]. rewrite vat_tab by lia. reflexivity.
Qed.

Lemma bfs_gstate fuel N A D PU PV D2 log :
  0 <= N ->
  Shape (gstate N A D PU PV) ->
  bfs_loop_log fuel (gstate N A (seed_fun PU) PU PV)
               (List.filter (fun u => PU u =? 0) (range1 N)) [] =
    Ok (gstate N A D2 PU PV, log) ->
  bfs_fuel fuel (gstate N A D PU PV) =
    Ok (gstate N A D2 PU PV, negb (D2 0 =? INF)) /\
  bfs_writes fuel (gstate N A D PU PV) = Ok log.
Proof.
  intros HN Hs E.
  rewrite (bfs_fuel_unfold fuel _ Hs), (bfs_writes_unfold fuel _ Hs).
  rewrite seeded_gstate, seed_queue_gstate by exact HN.
  rewrite (bfs_loop_erase fuel _ _ []), E. cbn [rmap rbind fst gstate dist].
  rewrite vget_tab by lia. cbn [rbind]. split; reflexivity.
Qed.

Lemma range1_cons N :
  1 <= N -> range1 N = 1 :: map Z.of_nat (seq 2 (Z.to_nat (N - 1))).
Proof.
  intros HN. unfold range1.
  replace (Z.to_nat N) with (S (Z.to_nat (N - 1))) by lia. reflexivity.
Qed.

Lemma range1_snoc N : 1 <= N -> range1 N = range1 (N - 1) ++ [N].
Proof.
  intros HN. unfold range1.
  replace (Z.to_nat N) with (S (Z.to_nat (N - 1))) by lia.
  rewrite seq_S, map_app. cbn [map]. f_equal. f_equal. lia.
Qed.

Lemma filter_all (f : Z -> bool) l :
  (forall x, In x l -> f x = true) -> List.filter f l = l.
Proof.
  induction l as [|a l IH]; intros H; [reflexivity|]. cbn [List.filter].
  rewrite (H a) by (left; reflexivity). f_equal. apply IH.
  intros x Hx. apply H. right; exact Hx.
Qed.

Lemma filter_none (f : Z -> bool) l :
  (forall x, In x l -> f x = false) -> List.filter f l = [].
Proof.
  induction l as [|a l IH]; intros H; [reflexivity|]. cbn [List.filter].
  rewrite (H a) by (left; reflexivity). apply IH.
  intros x Hx. apply H. right; exact Hx.
Qed.

(** When every right vertex is free and the sentinel already has a layer
    number, the queue loop changes nothing any more. *)
Section Idle.
Variable N : Z.
Hypothesis HN : 0 <= N.
Variables (A : Z -> list Z) (D PU PV : Z -> Z).
Hypothesis HA : forall u v, 1 <= u <= N -> In v (A u) -> 1 <= v <= N.
Hypothesis HV : forall v, 1 <= v <= N -> PV v = 0.
Hypothesis HD : D 0 <> INF.

Lemma idle_scan u vs : forall q log,
  (forall v, In v vs -> 1 <= v <= N) ->
  bfs_scan_log u vs (gstate N A D PU PV) q log =
  Ok (gstate N A D PU PV, q, log).
Proof using HN HV HD.
  induction vs as [|v vs IH]; intros q log Hvs; [reflexivity|].
  assert (Hv : 1 <= v <= N) by (apply Hvs; left; reflexivity).
  rewrite scan_skip; [|exact HN|exact Hv|rewrite HV by exact Hv; lia
                      |rewrite HV by exact Hv; exact HD].
  apply IH. intros w Hw. apply Hvs. right; exact Hw.
Qed.

Lemma idle_loop us : forall fuel log,
  (forall u, In u us -> 1 <= u <= N) ->
  (length us + 2 <= fuel)%nat ->
  bfs_loop_log fuel (gstate N A D PU PV) (us ++ [0]) log =
  Ok (gstate N A D PU PV, log).
Proof using HN HA HV HD.
  induction us as [|u us IH]; intros fuel log Hus Hfuel.
  - destruct fuel as [|[|fuel]]; cbn [length] in Hfuel; try lia.
    cbn [app]. rewrite loop_skip by lia. reflexivity.
  - destruct fuel as [|fuel]; cbn [length] in Hfuel; [lia|].
    assert (Hu : 1 <= u <= N) by (apply Hus; left; reflexivity).
    cbn [app].
    assert (Hrest : bfs_loop_log fuel (gstate N A D PU PV) (us ++ [0]) log =
                    Ok (gstate N A D PU PV, log)).
    { apply IH; [|lia]. intros w Hw. apply Hus. right; exact Hw. }
    destruct (Z_lt_dec (D u) (D 0)) as [Hlt|Hge].
    + rewrite loop_expand by lia.
      rewrite idle_scan by (intros v Hv; eapply HA; eassumption).
      cbn [rbind fst snd]. exact Hrest.
    + rewrite loop_skip by lia. exact Hrest.
Qed.
End Idle.

(** ** The chain *)

(** Left vertex [i < N] has the edges to [i] and [i + 1], left vertex [N]
    the edge to [1]; [first] tells whether the edge [(1, 1)] is there. *)
Definition chain_nbrs (first : bool) (N i : Z) : list Z :=
  if i =? N then [1]
  else if (i =? 1) && negb first then [2]
  else [i; i + 1].

Definition chain_adj (first : bool) (N i : Z) : list Z :=
  if i =? 0 then [] else chain_nbrs first N i.

Definition chain_calls (first : bool) (N : Z) : list (Z * Z) :=
  calls_for (chain_nbrs first N) (range1 N).

Definition chain0 (first : bool) (N : Z) : BipartiteGraph :=
  gstate N (chain_adj first N) (fun _ => INF) (fun _ => 0) (fun _ => 0).

Lemma chain_nbrs_range first N u v :
  2 <= N -> 1 <= u <= N -> In v (chain_nbrs first N u) -> 1 <= v <= N.
Proof.
  intros HN Hu. unfold chain_nbrs.
  destruct (Z.eqb_spec u N); [intros [<-|[]]; lia|].
  destruct (Z.eqb_spec u 1), first; simpl; intros H;
    repeat (destruct H as [<-|H]; [lia|]); destruct H.
Qed.

Lemma chain_adj_range first N u v :
  2 <= N -> 0 <= u <= N -> In v (chain_adj first N u) -> 1 <= v <= N.
Proof.
  intros HN Hu. unfold chain_adj. destruct (Z.eqb_spec u 0); [intros []|].
  apply chain_nbrs_range; lia.
Qed.

Lemma chain_built first N :
  2 <= N -> addEdges (construct N N) (chain_calls first N) = chain0 first N.
Proof.
  intros HN. unfold chain_calls. rewrite addEdges_build; [reflexivity|lia|].
  intros u v Hu Hv. eapply chain_nbrs_range; eassumption.
Qed.

Lemma Shape_chain first N D PU PV :
  2 <= N -> (forall v, 0 <= v <= N -> 0 <= PV v <= N) ->
  Shape (gstate N (chain_adj first N) D PU PV).
Proof.
  intros HN HV. apply Shape_gstate; [lia| |exact HV].
  intros u v Hu Hv. eapply chain_adj_range; eassumption.
Qed.

Lemma chain_adj_one first N :
  2 <= N -> chain_adj first N 1 = if first then [1; 2] else [2].
Proof.
  intros HN. unfold chain_adj, chain_nbrs.
  destruct (Z.eqb_spec 1 0); [lia|]. destruct (Z.eqb_spec 1 N); [lia|].
  destruct (Z.eqb_spec 1 1); [|lia]. destruct first; reflexivity.
Qed.

Lemma chain_adj_mid first N i :
  1 <= i < N -> (first = true \/ 2 <= i) ->
  chain_adj first N i = [i; i + 1].
Proof.
  intros Hi Hf. unfold chain_adj, chain_nbrs.
  destruct (Z.eqb_spec i 0); [lia|]. destruct (Z.eqb_spec i N); [lia|].
  destruct (Z.eqb_spec i 1); [|reflexivity].
  destruct first; [reflexivity|]. destruct Hf; [discriminate|lia].
Qed.

Lemma chain_adj_last first N : 1 <= N -> chain_adj first N N = [1].
Proof.
  intros HN. unfold chain_adj, chain_nbrs.
  destruct (Z.eqb_spec N 0); [lia|]. rewrite Z.eqb_refl. reflexivity.
Qed.

(** The layer numbers after the first layering pass. *)
Definition layer1 (x : Z) : Z := if x =? 0 then 1 else 0.

Lemma chain_bfs1 first N fuel :
  2 <= N -> (Z.to_nat N + 3 <= fuel)%nat ->
  bfs_fuel fuel (chain0 first N) =
  Ok (gstate N (chain_adj first N) layer1 (fun _ => 0) (fun _ => 0), true).
Proof.
  intros HN Hfuel. unfold chain0.
  pose proof (chain_adj_one first N HN) as EA1.
  set (A := chain_adj first N) in *. set (Z0 := fun _ : Z => 0).
  set (D1 := upd (seed_fun Z0) 0 (seed_fun Z0 1 + 1)).
  assert (HA : forall u v, 1 <= u <= N -> In v (A u) -> 1 <= v <= N).
  { intros u v Hu Hv. eapply chain_adj_range; [exact HN| |exact Hv]. lia. }
  assert (HD1 : D1 0 <> INF).
  { unfold D1, upd, seed_fun, Z0; simpl. discriminate. }
  assert (Eloop : bfs_loop_log fuel (gstate N A (seed_fun Z0) Z0 Z0)
                    (List.filter (fun u => Z0 u =? 0) (range1 N)) [] =
                  Ok (gstate N A D1 Z0 Z0, [seed_fun Z0 1 + 1])).
  { rewrite filter_all by reflexivity. rewrite range1_cons by lia.
    destruct fuel as [|fuel]; [lia|].
    rewrite loop_expand; [|lia|lia|unfold seed_fun, Z0; simpl; unfold INF; lia].
    assert (Escan : forall q,
      bfs_scan_log 1 (A 1) (gstate N A (seed_fun Z0) Z0 Z0) q [] =
      Ok (gstate N A D1 Z0 Z0, q ++ [0], [seed_fun Z0 1 + 1])).
    { intros q. rewrite EA1. destruct first.
      - rewrite scan_assign; [|lia|lia|unfold Z0; lia|reflexivity|lia].
        change (Z0 1) with 0. fold D1.
        rewrite (idle_scan N ltac:(lia) A D1 Z0 Z0); [reflexivity| |exact HD1|].
        + reflexivity.
        + intros v [<-|[]]. lia.
      - rewrite scan_assign; [|lia|lia|unfold Z0; lia|reflexivity|lia].
        change (Z0 2) with 0. fold D1. reflexivity. }
    rewrite Escan. cbn [rbind fst snd].
    apply (idle_loop N ltac:(lia) A D1 Z0 Z0 HA).
    - reflexivity.
    - exact HD1.
    - intros u Hu. apply in_map_iff in Hu as (k & <- & Hk). apply in_seq in Hk. lia.
    - rewrite length_map, length_seq. lia. }
  assert (HZ0 : forall v, 0 <= v <= N -> 0 <= Z0 v <= N)
    by (intros v Hv; unfold Z0; lia).
  destruct (bfs_gstate fuel N A (fun _ => INF) Z0 Z0 D1 _ ltac:(lia)
              (Shape_chain first N (fun _ => INF) Z0 Z0 HN HZ0) Eloop)
    as [E _].
  rewrite E. f_equal. f_equal.
  apply gstate_ext; try reflexivity; [lia|].
  intros x Hx. unfold D1, upd, seed_fun, layer1, Z0. simpl.
  destruct (x =? 0); reflexivity.
Qed.

(** ** The first phase on the chain *)

Definition shift (first : bool) : Z := if first then 0 else 1.

(** After the left vertices [1..k] were processed, [x] is matched with
    [x + shift]. *)
Definition pu_upto (s k x : Z) : Z :=
  if (1 <=? x) && (x <=? k) then x + s else 0.
Definition pv_upto (s k y : Z) : Z :=
  if (1 + s <=? y) && (y <=? k + s) then y - s else 0.

Definition chain1 (first : bool) (N k : Z) : BipartiteGraph :=
  gstate N (chain_adj first N) layer1
         (pu_upto (shift first) k) (pv_upto (shift first) k).

Ltac zcase :=
  repeat match goal with
  | |- context [Z.eqb ?a ?b] => destruct (Z.eqb_spec a b)
  | |- context [Z.leb ?a ?b] => destruct (Z.leb_spec a b)
  | |- context [Z.ltb ?a ?b] => destruct (Z.ltb_spec a b)
  end; cbn [andb orb negb]; try reflexivity; try lia.

Lemma chain1_zero first N :
  2 <= N ->
  gstate N (chain_adj first N) layer1 (fun _ => 0) (fun _ => 0) = chain1 first N 0.
Proof.
  intros HN. unfold chain1. apply gstate_ext; try reflexivity; [lia| |].
  - intros x Hx. unfold pu_upto. zcase.
  - intros x Hx. unfold pv_upto, shift. destruct first; zcase.
Qed.

Lemma chain1_next first N u :
  2 <= N -> 1 <= u <= N - 1 ->
  gstate N (chain_adj first N) layer1
    (upd (pu_upto (shift first) (u - 1)) u (u + shift first))
    (upd (pv_upto (shift first) (u - 1)) (u + shift first) u) =
  chain1 first N u.
Proof.
  intros HN Hu. unfold chain1. apply gstate_ext; try reflexivity; [lia| |].
  - intros x Hx. unfold upd, pu_upto. zcase.
  - intros x Hx. unfold upd, pv_upto, shift. destruct first; zcase.
Qed.

Lemma chain_dfs_mid first N fuel u :
  2 <= N -> 1 <= u <= N - 1 ->
  dfs_fuel (S (S fuel)) (chain1 first N (u - 1)) u = Ok (chain1 first N u, true).
Proof.
  intros HN Hu. rewrite <- (chain1_next first N u HN Hu). unfold chain1.
  set (s := shift first). set (A := chain_adj first N).
  set (PU := pu_upto s (u - 1)). set (PV := pv_upto s (u - 1)).
  rewrite dfs_step by lia.
  assert (Hrec : dfs_fuel (S fuel) (gstate N A layer1 PU PV) 0 =
                 Ok (gstate N A layer1 PU PV, true)) by reflexivity.
  assert (Hlay : layer1 0 = layer1 u + 1).
  { unfold layer1. zcase. }
  assert (Hfree : PV (u + s) = 0).
  { unfold PV, pv_upto. zcase. }
  destruct first; unfold s, shift in *.
  - unfold A. rewrite chain_adj_mid by (lia || (left; reflexivity)). fold A.
    rewrite Z.add_0_r in *.
    apply dfsn_free; try lia; assumption.
  - destruct (Z.eq_dec u 1) as [->|Hu1].
    + unfold A. rewrite chain_adj_one by lia. fold A.
      apply dfsn_free; try lia; assumption.
    + unfold A. rewrite chain_adj_mid by lia. fold A.
      assert (Hpv : PV u = u - 1) by (unfold PV, pv_upto; zcase).
      rewrite dfsn_skip; [|lia|lia| |lia|].
      * apply dfsn_free; try lia; assumption.
      * rewrite Hpv. lia.
      * rewrite Hpv. unfold layer1. zcase.
Qed.

Lemma chain_augment_prefix first N fuel n : forall k m,
  2 <= N -> 0 <= k -> k + Z.of_nat n <= N - 1 ->
  augment (S (S fuel)) (map Z.of_nat (seq (S (Z.to_nat k)) n))
          (chain1 first N k) m =
  Ok (chain1 first N (k + Z.of_nat n), m + Z.of_nat n).
Proof.
  induction n as [|n IH]; intros k m HN Hk Hn.
  - cbn [seq map augment]. rewrite !Z.add_0_r. reflexivity.
  - cbn [seq map].
    replace (Z.of_nat (S (Z.to_nat k))) with (k + 1) by lia.
    pose proof (chain_dfs_mid first N fuel (k + 1) HN ltac:(lia)) as Edfs.
    replace (k + 1 - 1) with k in Edfs by lia.
    unfold chain1 at 1.
    erewrite augment_free; [|lia|lia| |exact Edfs].
    + replace (S (S (Z.to_nat k))) with (S (Z.to_nat (k + 1))) by lia.
      rewrite IH by lia. f_equal. f_equal; [f_equal|]; lia.
    + unfold pu_upto. zcase.
Qed.

(** The state after the first phase, with the edge [(1, 1)]: the left
    vertices [1..N-1] are matched straight across, and [N] is free and
    dead. *)
Definition chain_with (N : Z) : BipartiteGraph :=
  gstate N (chain_adj true N) (upd layer1 N INF)
         (pu_upto 0 (N - 1)) (pv_upto 0 (N - 1)).

(** The state after the first phase, without the edge [(1, 1)]: every left
    vertex is matched. *)
Definition chain_without (N : Z) : BipartiteGraph :=
  gstate N (chain_adj false N) layer1
         (upd (pu_upto 1 (N - 1)) N 1) (upd (pv_upto 1 (N - 1)) 1 N).

Lemma chain_dfs_last_with N fuel :
  2 <= N ->
  dfs_fuel (S (S fuel)) (chain1 true N (N - 1)) N = Ok (chain_with N, false).
Proof.
  intros HN. unfold chain1, chain_with, shift.
  rewrite dfs_step by lia. rewrite chain_adj_last by lia.
  assert (Hpv : pv_upto 0 (N - 1) 1 = 1) by (unfold pv_upto; zcase).
  rewrite dfsn_skip; [|lia|lia| |lia|].
  - apply dfsn_end; lia.
  - rewrite Hpv. lia.
  - rewrite Hpv. unfold layer1. zcase.
Qed.

Lemma chain_dfs_last_without N fuel :
  2 <= N ->
  dfs_fuel (S (S fuel)) (chain1 false N (N - 1)) N = Ok (chain_without N, true).
Proof.
  intros HN. unfold chain1, chain_without, shift.
  rewrite dfs_step by lia. rewrite chain_adj_last by lia.
  apply dfsn_free; try lia.
  - unfold pv_upto. zcase.
  - unfold layer1. zcase.
  - reflexivity.
Qed.

Lemma chain_augment first N fuel :
  2 <= N ->
  augment (S (S fuel)) (range1 N)
    (gstate N (chain_adj first N) layer1 (fun _ => 0) (fun _ => 0)) 0 =
  if first then Ok (chain_with N, N - 1) else Ok (chain_without N, N).
Proof.
  intros HN. rewrite chain1_zero by exact HN.
  rewrite range1_snoc by lia. rewrite augment_app.
  unfold range1. change (seq 1 (Z.to_nat (N - 1))) with (seq (S (Z.to_nat 0)) (Z.to_nat (N - 1))).
  rewrite chain_augment_prefix by lia. cbn [rbind].
  replace (0 + Z.of_nat (Z.to_nat (N - 1))) with (N - 1) by lia.
  destruct first.
  - unfold chain1 at 1.
    erewrite augment_free;
      [|lia|lia| |apply (chain_dfs_last_with N fuel HN)].
    + reflexivity.
    + unfold pu_upto, shift. zcase.
  - unfold chain1 at 1.
    erewrite augment_free;
      [|lia|lia| |apply (chain_dfs_last_without N fuel HN)].
    + cbn [augment]. f_equal. f_equal. lia.
    + unfold pu_upto, shift. zcase.
Qed.

(** ** The second layering pass on the chain *)

Lemma bfs_loop_log_nil fuel g log : bfs_loop_log (S fuel) g [] log = Ok (g, log).
Proof. reflexivity. Qed.

Lemma chain_bfs2_without N fuel :
  2 <= N -> (1 <= fuel)%nat ->
  exists D2,
    bfs_fuel fuel (chain_without N) =
    Ok (gstate N (chain_adj false N) D2
               (upd (pu_upto 1 (N - 1)) N 1) (upd (pv_upto 1 (N - 1)) 1 N), false).
Proof.
  intros HN Hfuel. unfold chain_without.
  set (PU := upd (pu_upto 1 (N - 1)) N 1). set (PV := upd (pv_upto 1 (N - 1)) 1 N).
  assert (HPU : forall x, 1 <= x <= N -> PU x <> 0).
  { intros x Hx. unfold PU, upd, pu_upto. zcase. }
  assert (HPV : forall v, 0 <= v <= N -> 0 <= PV v <= N).
  { intros v Hv. unfold PV, upd, pv_upto. zcase. }
  exists (seed_fun PU).
  destruct fuel as [|fuel]; [lia|].
  destruct (bfs_gstate (S fuel) N (chain_adj false N) layer1 PU PV (seed_fun PU) []
              ltac:(lia) (Shape_chain false N layer1 PU PV HN HPV)) as [E _].
  - rewrite filter_none; [reflexivity|].
    intros x Hx. apply In_range1 in Hx. specialize (HPU x Hx).
    destruct (Z.eqb_spec (PU x) 0); [contradiction|reflexivity].
  - rewrite E. reflexivity.
Qed.

(** The layer numbers while the second pass walks down the chain: the
    vertices [1..k] have their layer. *)
Definition walk (N k x : Z) : Z :=
  if x =? 0 then INF else if x =? N then 0 else if x <=? k then x else INF.

Section Walk.
Variable N : Z.
Hypothesis HN : 2 <= N.
Hypothesis HINF : N <= INF.

Let A := chain_adj true N.
Let PU := pu_upto 0 (N - 1).
Let PV := pv_upto 0 (N - 1).

Lemma walk_pv x : 1 <= x <= N - 1 -> PV x = x.
Proof using HN. intros Hx. unfold PV, pv_upto. zcase. Qed.

Lemma walk_pv_last : PV N = 0.
Proof using HN. unfold PV, pv_upto. zcase. Qed.

Lemma chain_walk n : forall k fuel log,
  1 <= k -> k + Z.of_nat n = N - 1 -> (n + 3 <= fuel)%nat ->
  exists log',
    bfs_loop_log fuel (gstate N A (walk N k) PU PV) [k] log =
    Ok (gstate N A (upd (walk N (N - 1)) 0 N) PU PV, log ++ log' ++ [N]).
Proof using HN HINF.
  induction n as [|n IH]; intros k fuel log Hk Hn Hfuel.
  - destruct fuel as [|[|[|fuel]]]; try lia.
    assert (Ek : k = N - 1) by lia.
    assert (Hkk : walk N k k = k) by (unfold walk; zcase).
    assert (H0 : walk N k 0 = INF) by reflexivity.
    rewrite loop_expand; [|lia|lia|rewrite Hkk, H0; lia].
    unfold A at 1. rewrite chain_adj_mid by (lia || (left; reflexivity)). fold A.
    rewrite scan_skip; [|lia|lia|rewrite walk_pv by lia; lia
                        |rewrite walk_pv by lia; rewrite Hkk; lia].
    replace (k + 1) with N by lia.
    rewrite scan_assign; [|lia|lia|rewrite walk_pv_last; lia
                          |rewrite walk_pv_last; exact H0|lia].
    rewrite walk_pv_last, Hkk.
    cbn [bfs_scan_log rbind fst snd app].
    rewrite loop_skip; [|lia|lia|unfold upd; rewrite Z.eqb_refl; lia].
    rewrite bfs_loop_log_nil.
    exists []. cbn [app]. f_equal. f_equal; [|f_equal; f_equal; lia].
    apply gstate_ext; try reflexivity; [lia|].
    intros x Hx. unfold upd, walk. subst k. zcase.
  - destruct fuel as [|fuel]; [lia|].
    assert (Hkk : walk N k k = k) by (unfold walk; zcase).
    assert (H0 : walk N k 0 = INF) by reflexivity.
    assert (Hnext : walk N k (k + 1) = INF) by (unfold walk; zcase).
    rewrite loop_expand; [|lia|lia|rewrite Hkk, H0; lia].
    unfold A at 1. rewrite chain_adj_mid by (lia || (left; reflexivity)). fold A.
    rewrite scan_skip; [|lia|lia|rewrite walk_pv by lia; lia
                        |rewrite walk_pv by lia; rewrite Hkk; lia].
    rewrite scan_assign; [|lia|lia|rewrite walk_pv by lia; lia
                          |rewrite walk_pv by lia; exact Hnext|lia].
    rewrite walk_pv by lia. rewrite Hkk.
    cbn [bfs_scan_log rbind fst snd app].
    replace (gstate N A (upd (walk N k) (k + 1) (k + 1)) PU PV)
      with (gstate N A (walk N (k + 1)) PU PV).
    + destruct (IH (k + 1) fuel (log ++ [k + 1])) as [log' E]; try lia.
      exists ((k + 1) :: log'). rewrite E. rewrite <- List.app_assoc. reflexivity.
    + apply gstate_ext; try reflexivity; [lia|].
      intros x Hx. unfold upd, walk. zcase.
Qed.

Lemma chain_bfs2_with fuel :
  (Z.to_nat N + 3 <= fuel)%nat ->
  exists log',
    bfs_fuel fuel (chain_with N) =
      Ok (gstate N A (upd (walk N (N - 1)) 0 N) PU PV, negb (N =? INF)) /\
    bfs_writes fuel (chain_with N) = Ok (1 :: log' ++ [N]).
Proof using HN HINF.
  intros Hfuel. unfold chain_with. fold A PU PV.
  assert (HPV : forall v, 0 <= v <= N -> 0 <= PV v <= N).
  { intros v Hv. unfold PV, pv_upto. zcase. }
  assert (Hq : List.filter (fun u => PU u =? 0) (range1 N) = [N]).
  { rewrite range1_snoc by lia. rewrite List.filter_app.
    rewrite filter_none.
    - cbn [List.filter app]. unfold PU, pu_upto.
      replace ((1 <=? N) && (N <=? N - 1)) with false by zcase. reflexivity.
    - intros x Hx. apply In_range1 in Hx. unfold PU, pu_upto.
      replace ((1 <=? x) && (x <=? N - 1)) with true by zcase. zcase. }
  assert (HsN : seed_fun PU N = 0).
  { unfold seed_fun, PU, pu_upto.
    replace ((1 <=? N) && (N <=? N - 1)) with false by zcase. zcase. }
  assert (Hs1 : seed_fun PU 1 = INF).
  { unfold seed_fun, PU, pu_upto.
    replace ((1 <=? 1) && (1 <=? N - 1)) with true by zcase. reflexivity. }
  assert (Hs0 : seed_fun PU 0 = INF) by reflexivity.
  destruct fuel as [|fuel]; [lia|].
  destruct (chain_walk (Z.to_nat (N - 2)) 1 fuel [seed_fun PU N + 1])
    as [log' Ewalk]; try lia.
  assert (Eloop : bfs_loop_log (S fuel) (gstate N A (seed_fun PU) PU PV)
                    (List.filter (fun u => PU u =? 0) (range1 N)) [] =
                  Ok (gstate N A (upd (walk N (N - 1)) 0 N) PU PV,
                      [seed_fun PU N + 1] ++ log' ++ [N])).
  { rewrite Hq.
    rewrite loop_expand; [|lia|lia|rewrite HsN, Hs0; unfold INF; lia].
    unfold A at 1. rewrite chain_adj_last by lia. fold A.
    rewrite scan_assign; [|lia|lia|rewrite walk_pv by lia; lia
                          |rewrite walk_pv by lia; exact Hs1|lia].
    rewrite walk_pv by lia.
    cbn [bfs_scan_log rbind fst snd app].
    replace (gstate N A (upd (seed_fun PU) 1 (seed_fun PU N + 1)) PU PV)
      with (gstate N A (walk N 1) PU PV); [exact Ewalk|].
    apply gstate_ext; try reflexivity; [lia|].
    intros x Hx. unfold upd. rewrite HsN.
    destruct (Z.eqb_spec x 1) as [->|Hx1]; [unfold walk; zcase|].
    unfold walk, seed_fun, PU, pu_upto.
    destruct (Z.eqb_spec x 0); [reflexivity|].
    destruct (Z.eqb_spec x N) as [->|HxN].
    - replace ((1 <=? N) && (N <=? N - 1)) with false by zcase. reflexivity.
    - replace ((1 <=? x) && (x <=? N - 1)) with true by zcase.
      destruct (Z.leb_spec x 1); [lia|]. zcase. }
  destruct (bfs_gstate (S fuel) N A (upd layer1 N INF) PU PV
              (upd (walk N (N - 1)) 0 N) _ ltac:(lia)
              (Shape_chain true N (upd layer1 N INF) PU PV HN HPV) Eloop)
    as [E1 E2].
  exists log'. split.
  - rewrite E1. unfold upd. rewrite Z.eqb_refl. reflexivity.
  - rewrite E2, HsN. reflexivity.
Qed.
End Walk.

(** ** The whole run on the chain *)

Lemma length_tab_nat {A} (f : Z -> A) n : length (tab f n) = S (Z.to_nat n).
Proof. unfold tab, range1. cbn [map length]. rewrite !length_map, length_seq. reflexivity. Qed.

Lemma budgets_gstate N A D PU PV :
  (Z.to_nat N + 3 <= bfs_budget (gstate N A D PU PV))%nat /\
  dfs_budget (gstate N A D PU PV) = S (S (Z.to_nat N)) /\
  phase_budget (gstate N A D PU PV) = S (S (Z.to_nat N)).
Proof.
  unfold bfs_budget, dfs_budget, phase_budget, gstate; cbn [dist pairU].
  rewrite !length_tab_nat. split; [nia|]. split; reflexivity.
Qed.

Lemma phases_two p b d g g1 g2 g3 m2 :
  bfs_fuel b g = Ok (g1, true) ->
  augment d (range1 (nLeft g1)) g1 0 = Ok (g2, m2) ->
  bfs_fuel b g2 = Ok (g3, false) ->
  phases (S (S p)) b d g 0 = Ok (g3, m2).
Proof.
  intros E1 E2 E3. cbn [phases]. rewrite E1. cbn [rbind].
  rewrite E2. cbn [rbind]. rewrite E3. reflexivity.
Qed.

(** Without the edge [(1, 1)] the first phase matches every left vertex. *)
Lemma chain_maxMatching_without N :
  2 <= N -> exists g', maxMatching (chain0 false N) = Ok (g', N).
Proof.
  intros HN.
  destruct (budgets_gstate N (chain_adj false N) (fun _ => INF) (fun _ => 0) (fun _ => 0))
    as (Hb & Ed & Ep).
  fold (chain0 false N) in Hb, Ed, Ep.
  destruct (chain_bfs2_without N (bfs_budget (chain0 false N)) HN ltac:(lia)) as [D2 E3].
  eexists. unfold maxMatching, maxMatching_fuel. rewrite Ep, Ed.
  eapply phases_two.
  - apply chain_bfs1; [exact HN|exact Hb].
  - apply (chain_augment false N (Z.to_nat N) HN).
  - exact E3.
Qed.

(** With the edge [(1, 1)] and [INF] left vertices the second layering
    pass reaches the sentinel vertex in layer [INF], and the loop stops one
    pair short. *)
Lemma chain_maxMatching_with N :
  2 <= N -> N = INF -> exists g', maxMatching (chain0 true N) = Ok (g', N - 1).
Proof.
  intros HN EN.
  destruct (budgets_gstate N (chain_adj true N) (fun _ => INF) (fun _ => 0) (fun _ => 0))
    as (Hb & Ed & Ep).
  fold (chain0 true N) in Hb, Ed, Ep.
  destruct (chain_bfs2_with N HN ltac:(lia) (bfs_budget (chain0 true N)) Hb)
    as (log' & E3 & _).
  replace (negb (N =? INF)) with false in E3
    by (symmetry; apply negb_false_iff, Z.eqb_eq, EN).
  eexists. unfold maxMatching, maxMatching_fuel. rewrite Ep, Ed.
  eapply phases_two.
  - apply chain_bfs1; [exact HN|exact Hb].
  - apply (chain_augment true N (Z.to_nat N) HN).
  - exact E3.
Qed.

(** The layering pass of the second phase writes the layer number [N]. *)
Lemma chain_layer_N N :
  2 <= N -> N <= INF ->
  phase_state (bfs_budget (chain0 true N)) (dfs_budget (chain0 true N))
              (chain0 true N) (chain_with N) (N - 1) /\
  exists log,
    bfs_writes (bfs_budget (chain0 true N)) (chain_with N) = Ok log /\ In N log.
Proof.
  intros HN HI.
  destruct (budgets_gstate N (chain_adj true N) (fun _ => INF) (fun _ => 0) (fun _ => 0))
    as (Hb & Ed & Ep).
  fold (chain0 true N) in Hb, Ed, Ep.
  destruct (chain_bfs2_with N HN HI (bfs_budget (chain0 true N)) Hb)
    as (log' & _ & Ew).
  split.
  - eapply ps_phase; [apply ps_start| |].
    + apply chain_bfs1; [exact HN|exact Hb].
    + rewrite Ed. apply (chain_augment true N (Z.to_nat N) HN).
  - exists (1 :: log' ++ [N]). split; [exact Ew|].
    right. apply in_or_app. right. left. reflexivity.
Qed.

(** ** The edges of the chain and a perfect matching *)

Lemma In_calls_for A us u v :
  In (u, v) (calls_for A us) <-> In u us /\ In v (A u).
Proof.
  unfold calls_for. rewrite List.in_concat. split.
  - intros (l & Hl & Hin). apply in_map_iff in Hl as (u' & <- & Hu').
    apply in_map_iff in Hin as (v' & E & Hv'). inversion E; subst. split; assumption.
  - intros [Hu Hv]. exists (map (fun v => (u, v)) (A u)). split.
    + apply in_map_iff. exists u. split; [reflexivity|exact Hu].
    + apply in_map_iff. exists v. split; [reflexivity|exact Hv].
Qed.

Lemma In_chain_edges first N u v :
  2 <= N ->
  In (u, v) (accepted N N (chain_calls first N)) <->
  1 <= u <= N /\ In v (chain_nbrs first N u).
Proof.
  intros HN. unfold accepted, chain_calls.
  rewrite List.filter_In, In_calls_for, In_range1. split.
  - intros [H _]. exact H.
  - intros [Hu Hv]. split; [split; assumption|].
    apply in_range_spec. split; [exact Hu|].
    eapply chain_nbrs_range; eassumption.
Qed.

Lemma chain_edges_differ N :
  2 <= N ->
  forall e, In e (accepted N N (chain_calls true N)) <->
            In e (accepted N N (chain_calls false N)) \/ e = (1, 1).
Proof.
  intros HN [u v]. rewrite !In_chain_edges by exact HN.
  unfold chain_nbrs.
  destruct (Z.eqb_spec u N) as [->|HuN].
  - split; [intros H; left; exact H|].
    intros [H|E]; [exact H|]. inversion E; lia.
  - destruct (Z.eqb_spec u 1) as [->|Hu1]; cbn [andb negb].
    + split.
      * intros [Hu [<-|[<-|[]]]]; [right; reflexivity|].
        left. split; [exact Hu|left; reflexivity].
      * intros [[Hu [<-|[]]]|E].
        -- split; [exact Hu|right; left; reflexivity].
        -- inversion E; subst. split; [lia|left; reflexivity].
    + split; [intros H; left; exact H|].
      intros [H|E]; [exact H|]. inversion E; lia.
Qed.

(** Every left vertex takes its second neighbour. *)
Definition chain_next (N i : Z) : Z := if i =? N then 1 else i + 1.

Definition chain_perfect (N : Z) : list (Z * Z) :=
  map (fun i => (i, chain_next N i)) (range1 N).

Lemma chain_perfect_matching N :
  2 <= N ->
  is_matching (fun u v => In (u, v) (accepted N N (chain_calls true N)))
              (chain_perfect N) /\
  zlen (chain_perfect N) = N.
Proof.
  intros HN. unfold chain_perfect. split; [split; [|split]|].
  - rewrite map_map. cbn [fst]. rewrite map_id. apply NoDup_range1.
  - rewrite map_map. cbn [snd]. apply Injective_map_NoDup_in; [|apply NoDup_range1].
    intros x y Hx Hy. apply In_range1 in Hx, Hy. unfold chain_next.
    destruct (Z.eqb_spec x N), (Z.eqb_spec y N); lia.
  - intros u v Hin. apply in_map_iff in Hin as (i & E & Hi).
    inversion E; subst. apply In_range1 in Hi.
    apply In_chain_edges; [exact HN|]. split; [exact Hi|].
    unfold chain_next, chain_nbrs. cbn [negb andb]. rewrite andb_false_r.
    destruct (Z.eqb_spec u N); [left; reflexivity|right; left; reflexivity].
  - rewrite length_map. apply length_range1. lia.
Qed.

Lemma INF_ge_2 : 2 <= INF.
Proof. unfold INF. lia. Qed.

(** * More about the engine and the program around it *)

(** ** The constructor *)

Lemma vget_repeat {A} (a : A) (n : nat) (i : Z) :
  vget (repeat a n) i =
  if (0 <=? i) && (i <? Z.of_nat n) then Ok a else OutOfBounds.
Proof.
  destruct (Z.leb_spec 0 i); destruct (Z.ltb_spec i (Z.of_nat n)); cbn [andb].
  - rewrite (vget_ok a) by (rewrite repeat_length; lia).
    rewrite vat_repeat by lia. reflexivity.
  - destruct (vget (repeat a n) i) as [b| |] eqn:E; [|reflexivity|].
    + apply (vget_inv a) in E. rewrite repeat_length in E. lia.
    + exfalso. exact (vget_not_fuel _ _ E).
  - unfold vget. destruct (Z.ltb_spec i 0); [reflexivity|lia].
  - unfold vget. destruct (Z.ltb_spec i 0); [reflexivity|lia].
Qed.

(** ** [addEdge] *)

Lemma addEdge_sizes g u v :
  nLeft (fst (addEdge g u v)) = nLeft g /\ nRight (fst (addEdge g u v)) = nRight g.
Proof. unfold addEdge. destruct (_ || _); split; reflexivity. Qed.

Lemma Shape_addEdge g u v : Shape g -> Shape (fst (addEdge g u v)).
Proof.
  intros Hs. destruct (in_range (nLeft g) (nRight g) (u, v)) eqn:Hr.
  - pose proof (fun x => addEdge_adjA g u v x Hs Hr) as HA.
    rewrite (addEdge_accepted g u v Hr) in *. cbn [fst] in *.
    apply in_range_spec in Hr as [Hu Hv].
    constructor; cbn [set_adj nLeft nRight adj dist pairU pairV].
    + exact (sh_nl _ Hs).
    + exact (sh_nr _ Hs).
    + rewrite length_alter_list. exact (sh_adj _ Hs).
    + exact (sh_dist _ Hs).
    + exact (sh_pairU _ Hs).
    + exact (sh_pairV _ Hs).
    + intros x y Hx Hin. rewrite HA in Hin by lia.
      destruct (Z.eqb_spec x u) as [->|].
      * apply in_app_or in Hin as [Hin|[<-|[]]];
          [exact (sh_edges _ Hs u y Hx Hin)|lia].
      * exact (sh_edges _ Hs x y Hx Hin).
    + exact (sh_pv _ Hs).
  - rewrite (addEdge_rejected g u v Hr). exact Hs.
Qed.

(** The calls of [addEdge] that reach [adj[u]]. *)
Definition calls_at (u : Z) (es : list (Z * Z)) : list Z :=
  map snd (List.filter (fun e => fst e =? u) es).

Lemma addEdges_adjA es : forall g u,
  Shape g -> 0 <= u ->
  adjA (addEdges g es) u =
  adjA g u ++ calls_at u (accepted (nLeft g) (nRight g) es).
Proof.
  induction es as [|[a b] es IH]; intros g u Hs Hu; cbn [addEdges].
  - unfold calls_at, accepted. cbn. rewrite app_nil_r. reflexivity.
  -     destruct (in_range (nLeft g) (nRight g) (a, b)) eqn:Hr.
    + pose proof (Shape_addEdge g a b Hs) as Hs'.
      destruct (addEdge_sizes g a b) as [En Er].
      pose proof (addEdge_adjA g a b u Hs Hr Hu) as HA.
      rewrite (addEdge_accepted g a b Hr) in *. cbn [fst] in *.
      rewrite IH by assumption. rewrite HA, En, Er.
      unfold calls_at, accepted. cbn [List.filter]. rewrite Hr.
      cbn [List.filter fst]. rewrite (Z.eqb_sym a u).
      destruct (u =? a); cbn [map snd]; [rewrite <- List.app_assoc|]; reflexivity.
    + rewrite (addEdge_rejected g a b Hr). cbn [fst].
      rewrite IH by assumption.
      unfold calls_at, accepted. cbn [List.filter]. rewrite Hr. reflexivity.
Qed.

(** ** [bfs] *)

Lemma edge_same g g' u v : same_graph g g' -> (edge g' u v <-> edge g u v).
Proof.
  intros (En & _ & Ea). unfold edge, adjA. rewrite En, Ea. reflexivity.
Qed.

(** When [bfs] has answered [false], the state is one in which
    [maxMatching] stops. *)
Lemma bfs_false_Final g g' :
  Valid g -> bfs_fuel (bfs_budget g) g = Ok (g', false) ->
  Valid g' /\ same_graph g g' /\ pairU g' = pairU g /\ Final (bfs_budget g) g'.
Proof.
  intros Hv E.
  destruct (bfs_fuel_spec (bfs_budget g) g Hv (Nat.le_refl _))
    as (g1 & more & log & E1 & _ & Hpost).
  rewrite E in E1. injection E1 as <- <-.
  pose proof (bp_valid _ _ _ _ Hpost) as Hv'.
  pose proof (bp_same _ _ _ _ Hpost) as G.
  pose proof (va_shape _ Hv) as Hs. pose proof (va_shape _ Hv') as Hs'.
  destruct (budgets_same g g' Hs Hs' G) as (B1 & _ & _).
  split; [exact Hv'|]. split; [exact G|]. split; [exact (bp_pu _ _ _ _ Hpost)|].
  assert (Eagain : bfs_fuel (bfs_budget g) g' = Ok (g', false)).
  { apply (bfs_fuel_again (bfs_budget g) g g' false Hs Hs' G
             (bp_pu _ _ _ _ Hpost) (bp_pv _ _ _ _ Hpost) E). }
  destruct (bfs_fuel_spec (bfs_budget g) g' Hv' ltac:(lia))
    as (g2 & more' & log' & E2 & _ & Hpost').
  rewrite Eagain in E2. injection E2 as <- <-.
  exists log'. split; [exact Eagain|exact Hpost'].
Qed.

(** ** [dfs] *)

Section DfsFalse.
Variable rec : BipartiteGraph -> Z -> res (BipartiteGraph * bool).

(** The only way out of the loop of [dfs] with [false] is through
    [dist[u] = INF]. *)
Lemma dfs_neighbours_false u vs : forall g g',
  dfs_neighbours rec u vs g = Ok (g', false) -> distA g' u = INF.
Proof using Type.
  induction vs as [|v vs IH]; intros g g' E; cbn [dfs_neighbours] in E.
  - destruct (vset (dist g) u INF) as [d| |] eqn:Ev; cbn [rbind] in E;
      try discriminate.
    injection E as <-. apply vset_inv in Ev as [Hi ->].
    unfold distA; cbn [set_dist dist]. apply vat_insert_eq. exact Hi.
  - destruct (vget (pairV g) v) as [pv| |]; cbn [rbind] in E; try discriminate.
    destruct (vget (dist g) pv) as [dpv| |]; cbn [rbind] in E; try discriminate.
    destruct (vget (dist g) u) as [du| |]; cbn [rbind] in E; try discriminate.
    destruct (dpv =? du + 1); [|exact (IH _ _ E)].
    destruct (rec g pv) as [[g1 found]| |]; cbn [rbind] in E; try discriminate.
    destruct found; [|exact (IH _ _ E)].
    destruct (vset (pairU g1) u v) as [pu'| |]; cbn [rbind] in E; try discriminate.
    destruct (vset (pairV g1) v u) as [pv'| |]; cbn [rbind] in E; discriminate.
Qed.
End DfsFalse.

Lemma dfs_fuel_false fuel g u g' :
  dfs_fuel fuel g u = Ok (g', false) -> distA g' u = INF.
Proof.
  destruct fuel as [|fuel]; cbn [dfs_fuel]; [discriminate|].
  destruct (u =? 0); [discriminate|].
  destruct (vget (adj g) u) as [vs| |]; cbn [rbind]; try discriminate.
  apply dfs_neighbours_false.
Qed.

(** ** [maxMatching] *)

(** [Stays g g']: every entry of [pairU] and [pairV] that was not the
    sentinel [0] in [g] is not the sentinel in [g']. *)
Definition Stays (g g' : BipartiteGraph) : Prop :=
  (forall x, 0 <= x -> pairUA g x <> 0 -> pairUA g' x <> 0) /\
  (forall y, 0 <= y -> pairVA g y <> 0 -> pairVA g' y <> 0).

Lemma Stays_refl g : Stays g g.
Proof. split; intros; assumption. Qed.

Lemma Stays_trans g1 g2 g3 : Stays g1 g2 -> Stays g2 g3 -> Stays g1 g3.
Proof. intros [A1 B1] [A2 B2]. split; intros; auto. Qed.

Lemma Stays_pairs g g' : pairU g' = pairU g -> pairV g' = pairV g -> Stays g g'.
Proof. intros EU EV. unfold Stays, pairUA, pairVA. rewrite EU, EV. split; auto. Qed.

Definition keeps_pairs {B} (g : BipartiteGraph) (r : BipartiteGraph * B) : Prop :=
  keeps g r /\ Stays g (fst r).

Lemma keeps_pairs_trans {B C} g g1 (r : BipartiteGraph * B) (b : C) :
  keeps_pairs g (g1, b) -> keeps_pairs g1 r -> keeps_pairs g r.
Proof.
  intros [K1 S1] [K2 S2]. split.
  - eapply keeps_trans; eassumption.
  - eapply Stays_trans; eassumption.
Qed.

Section DfsStays.
Variable rec : BipartiteGraph -> Z -> res (BipartiteGraph * bool).
Hypothesis rec_stays : forall g u,
  Shape g -> in_left g u -> no_oob (keeps_pairs g) (rec g u).

Lemma dfs_neighbours_stays u vs : forall g,
  Shape g -> 1 <= u <= nLeft g ->
  (forall v, In v vs -> 1 <= v <= nRight g) ->
  no_oob (keeps_pairs g) (dfs_neighbours rec u vs g).
Proof using rec_stays.
  induction vs as [|v vs IH]; intros g Hs Hu Hvs; cbn [dfs_neighbours].
  - pose proof (sh_dist _ Hs) as Hd. vset_step.
    split; [split; cbn [fst]|cbn [fst]].
    + apply Shape_dist_insert; exact Hs.
    + apply same_graph_set_dist.
    + apply Stays_pairs; reflexivity.
  - assert (Hv : 1 <= v <= nRight g) by (apply Hvs; left; reflexivity).
    pose proof (sh_pairV _ Hs) as Hp. pose proof (sh_dist _ Hs) as Hd.
    assert (Hpv : 0 <= pairVA g v <= nLeft g) by (apply sh_pv; [exact Hs|lia]).
    unfold pairVA in Hpv.
    vget_step 0. vget_step 0. vget_step 0.
    destruct (_ =? _).
    + eapply no_oob_bind; [apply rec_stays; [exact Hs|exact Hpv]|].
      intros [g1 found] [[H1 H2] H3]; cbn [fst] in *.
      pose proof H2 as (En & Er & Ea).
      destruct found.
      * pose proof (sh_pairU _ H1) as Hp1. pose proof (sh_pairV _ H1) as Hp2.
        vset_step. cbn [set_pairU pairV]. vset_step.
        fold (rewire g1 u v).
        split; [split; cbn [fst]|cbn [fst]].
        -- apply Shape_rewire; [exact H1|lia|lia].
        -- repeat split; assumption.
        -- eapply Stays_trans; [exact H3|]. split.
           ++ intros x Hx Hne. rewrite rewire_pairUA by (assumption || lia).
              destruct (x =? u); [lia|exact Hne].
           ++ intros y Hy Hne. rewrite rewire_pairVA by (assumption || lia).
              destruct (y =? v); [lia|exact Hne].
      * eapply no_oob_weaken.
        -- apply IH; [exact H1|lia|].
           intros w Hw. rewrite Er. apply Hvs; right; exact Hw.
        -- intros r Hr. eapply keeps_pairs_trans with (b := tt); [|exact Hr].
           split; [split; cbn [fst]; assumption|exact H3].
    + apply IH; [exact Hs|exact Hu|]. intros w Hw. apply Hvs; right; exact Hw.
Qed.
End DfsStays.

Lemma dfs_fuel_stays fuel : forall g u,
  Shape g -> in_left g u -> no_oob (keeps_pairs g) (dfs_fuel fuel g u).
Proof.
  induction fuel as [|fuel IH]; intros g u Hs Hu; cbn [dfs_fuel]; [exact I|].
  destruct (Z.eqb_spec u 0) as [->|Hne].
  - split; [split; cbn [fst]; [exact Hs|apply same_graph_refl]|apply Stays_refl].
  - unfold in_left in Hu. pose proof (sh_adj _ Hs) as Ha.
    vget_step (@nil Z).
    apply dfs_neighbours_stays; [exact IH|exact Hs|lia|].
    intros v Hv. eapply sh_edges; [exact Hs|exact Hu|exact Hv].
Qed.

Lemma augment_stays dfuel us : forall g matching,
  Shape g -> (forall u, In u us -> 1 <= u <= nLeft g) ->
  no_oob (keeps_pairs g) (augment dfuel us g matching).
Proof.
  induction us as [|u us IH]; intros g m Hs Hus; cbn [augment].
  - split; [split; cbn [fst]; [exact Hs|apply same_graph_refl]|apply Stays_refl].
  - assert (Hu : 1 <= u <= nLeft g) by (apply Hus; left; reflexivity).
    pose proof (sh_pairU _ Hs) as Hp.
    vget_step 0.
    destruct (_ =? 0).
    + eapply no_oob_bind; [apply dfs_fuel_stays; [exact Hs|unfold in_left; lia]|].
      intros [g1 found] H1.
      assert (Hus' : forall w, In w us -> 1 <= w <= nLeft g1).
      { intros w Hw. destruct H1 as [[_ (En & _)] _]; cbn [fst] in En. rewrite En.
        apply Hus; right; exact Hw. }
      destruct found; (eapply no_oob_weaken;
        [apply IH; [exact (proj1 (proj1 H1))|exact Hus']
        |intros r Hr; eapply keeps_pairs_trans; [exact H1|exact Hr]]).
    + apply IH; [exact Hs|]. intros w Hw. apply Hus; right; exact Hw.
Qed.

(** [bfs] does not write [pairU] or [pairV]. *)
Lemma bfs_init_pairs us : forall g q g' q',
  bfs_init us g q = Ok (g', q') -> pairU g' = pairU g /\ pairV g' = pairV g.
Proof.
  induction us as [|u us IH]; intros g q g' q' E; cbn [bfs_init] in E.
  - injection E as <- <-. split; reflexivity.
  - destruct (vget (pairU g) u) as [pu| |]; cbn [rbind] in E; try discriminate.
    destruct (pu =? 0).
    + destruct (vset (dist g) u 0) as [d| |]; cbn [rbind] in E; try discriminate.
      apply IH in E. exact E.
    + destruct (vset (dist g) u INF) as [d| |]; cbn [rbind] in E; try discriminate.
      apply IH in E. exact E.
Qed.

Lemma bfs_scan_pairs u vs : forall g q g' q',
  bfs_scan u vs g q = Ok (g', q') -> pairU g' = pairU g /\ pairV g' = pairV g.
Proof.
  induction vs as [|v vs IH]; intros g q g' q' E; cbn [bfs_scan] in E.
  - injection E as <- <-. split; reflexivity.
  - destruct (vget (pairV g) v) as [pv| |]; cbn [rbind] in E; try discriminate.
    destruct (vget (dist g) pv) as [dpv| |]; cbn [rbind] in E; try discriminate.
    destruct (dpv =? INF); [|exact (IH _ _ _ _ E)].
    destruct (vget (dist g) u) as [du| |]; cbn [rbind] in E; try discriminate.
    destruct (vset (dist g) pv (du + 1)) as [d| |]; cbn [rbind] in E; try discriminate.
    apply IH in E. exact E.
Qed.

Lemma bfs_loop_pairs fuel : forall g q g',
  bfs_loop fuel g q = Ok g' -> pairU g' = pairU g /\ pairV g' = pairV g.
Proof.
  induction fuel as [|fuel IH]; intros g q g' E; cbn [bfs_loop] in E; [discriminate|].
  destruct q as [|u q]; [injection E as <-; split; reflexivity|].
  destruct (vget (dist g) u) as [du| |]; cbn [rbind] in E; try discriminate.
  destruct (vget (dist g) 0) as [d0| |]; cbn [rbind] in E; try discriminate.
  destruct (du <? d0); [|exact (IH _ _ _ E)].
  destruct (vget (adj g) u) as [vs| |]; cbn [rbind] in E; try discriminate.
  destruct (bfs_scan u vs g q) as [[g1 q1]| |] eqn:Es; cbn [rbind] in E;
    try discriminate.
  apply bfs_scan_pairs in Es as [E1 E2]. apply IH in E as [E3 E4].
  split; congruence.
Qed.

Lemma bfs_fuel_pairs fuel g g' more :
  bfs_fuel fuel g = Ok (g', more) -> pairU g' = pairU g /\ pairV g' = pairV g.
Proof.
  unfold bfs_fuel. intros E.
  destruct (bfs_init (range1 (nLeft g)) g []) as [[g1 q]| |] eqn:Ei;
    cbn [rbind] in E; try discriminate.
  destruct (vset (dist g1) 0 INF) as [d| |]; cbn [rbind] in E; try discriminate.
  destruct (bfs_loop fuel (set_dist g1 d) q) as [g2| |] eqn:El;
    cbn [rbind] in E; try discriminate.
  destruct (vget (dist g2) 0) as [d0| |]; cbn [rbind] in E; try discriminate.
  injection E as <- <-.
  apply bfs_init_pairs in Ei as [E1 E2]. apply bfs_loop_pairs in El as [E3 E4].
  cbn [set_dist pairU pairV] in E3, E4. split; congruence.
Qed.

Lemma phases_stays pfuel bfuel dfuel : forall g matching,
  Shape g -> no_oob (keeps_pairs g) (phases pfuel bfuel dfuel g matching).
Proof.
  induction pfuel as [|pfuel IH]; intros g m Hs; cbn [phases]; [exact I|].
  pose proof (bfs_fuel_safe bfuel g Hs) as Hb.
  destruct (bfs_fuel bfuel g) as [[g1 more]| |] eqn:Eb; cbn [rbind];
    [|exact Hb|exact I].
  cbn [no_oob] in Hb.
  assert (K1 : keeps_pairs g (g1, more)).
  { split; [exact Hb|]. cbn [fst].
    destruct (bfs_fuel_pairs _ _ _ _ Eb) as [EU EV]. apply Stays_pairs; assumption. }
  destruct more; [|exact K1].
  eapply no_oob_bind.
  - apply augment_stays; [exact (proj1 Hb)|].
    intros u Hu. apply In_range1 in Hu. exact Hu.
  - intros [g2 m'] H2. eapply no_oob_weaken; [apply IH; exact (proj1 (proj1 H2))|].
    intros r Hr. eapply keeps_pairs_trans; [|exact Hr].
    eapply keeps_pairs_trans; [exact K1|exact H2].
Qed.

Lemma filter_length_mono (p q : Z -> bool) (l : list Z) :
  (forall x, In x l -> p x = true -> q x = true) ->
  (length (List.filter p l) <= length (List.filter q l))%nat.
Proof.
  induction l as [|a l IH]; intros H; cbn [List.filter]; [lia|].
  assert (IH' : (length (List.filter p l) <= length (List.filter q l))%nat)
    by (apply IH; intros x Hx; apply H; right; exact Hx).
  destruct (p a) eqn:Ep.
  - rewrite (H a (or_introl eq_refl) Ep). cbn [length]. lia.
  - destruct (q a); cbn [length]; lia.
Qed.

Lemma Stays_msize g g' : nLeft g' = nLeft g -> Stays g g' -> msize g <= msize g'.
Proof.
  intros En [SU _]. unfold msize. rewrite En.
  pose proof (filter_length_mono (is_matched g) (is_matched g') (range1 (nLeft g))) as H.
  enough ((length (List.filter (is_matched g) (range1 (nLeft g))) <=
           length (List.filter (is_matched g') (range1 (nLeft g))))%nat) by lia.
  apply H. intros x Hx. apply In_range1 in Hx. unfold is_matched.
  destruct (Z.eqb_spec (pairUA g x) 0) as [|Hne]; [discriminate|]. intros _.
  destruct (Z.eqb_spec (pairUA g' x) 0) as [E|]; [|reflexivity].
  exfalso. exact (SU x ltac:(lia) Hne E).
Qed.

(** A matching has no more edges than there are left vertices, right
    vertices, or edges. *)
Lemma matching_size_bounds l r (es : list (Z * Z)) M :
  0 <= l -> 0 <= r ->
  is_matching (fun u v => In (u, v) es) M ->
  (forall u v, In (u, v) es -> 1 <= u <= l /\ 1 <= v <= r) ->
  zlen M <= l /\ zlen M <= r /\ zlen M <= zlen es.
Proof.
  intros Hl Hr (Hn1 & Hn2 & HE) Hrange.
  assert (H1 : incl (map fst M) (range1 l)).
  { intros x Hx. apply in_map_iff in Hx as ([u v] & <- & Hin).
    apply In_range1. exact (proj1 (Hrange u v (HE u v Hin))). }
  assert (H2 : incl (map snd M) (range1 r)).
  { intros x Hx. apply in_map_iff in Hx as ([u v] & <- & Hin).
    apply In_range1. exact (proj2 (Hrange u v (HE u v Hin))). }
  assert (H3 : incl M es) by (intros [u v] Hin; exact (HE u v Hin)).
  pose proof (NoDup_incl_length Hn1 H1) as L1.
  pose proof (NoDup_incl_length Hn2 H2) as L2.
  pose proof (NoDup_incl_length (NoDup_map_inv fst M Hn1) H3) as L3.
  rewrite length_map in L1, L2.
  pose proof (length_range1 l Hl). pose proof (length_range1 r Hr). lia.
Qed.

Lemma accepted_in_range l r calls u v :
  In (u, v) (accepted l r calls) -> 1 <= u <= l /\ 1 <= v <= r.
Proof.
  unfold accepted. intros H. apply List.filter_In in H as [_ H].
  apply in_range_spec. exact H.
Qed.

(** What a call of [maxMatching] on a reachable engine leaves. *)
Lemma reachable_maxMatching l r calls g :
  reachable l r calls g ->
  exists g' k,
    maxMatching g = Ok (g', k) /\
    Valid g' /\ nLeft g' = l /\ 0 <= l /\ 0 <= r /\
    k = msize g' - msize g /\ 0 <= msize g /\
    is_matching (fun u v => In (u, v) (accepted l r calls)) (pairs_of g') /\
    (l < INF ->
     forall M, is_matching (fun u v => In (u, v) (accepted l r calls)) M ->
               zlen M <= msize g').
Proof.
  intros Hreach.
  pose proof (reachable_Engine _ _ _ _ Hreach) as Heng.
  pose proof Heng as [Hv El Er He].
  destruct (maxMatching_spec _ Hv) as (g' & k & E & V' & G' & M' & F').
  pose proof (Engine_same _ _ _ _ _ Heng V' G') as [_ El' Er' He'].
  pose proof (sh_nl _ (va_shape _ Hv)) as Hl. pose proof (sh_nr _ (va_shape _ Hv)) as Hr.
  exists g', k. split; [exact E|]. split; [exact V'|]. split; [exact El'|].
  split; [lia|]. split; [lia|]. split; [exact M'|].
  split; [exact (proj1 (msize_bounds g Hl))|]. split.
  - apply (is_matching_ext (edge g')); [intros u v; apply He'|].
    apply pairs_of_matching. exact V'.
  - intros Hinf M HM. apply (Final_maximum _ g' V' F'); [lia|].
    apply (is_matching_ext (fun u v => In (u, v) (accepted l r calls))); [|exact HM].
    intros u v. apply He'.
Qed.

Lemma phases_more_fuel p : forall k b d g m r,
  phases p b d g m = Ok r -> phases (p + k) b d g m = Ok r.
Proof.
  induction p as [|p IH]; intros k b d g m r E; cbn [phases Nat.add] in *;
    [discriminate|].
  destruct (bfs_fuel b g) as [[g1 more]| |]; cbn [rbind] in *; try discriminate.
  destruct more; [|exact E].
  destruct (augment d (range1 (nLeft g1)) g1 m) as [[g2 m2]| |]; cbn [rbind] in *;
    try discriminate.
  apply IH. exact E.
Qed.

(** *** Bounds on the values of a run *)

(** Between two iterations of the queue loop: every layer number written
    so far is between [1] and [INF]. *)
Definition LogI (g0 g : BipartiteGraph) (q log : list Z) : Prop :=
  BfsBase g0 g q /\ Forall (fun w => 1 <= w <= INF) log.

Definition LogJ (g0 : BipartiteGraph) (u : Z) (g : BipartiteGraph)
  (q log vs : list Z) : Prop :=
  LogI g0 g q log /\ 1 <= u <= nLeft g /\ distA g u < INF /\
  (forall v, In v vs -> In v (adjA g u)).

Lemma LogJ_assign g0 u g q log v vs :
  LogJ g0 u g q log (v :: vs) -> distA g (pairVA g v) = INF ->
  LogJ g0 u
    (set_dist g (<[Z.to_nat (pairVA g v) := distA g u + 1]> (dist g)))
    (q ++ [pairVA g v]) (log ++ [distA g u + 1]) vs.
Proof.
  intros ((Hb & Hlog) & Hu & Hlt & Hvs) Einf.
  pose proof (bb_shape _ _ _ Hb) as Hs.
  assert (Hin : In v (adjA g u)) by (apply Hvs; left; reflexivity).
  assert (Hv : 1 <= v <= nRight g) by (eapply sh_edges; [exact Hs| |exact Hin]; lia).
  assert (Hw : 0 <= pairVA g v <= nLeft g) by (apply sh_pv; [exact Hs|lia]).
  pose proof (bb_dist _ _ _ Hb u ltac:(lia)) as Hdu.
  assert (Hwu : pairVA g v <> u) by (intros E; rewrite E in Einf; lia).
  split; [split|split; [exact Hu|split]].
  - apply BfsBase_assign; [exact Hb|exact Hw|lia].
  - apply Forall_app. split; [exact Hlog|]. constructor; [lia|constructor].
  - rewrite assign_distA by (assumption || lia).
    destruct (Z.eqb_spec u (pairVA g v)); [congruence|exact Hlt].
  - intros v' Hv'. apply Hvs. right; exact Hv'.
Qed.

Lemma LogI_rule g0 fuel g q log g' log' :
  LogI g0 g q log ->
  bfs_loop_log fuel g q log = Ok (g', log') -> LogI g0 g' [] log'.
Proof.
  intros HI E.
  apply (bfs_loop_rule (fun g q log => LogI g0 g q log)
                       (fun u g q log vs => LogJ g0 u g q log vs))
    with (fuel := fuel) (g := g) (q := q) (log := log) (log' := log');
    [| | | | |exact HI|exact E]; clear.
  - intros g u q log (Hb & Hlog) _.
    apply BfsBase_tail in Hb as [Hb _]. split; assumption.
  - intros g u q log (Hb & Hlog) Hlt.
    pose proof (bb_dist _ _ _ Hb) as Hd. pose proof (sh_nl _ (bb_shape _ _ _ Hb)).
    apply BfsBase_tail in Hb as [Hb Hu].
    assert (u <> 0) by (intros ->; lia).
    split; [split; assumption|].
    split; [lia|]. split; [pose proof (Hd 0 ltac:(lia)); lia|auto].
  - intros u g q log v vs (HI & Hu & Hlt & Hvs) _.
    split; [exact HI|]. split; [exact Hu|]. split; [exact Hlt|].
    intros v' Hv'. apply Hvs. right; exact Hv'.
  - intros u g q log v vs HJ Einf. apply LogJ_assign; assumption.
  - intros u g q log (HI & _). exact HI.
Qed.

Lemma phase_state_Stays bfuel dfuel g0 g m :
  Shape g0 -> phase_state bfuel dfuel g0 g m -> Shape g /\ Stays g0 g.
Proof.
  intros Hs0 H. induction H as [|g m g1 g2 m' H [Hs HS] Eb Ea].
  - split; [exact Hs0|apply Stays_refl].
  - pose proof (bfs_fuel_safe bfuel g Hs) as Hb. rewrite Eb in Hb.
    destruct (bfs_fuel_pairs _ _ _ _ Eb) as [EU EV].
    pose proof (augment_stays dfuel (range1 (nLeft g1)) g1 m (proj1 Hb)) as Ha.
    rewrite Ea in Ha. destruct Ha as [[Hs2 _] HS2].
    { intros u Hu. apply In_range1. exact Hu. }
    split; [exact Hs2|].
    eapply Stays_trans; [exact HS|].
    eapply Stays_trans; [apply Stays_pairs; eassumption|exact HS2].
Qed.

(** * Layer numbers counted on the right side *)

(** A left vertex that has a layer number and a partner. *)
Definition matched_layer (g : BipartiteGraph) (x : Z) : bool :=
  has_layer g x && is_matched g x.

(** The number of matched left vertices that have a layer number. *)
Definition mcount (g : BipartiteGraph) : Z :=
  zlen (List.filter (matched_layer g) (range1 (nLeft g))).

(** The matched left vertices have different partners, so there are no
    more of them than right vertices, and fewer when a right vertex is
    free. *)
Lemma msize_right g :
  Valid g ->
  msize g <= nRight g /\
  ((exists v, 1 <= v <= nRight g /\ pairVA g v = 0) -> msize g < nRight g).
Proof.
  intros [Hs _ Hq]. unfold msize.
  set (L := List.filter (is_matched g) (range1 (nLeft g))).
  assert (HL : forall x, In x L -> 1 <= x <= nLeft g /\ pairUA g x <> 0).
  { intros x Hx. apply filter_In in Hx as [Hx Hm]. apply In_range1 in Hx.
    split; [exact Hx|]. unfold is_matched in Hm.
    destruct (Z.eqb_spec (pairUA g x) 0); [discriminate|assumption]. }
  assert (Hback : forall x, In x L -> pairVA g (pairUA g x) = x).
  { intros x Hx. destruct (HL x Hx) as [Hr Hne]. apply (q_uv _ _ Hq); assumption. }
  assert (Hnd : List.NoDup (map (pairUA g) L)).
  { apply Injective_map_NoDup_in.
    - intros x y Hx Hy E. rewrite <- (Hback x Hx), <- (Hback y Hy), E. reflexivity.
    - apply List.NoDup_filter. apply NoDup_range1. }
  assert (Hin : forall y, In y (map (pairUA g) L) -> 1 <= y <= nRight g).
  { intros y Hy. apply in_map_iff in Hy as (x & <- & Hx).
    destruct (HL x Hx) as [Hr Hne].
    pose proof (q_range _ _ Hq x ltac:(lia)). lia. }
  pose proof (length_range1 (nRight g) (sh_nr _ Hs)) as Hlen.
  split.
  - assert (Hincl : incl (map (pairUA g) L) (range1 (nRight g)))
      by (intros y Hy; apply In_range1; apply Hin; exact Hy).
    pose proof (NoDup_incl_length Hnd Hincl) as H. rewrite length_map in H. lia.
  - intros (v & Hv & Hfree).
    assert (Hnd' : List.NoDup (v :: map (pairUA g) L)).
    { constructor; [|exact Hnd]. intros Hy.
      apply in_map_iff in Hy as (x & E & Hx).
      destruct (HL x Hx) as [Hr _]. pose proof (Hback x Hx) as Hb.
      rewrite E, Hfree in Hb. lia. }
    assert (Hincl : incl (v :: map (pairUA g) L) (range1 (nRight g))).
    { intros y [<-|Hy]; apply In_range1; [exact Hv|apply Hin; exact Hy]. }
    pose proof (NoDup_incl_length Hnd' Hincl) as H.
    cbn [length] in H. rewrite length_map in H. lia.
Qed.

Lemma mcount_le_msize g : mcount g <= msize g.
Proof.
  unfold mcount, msize.
  pose proof (filter_length_mono (matched_layer g) (is_matched g) (range1 (nLeft g))) as H.
  enough ((length (List.filter (matched_layer g) (range1 (nLeft g))) <=
           length (List.filter (is_matched g) (range1 (nLeft g))))%nat) by lia.
  apply H. intros x _ Hx. unfold matched_layer in Hx.
  apply andb_true_iff in Hx as [_ Hx]. exact Hx.
Qed.

Lemma mcount_lt_msize g w :
  1 <= w <= nLeft g -> is_matched g w = true -> has_layer g w = false ->
  mcount g + 1 <= msize g.
Proof.
  intros Hw Hm Hl. unfold mcount, msize.
  set (p' := fun x => matched_layer g x || (x =? w)).
  assert (E : length (List.filter p' (range1 (nLeft g))) =
              S (length (List.filter (matched_layer g) (range1 (nLeft g))))).
  { apply (filter_count_incr (matched_layer g) p' w).
    - apply NoDup_range1.
    - apply In_range1. exact Hw.
    - unfold matched_layer. rewrite Hl. reflexivity.
    - unfold p'. rewrite Z.eqb_refl. apply orb_true_r.
    - intros x _ Hx. unfold p'. destruct (Z.eqb_spec x w); [contradiction|].
      apply orb_false_r. }
  pose proof (filter_length_mono p' (is_matched g) (range1 (nLeft g))) as H.
  assert ((length (List.filter p' (range1 (nLeft g))) <=
           length (List.filter (is_matched g) (range1 (nLeft g))))%nat).
  { apply H. intros x _ Hx. unfold p' in Hx. apply orb_true_iff in Hx as [Hx|Hx].
    - unfold matched_layer in Hx. apply andb_true_iff in Hx as [_ Hx]. exact Hx.
    - apply Z.eqb_eq in Hx. subst x. exact Hm. }
  lia.
Qed.

(** Every layer number of a left vertex is at most the number of matched
    left vertices that have one. *)
Definition RightInv (g : BipartiteGraph) : Prop :=
  forall x, 1 <= x <= nLeft g -> distA g x <> INF -> distA g x <= mcount g.

Definition RightI (g0 g : BipartiteGraph) (q log : list Z) : Prop :=
  Valid g0 /\ BfsBase g0 g q /\ RightInv g /\
  Forall (fun w => 1 <= w <= nRight g) log /\
  (nRight g < INF -> distA g 0 = INF -> Cover g q).

Definition RightJ (g0 : BipartiteGraph) (u : Z) (g : BipartiteGraph)
  (q log vs : list Z) : Prop :=
  Valid g0 /\ BfsBase g0 g q /\ RightInv g /\
  Forall (fun w => 1 <= w <= nRight g) log /\
  1 <= u <= nLeft g /\ distA g u < INF /\
  exists done, adjA g u = done ++ vs /\
    (nRight g < INF -> distA g 0 = INF ->
     Cover g (u :: q) /\
     forall v, In v done -> distA g (pairVA g v) <> INF).

Lemma BfsBase_Valid g0 g q : Valid g0 -> BfsBase g0 g q -> Valid g.
Proof.
  intros Hv0 Hb. constructor.
  - exact (bb_shape _ _ _ Hb).
  - exact (bb_dist _ _ _ Hb).
  - eapply Quasi_ext;
      [exact (bb_same _ _ _ Hb)|exact (bb_pu _ _ _ Hb)|exact (bb_pv _ _ _ Hb)|].
    exact (va_match _ Hv0).
Qed.

Lemma RightJ_assign g0 u g q log v vs :
  RightJ g0 u g q log (v :: vs) -> distA g (pairVA g v) = INF ->
  RightJ g0 u
    (set_dist g (<[Z.to_nat (pairVA g v) := distA g u + 1]> (dist g)))
    (q ++ [pairVA g v]) (log ++ [distA g u + 1]) vs.
Proof.
  intros (Hv0 & Hb & Hinv & Hlog & Hu & Hlt & done & Hadj & Hcov) Einf.
  pose proof (BfsBase_Valid _ _ _ Hv0 Hb) as Hvg.
  pose proof (bb_shape _ _ _ Hb) as Hs. pose proof (sh_nl _ Hs) as Hn.
  assert (Hin : In v (adjA g u)).
  { rewrite Hadj. apply in_or_app. right; left; reflexivity. }
  assert (Hv : 1 <= v <= nRight g) by (eapply sh_edges; [exact Hs| |exact Hin]; lia).
  assert (Hw : 0 <= pairVA g v <= nLeft g) by (apply sh_pv; [exact Hs|lia]).
  pose proof (bb_dist _ _ _ Hb u ltac:(lia)) as Hdu.
  assert (Hducnt : distA g u <= mcount g) by (apply Hinv; lia).
  pose proof (mcount_le_msize g) as Hmm.
  destruct (msize_right g Hvg) as [Hmr Hmfree].
  (* the value written is at most the number of right vertices *)
  assert (Hval_r : distA g u + 1 <= nRight g).
  { destruct (Z.eq_dec (pairVA g v) 0) as [E0|N0].
    - assert (msize g < nRight g) by (apply Hmfree; exists v; split; assumption).
      lia.
    - assert (Hpu : pairUA g (pairVA g v) = v)
        by (apply (q_vu _ _ (va_match _ Hvg)); [exact Hv|lia|exact N0]).
      pose proof (mcount_lt_msize g (pairVA g v) ltac:(lia)) as Hlt'.
      assert (mcount g + 1 <= msize g); [|lia].
      apply Hlt'.
      + unfold is_matched. rewrite Hpu. destruct (Z.eqb_spec v 0); [lia|reflexivity].
      + unfold has_layer. rewrite Einf. reflexivity. }
  set (w := pairVA g v) in *. set (val := distA g u + 1) in *.
  set (g1 := set_dist g (<[Z.to_nat w := val]> (dist g))).
  assert (Hd1 : forall x, 0 <= x -> distA g1 x = if x =? w then val else distA g x)
    by (intros; apply assign_distA; assumption).
  assert (Hwu : w <> u) by (intros E; rewrite E in Einf; lia).
  assert (Hkeep : forall x, 0 <= x -> distA g x <> INF -> distA g1 x = distA g x).
  { intros x Hx Hne. rewrite Hd1 by lia.
    destruct (Z.eqb_spec x w) as [->|]; [contradiction|reflexivity]. }
  assert (Hmono : mcount g <= mcount g1).
  { unfold mcount. change (nLeft g1) with (nLeft g).
    pose proof (filter_length_mono (matched_layer g) (matched_layer g1)
                  (range1 (nLeft g))) as H.
    enough ((length (List.filter (matched_layer g) (range1 (nLeft g))) <=
             length (List.filter (matched_layer g1) (range1 (nLeft g))))%nat) by lia.
    apply H. intros x Hx Hm. apply In_range1 in Hx.
    unfold matched_layer in *. apply andb_true_iff in Hm as [Hl Hm].
    apply andb_true_iff. split; [|exact Hm].
    unfold has_layer in *. rewrite Hkeep; [exact Hl|lia|].
    destruct (Z.eqb_spec (distA g x) INF); [discriminate|assumption]. }
  assert (Hstrict : w <> 0 -> val <> INF -> mcount g1 = mcount g + 1).
  { intros N0 Nv.
    assert (Hpu : pairUA g w = v)
      by (apply (q_vu _ _ (va_match _ Hvg)); [exact Hv|lia|exact N0]).
    unfold mcount. change (nLeft g1) with (nLeft g).
    rewrite (filter_count_incr (matched_layer g) (matched_layer g1) w).
    - lia.
    - apply NoDup_range1.
    - apply In_range1. lia.
    - unfold matched_layer, has_layer. rewrite Einf. reflexivity.
    - unfold matched_layer, has_layer. rewrite Hd1 by lia. rewrite Z.eqb_refl.
      destruct (Z.eqb_spec val INF); [contradiction|]. cbn [negb andb].
      unfold is_matched. change (pairUA g1 w) with (pairUA g w). rewrite Hpu.
      destruct (Z.eqb_spec v 0); [lia|reflexivity].
    - intros x Hx Hxw. apply In_range1 in Hx. unfold matched_layer, has_layer.
      rewrite Hd1 by lia. destruct (Z.eqb_spec x w); [contradiction|reflexivity]. }
  split; [exact Hv0|].
  split; [apply BfsBase_assign; [exact Hb|exact Hw|unfold val; lia]|].
  split; [|split; [|split; [exact Hu|split]]].
  - intros x Hx Hne. change (nLeft g1) with (nLeft g) in Hx.
    rewrite Hd1 in Hne |- * by lia.
    destruct (Z.eqb_spec x w) as [->|Hxw].
    + rewrite (Hstrict ltac:(lia) Hne). unfold val. lia.
    + specialize (Hinv x Hx Hne). lia.
  - apply Forall_app; split; [exact Hlog|].
    constructor; [change (nRight g1) with (nRight g); unfold val in *; lia|constructor].
  - rewrite Hd1 by lia. destruct (Z.eqb_spec u w); [congruence|exact Hlt].
  - exists (done ++ [v]). split.
    { change (adjA g1 u) with (adjA g u). rewrite Hadj, <- List.app_assoc. reflexivity. }
    intros Hnorm H0. change (nRight g1) with (nRight g) in Hnorm.
    assert (Hval : val <> INF) by lia.
    rewrite Hd1 in H0 by lia.
    destruct (Z.eqb_spec 0 w) as [E0|E0]; [contradiction|].
    destruct (Hcov Hnorm H0) as [Hcv Hdone].
    assert (Hup : forall y, 1 <= y <= nRight g ->
              distA g (pairVA g y) <> INF -> distA g1 (pairVA g1 y) <> INF).
    { intros y Hy Hne. change (pairVA g1 y) with (pairVA g y).
      pose proof (sh_pv _ Hs y ltac:(lia)). rewrite Hkeep; [exact Hne|lia|exact Hne]. }
    split.
    + intros x Hx Hne. change (nLeft g1) with (nLeft g) in Hx.
      rewrite Hd1 in Hne by lia.
      destruct (Z.eqb_spec x w) as [->|Hxw].
      * left. right. apply in_or_app. right; left; reflexivity.
      * destruct (Hcv x Hx Hne) as [[<-|Hq]|Hex].
        -- left; left; reflexivity.
        -- left; right. apply in_or_app. left; exact Hq.
        -- right. intros y Hy. change (adjA g1 x) with (adjA g x) in Hy.
           apply Hup; [|apply Hex; exact Hy].
           eapply sh_edges; [exact Hs| |exact Hy]. lia.
    + intros y Hy. apply in_app_or in Hy as [Hy|[<-|[]]].
      * apply Hup; [|apply Hdone; exact Hy].
        eapply sh_edges; [exact Hs| |]; [|rewrite Hadj; apply in_or_app; left; exact Hy]. lia.
      * change (pairVA g1 v) with w. rewrite Hd1 by lia. rewrite Z.eqb_refl. exact Hval.
Qed.

Lemma RightI_rule g0 fuel g q log g' log' :
  RightI g0 g q log ->
  bfs_loop_log fuel g q log = Ok (g', log') -> RightI g0 g' [] log'.
Proof.
  intros HI E.
  apply (bfs_loop_rule (RightI g0) (RightJ g0))
    with (fuel := fuel) (g := g) (q := q) (log := log); [| | | | |exact HI|exact E];
    clear.
  - intros g u q log (Hv0 & Hb & Hc & Hlog & Hcov) Hge.
    pose proof (bb_dist _ _ _ Hb) as Hd.
    apply BfsBase_tail in Hb as [Hb Hu].
    split; [exact Hv0|]. split; [exact Hb|]. split; [exact Hc|]. split; [exact Hlog|].
    intros Hnorm H0 x Hx Hne. destruct (Hcov Hnorm H0 x Hx Hne) as [[->|Hq]|Hex]; auto.
    pose proof (Hd x ltac:(lia)). lia.
  - intros g u q log (Hv0 & Hb & Hc & Hlog & Hcov) Hlt.
    pose proof (bb_dist _ _ _ Hb) as Hd. pose proof (sh_nl _ (bb_shape _ _ _ Hb)).
    apply BfsBase_tail in Hb as [Hb Hu].
    assert (u <> 0) by (intros ->; lia).
    split; [exact Hv0|]. split; [exact Hb|]. split; [exact Hc|]. split; [exact Hlog|].
    split; [lia|]. split; [pose proof (Hd 0 ltac:(lia)); lia|].
    exists []. split; [reflexivity|]. intros Hnorm Hz.
    split; [apply Hcov; assumption|intros v []].
  - intros u g q log v vs (Hv0 & Hb & Hc & Hlog & Hu & Hlt & done & Hadj & Hcov) Hne.
    split; [exact Hv0|]. split; [exact Hb|]. split; [exact Hc|]. split; [exact Hlog|].
    split; [exact Hu|]. split; [exact Hlt|].
    exists (done ++ [v]). split; [rewrite Hadj, <- List.app_assoc; reflexivity|].
    intros Hnorm H0. destruct (Hcov Hnorm H0) as [Hcv Hdone].
    split; [exact Hcv|]. intros y Hy. apply in_app_or in Hy as [Hy|[<-|[]]]; auto.
  - intros u g q log v vs HJ Einf. apply RightJ_assign; assumption.
  - intros u g q log (Hv0 & Hb & Hc & Hlog & Hu & Hlt & done & Hadj & Hcov).
    rewrite app_nil_r in Hadj.
    split; [exact Hv0|]. split; [exact Hb|]. split; [exact Hc|]. split; [exact Hlog|].
    intros Hnorm H0 x Hx Hne. destruct (Hcov Hnorm H0) as [Hcv Hdone].
    destruct (Hcv x Hx Hne) as [[->|Hq]|Hex]; auto.
    right. intros y Hy. apply Hdone. rewrite <- Hadj. exact Hy.
Qed.

Lemma RightI_seeded g : Valid g -> RightI g (seeded g) (seed_queue g) [].
Proof.
  intros Hv. pose proof (va_shape _ Hv) as Hs.
  split; [exact Hv|]. split; [apply BfsBase_seeded; exact Hs|].
  assert (Hseed : forall x, 1 <= x <= nLeft g -> distA (seeded g) x <> INF ->
            is_free g x = true /\ distA (seeded g) x = 0).
  { intros x Hx Hne. rewrite seeded_distA in Hne |- * by lia.
    unfold seed_dist in *. destruct (Z.eqb_spec x 0); [lia|].
    destruct (is_free g x); [split; reflexivity|contradiction]. }
  split; [|split; [constructor|]].
  - intros x Hx Hne. change (nLeft (seeded g)) with (nLeft g) in Hx.
    destruct (Hseed x Hx Hne) as [_ E]. rewrite E. unfold mcount. lia.
  - intros _ _ x Hx Hne. change (nLeft (seeded g)) with (nLeft g) in Hx.
    destruct (Hseed x Hx Hne) as [Hf E].
    left. unfold seed_queue. apply filter_In. split; [apply In_range1; lia|exact Hf].
Qed.

(** Whatever the number of left vertices, [bfs] writes no layer number
    above the number of right vertices; when that is below [INF] and [bfs]
    answers [false], every left vertex with a layer number has all its
    neighbours' partners layered. *)
Lemma bfs_right fuel g g' more :
  Valid g -> bfs_fuel fuel g = Ok (g', more) ->
  exists log,
    bfs_writes fuel g = Ok log /\
    Forall (fun w => 1 <= w <= nRight g) log /\
    (nRight g < INF -> more = false ->
     forall x, 1 <= x <= nLeft g -> distA g' x <> INF -> Expanded g' x).
Proof.
  intros Hv E. pose proof (va_shape _ Hv) as Hs.
  rewrite (bfs_fuel_unfold fuel g Hs) in E. rewrite (bfs_writes_unfold fuel g Hs).
  rewrite (bfs_loop_erase fuel _ _ []) in E.
  destruct (bfs_loop_log fuel (seeded g) (seed_queue g) [])
    as [[g2 log]| |] eqn:Elog; cbn [rmap rbind fst] in E; try discriminate.
  destruct (vget (dist g2) 0) as [d0| |] eqn:E0; cbn [rbind] in E; try discriminate.
  injection E as <- <-.
  pose proof (RightI_rule g fuel _ _ _ _ _ (RightI_seeded g Hv) Elog)
    as (_ & Hb & _ & Hlog & Hcov).
  destruct (bb_same _ _ _ Hb) as (En & Er & _).
  exists log. cbn [rbind]. split; [reflexivity|]. split.
  - eapply List.Forall_impl; [|exact Hlog]. intros w Hw. cbn beta in Hw. lia.
  - intros Hinf Hm x Hx Hne.
    apply (vget_inv 0) in E0 as [_ ->]. fold (distA g2 0) in Hm.
    apply negb_false_iff in Hm. apply Z.eqb_eq in Hm.
    destruct (Hcov ltac:(lia) Hm x ltac:(lia) Hne) as [[]|Hex]. exact Hex.
Qed.

Lemma Final_maximum_either bfuel g :
  Valid g -> Final bfuel g -> nLeft g < INF \/ nRight g < INF ->
  forall M, is_matching (edge g) M -> zlen M <= msize g.
Proof.
  intros Hv HF [Hl|Hr]; [exact (Final_maximum bfuel g Hv HF Hl)|].
  destruct HF as (log & E & Hpost).
  destruct (bfs_right bfuel g g false Hv E) as (log' & _ & _ & Hexp).
  pose proof (bp_more _ _ _ _ Hpost) as Hm. symmetry in Hm.
  apply negb_false_iff in Hm. apply Z.eqb_eq in Hm.
  apply no_larger_matching; [exact Hv|exact Hm| |].
  - exact (bp_free _ _ _ _ Hpost).
  - exact (Hexp Hr eq_refl).
Qed.

(** What a call of [maxMatching] leaves on a reachable engine: a matching
    of the accepted edges, which is a maximum one as soon as one of the two
    sides has fewer than [INF] vertices. *)
Lemma reachable_maximum l r calls g :
  reachable l r calls g ->
  exists g' k,
    maxMatching g = Ok (g', k) /\ Valid g' /\
    k = msize g' - msize g /\
    is_matching (fun u v => In (u, v) (accepted l r calls)) (pairs_of g') /\
    (l < INF \/ r < INF ->
     forall M, is_matching (fun u v => In (u, v) (accepted l r calls)) M ->
               zlen M <= msize g').
Proof.
  intros Hreach.
  pose proof (reachable_Engine _ _ _ _ Hreach) as Heng.
  pose proof Heng as [Hv El Er He].
  destruct (maxMatching_spec _ Hv) as (g' & k & E & V' & G' & M' & F').
  pose proof (Engine_same _ _ _ _ _ Heng V' G') as [_ El' Er' He'].
  exists g', k. split; [exact E|]. split; [exact V'|]. split; [exact M'|]. split.
  - apply (is_matching_ext (edge g')); [intros u v; apply He'|].
    apply pairs_of_matching. exact V'.
  - intros Hinf M HM. apply (Final_maximum_either _ g' V' F'); [lia|].
    apply (is_matching_ext (fun u v => In (u, v) (accepted l r calls))); [|exact HM].
    intros u v. apply He'.
Qed.

(** * The console: [printMatching] and [main] *)

Import String.StringSyntax.
Delimit Scope string_scope with string.
Bind Scope string_scope with String.string.

(** ** Streams *)

(** What one [<<] puts into an output stream: a string literal, an [int],
    or an [int] under [setw(w)]. *)
Inductive item : Type :=
| Text (s : String.string)
| Int (z : Z)
| IntW (w : Z) (z : Z).

(** The character written for [\n]. *)
Definition nl : String.string :=
  String.String (Ascii.ascii_of_nat 10) String.EmptyString.

(** The line written to [cerr] by [addEdge] for its diagnostic. *)
Definition warning (d : diagnostic) : list item :=
  match d with
  | InvalidEdge u v =>
      [Text "⚠️ Invalid edge ("; Int u; Text ", "; Int v; Text (String.append ")" nl)]
  end.

(** ** [printMatching] *)

Definition pair_line (u v : Z) : list item :=
  [Text "  Left "; IntW 2 u; Text "  ⇄  Right "; IntW 2 v; Text nl].

(** The loop of [printMatching]; [out] is what [cout] holds. *)
Fixpoint print_pairs (us : list Z) (g : BipartiteGraph) (out : list item)
  : res (list item) :=
  match us with
  | [] => Ok out
  | u :: us' =>
      let* pu := vget (pairU g) u in
      if negb (pu =? 0) then print_pairs us' g (out ++ pair_line u pu)
      else print_pairs us' g out
  end.

Definition matched_header : item :=
  Text (String.append nl (String.append "🔗 Matched Pairs:" nl)).

Definition printMatching (g : BipartiteGraph) (out : list item)
  : res (list item) :=
  print_pairs (range1 (nLeft g)) g (out ++ [matched_header]).

(** ** [main] *)

(** *** Reading [int]s from [cin] *)

Definition INT_MAX : Z := 2147483647.
Definition INT_MIN : Z := -2147483648.

Definition fits_int (z : Z) : bool := (INT_MIN <=? z) && (z <=? INT_MAX).

(** The value that an extraction stores for the integer [t]: [t] itself
    when it is an [int], the nearest [int] otherwise. *)
Definition clamp (t : Z) : Z :=
  if t <? INT_MIN then INT_MIN else if INT_MAX <? t then INT_MAX else t.

(** [cin]: the integers that are still to come, as they are written on
    the input, and the fail bit. *)
Record istream : Type := mkIn {
  pending : list Z;
  failbit : bool
}.

(** [cin >> x] for an [int x]: the value stored in [x] ([None]: [x] is
    left as it was) and the stream afterwards.  A stream that has failed
    reads nothing; at the end of the input nothing is stored and the stream
    fails; an integer outside the range of [int] is stored clamped and the
    stream fails. *)
Definition read_int (s : istream) : option Z * istream :=
  if failbit s then (None, s)
  else
    match pending s with
    | [] => (None, mkIn [] true)
    | t :: ts => (Some (clamp t), mkIn ts (negb (fits_int t)))
    end.

(** [BipartiteGraph g(n, m)], with the sizes [nLeft + 1] and [nRight + 1]
    computed in [int]: at [INT_MAX] the addition overflows, and below [-1]
    the size asked of [assign] is not one a vector can have; then no engine
    is built ([None]).  Otherwise the engine is [construct n m]. *)
Definition construct_int (n m : Z) : option BipartiteGraph :=
  if (-1 <=? n) && (n <? INT_MAX) && (-1 <=? m) && (m <? INT_MAX)
  then Some (construct n m)
  else None.

(** What a run of the program leaves: the value returned by [main] and
    the contents of [cout] and [cerr]. *)
Record exit : Type := mkExit {
  code : Z;
  cout : list item;
  cerr : list item
}.

(** The loop [for (int i = 0; i < e; ++i)] of [main].  [u] and [v] are
    fresh in every iteration: when an extraction stores nothing, [addEdge]
    is called with an indeterminate value, the source does not say what
    happens, and the model answers [None]. *)
Fixpoint read_edges (count : nat) (s : istream) (g : BipartiteGraph)
  (err : list item) : option (BipartiteGraph * list item) :=
  match count with
  | O => Some (g, err)
  | S count' =>
      let (ou, s1) := read_int s in
      let (ov, s2) := read_int s1 in
      match ou, ov with
      | Some u, Some v =>
          let (g', d) := addEdge g u v in
          read_edges count' s2 g'
            (err ++ match d with Some w => warning w | None => [] end)
      | _, _ => None
      end
  end.

Definition prompt : list item :=
  [Text "Enter number of left vertices, right vertices, and edges: "].

Definition invalid_input : list item :=
  [Text (String.append "❌ Invalid input." nl)].

Definition rule : String.string := "=======================================".

(** [main] on the integers written on the input.  [None]: the run is one
    the source does not define (no engine built, or an indeterminate [u] or
    [v]).  The last branch is not reached: the fail bit is set whenever an
    extraction stores nothing. *)
Definition main (input : list Z) : res (option exit) :=
  let (on, s1) := read_int (mkIn input false) in
  let (om, s2) := read_int s1 in
  let (oe, s3) := read_int s2 in
  if failbit s3 then Ok (Some (mkExit 1 prompt invalid_input))
  else
    match on, om, oe with
    | Some n, Some m, Some e =>
        if (n <=? 0) || (m <=? 0) || (e <? 0) then
          Ok (Some (mkExit 1 prompt invalid_input))
        else
          match construct_int n m with
          | None => Ok None
          | Some g =>
              let out1 :=
                prompt ++
                [Text "Enter "; Int e; Text (String.append " edges (u v):" nl)] in
              match read_edges (Z.to_nat e) s3 g [] with
              | None => Ok None
              | Some (g1, err) =>
                  let* (g2, maxMatch) := maxMatching g1 in
                  let out2 :=
                    out1 ++ [Text (String.append nl (String.append rule nl));
                             Text "✅ Maximum Matching Size: "; Int maxMatch;
                             Text nl] in
                  let* out3 := printMatching g2 out2 in
                  Ok (Some (mkExit 0 (out3 ++ [Text (String.append rule nl)]) err))
              end
          end
    | _, _, _ => Ok (Some (mkExit 1 prompt invalid_input))
    end.

(** ** What [printMatching] prints *)

Definition pair_lines (ps : list (Z * Z)) : list item :=
  concat (map (fun p => pair_line (fst p) (snd p)) ps).

Lemma pair_lines_cons p ps :
  pair_lines (p :: ps) = pair_line (fst p) (snd p) ++ pair_lines ps.
Proof. reflexivity. Qed.

Lemma print_pairs_spec us : forall g out,
  Shape g -> (forall u, In u us -> 1 <= u <= nLeft g) ->
  print_pairs us g out =
  Ok (out ++ pair_lines (map (fun u => (u, pairUA g u))
                             (List.filter (is_matched g) us))).
Proof.
  induction us as [|u us IH]; intros g out Hs Hus; cbn [print_pairs].
  - cbn. rewrite app_nil_r. reflexivity.
  - assert (Hu : 1 <= u <= nLeft g) by (apply Hus; left; reflexivity).
    pose proof (sh_pairU _ Hs) as Hp.
    vget_step 0. fold (pairUA g u).
    assert (Hm : is_matched g u = negb (pairUA g u =? 0)) by reflexivity.
    cbn [List.filter]. rewrite Hm.
    destruct (negb (pairUA g u =? 0)).
    + rewrite IH by (try assumption; intros w Hw; apply Hus; right; exact Hw).
      cbn [map]. rewrite pair_lines_cons. cbn [fst snd].
      rewrite <- List.app_assoc. reflexivity.
    + apply IH; [exact Hs|]. intros w Hw. apply Hus; right; exact Hw.
Qed.

Lemma printMatching_spec g out :
  Shape g ->
  printMatching g out = Ok (out ++ matched_header :: pair_lines (pairs_of g)).
Proof.
  intros Hs. unfold printMatching. rewrite print_pairs_spec.
  - rewrite <- List.app_assoc. reflexivity.
  - exact Hs.
  - intros u Hu. apply In_range1. exact Hu.
Qed.

(** ** What [main] does *)

(** The integers of a list of pairs, as they stand on [cin]. *)
Definition flatten (es : list (Z * Z)) : list Z :=
  concat (map (fun p => [fst p; snd p]) es).

(** The warnings for the calls that [addEdge] rejects. *)
Definition warnings (l r : Z) (es : list (Z * Z)) : list item :=
  concat (map (fun p => warning (InvalidEdge (fst p) (snd p)))
              (List.filter (fun p => negb (in_range l r p)) es)).

(** Every integer of the pairs is an [int]. *)
Definition int_pairs (es : list (Z * Z)) : Prop :=
  Forall (fun p => fits_int (fst p) = true /\ fits_int (snd p) = true) es.

Lemma clamp_fits t : fits_int t = true -> clamp t = t.
Proof.
  unfold fits_int, clamp. intros H. apply andb_true_iff in H as [H1 H2].
  apply Z.leb_le in H1, H2.
  destruct (Z.ltb_spec t INT_MIN); [lia|]. destruct (Z.ltb_spec INT_MAX t); [lia|].
  reflexivity.
Qed.

Lemma read_int_fits t ts :
  fits_int t = true -> read_int (mkIn (t :: ts) false) = (Some t, mkIn ts false).
Proof.
  intros H. unfold read_int. cbn [failbit pending]. rewrite (clamp_fits t H), H.
  reflexivity.
Qed.

Lemma read_edges_flatten es : forall extra g err,
  int_pairs es ->
  read_edges (length es) (mkIn (flatten es ++ extra) false) g err =
  Some (addEdges g es, err ++ warnings (nLeft g) (nRight g) es).
Proof.
  induction es as [|[u v] es IH]; intros extra g err Hint.
  - cbn. rewrite app_nil_r. reflexivity.
  - inversion Hint as [|? ? [Hu Hv] Hint']; subst. cbn [fst snd] in Hu, Hv.
    cbn [length flatten map concat fst snd app read_edges addEdges].
    fold (flatten es).
    rewrite (read_int_fits u _ Hu), (read_int_fits v _ Hv).
    destruct (addEdge_sizes g u v) as [En Er].
    destruct (in_range (nLeft g) (nRight g) (u, v)) eqn:Hr.
    + rewrite (addEdge_accepted g u v Hr) in *. cbn [fst] in *.
      rewrite IH by exact Hint'. rewrite En, Er. unfold warnings.
      cbn [List.filter]. rewrite Hr. cbn [negb]. rewrite app_nil_r. reflexivity.
    + rewrite (addEdge_rejected g u v Hr) in *. cbn [fst] in *.
      rewrite IH by exact Hint'. unfold warnings. cbn [List.filter]. rewrite Hr.
      cbn [negb map concat fst snd]. rewrite <- List.app_assoc. reflexivity.
Qed.

Lemma read_edges_short count : forall s g err,
  zlen (pending s) < 2 * Z.of_nat count ->
  read_edges count s g err = None.
Proof.
  induction count as [|count IH]; intros [ts f] g err Hlen;
    cbn [pending] in Hlen; [lia|].
  cbn [read_edges]. unfold read_int at 1. cbn [failbit pending].
  destruct f.
  { unfold read_int. cbn [failbit]. reflexivity. }
  destruct ts as [|u ts].
  { unfold read_int. cbn [failbit]. reflexivity. }
  unfold read_int. cbn [failbit pending].
  destruct (negb (fits_int u)); [reflexivity|].
  destruct ts as [|v ts]; [reflexivity|].
  destruct (addEdge g (clamp u) (clamp v)) as [g' d].
  apply IH. cbn [pending]. cbn [length] in Hlen. lia.
Qed.

(** What [cout] holds after a complete run: [e] is the number of edges
    announced, [k] the size printed, [ps] the pairs printed. *)
Definition report (e k : Z) (ps : list (Z * Z)) : list item :=
  ((prompt ++ [Text "Enter "; Int e; Text (String.append " edges (u v):" nl)]) ++
   [Text (String.append nl (String.append rule nl));
    Text "✅ Maximum Matching Size: "; Int k; Text nl]) ++
  matched_header :: pair_lines ps ++ [Text (String.append rule nl)].

Lemma fits_int_spec z : fits_int z = true <-> INT_MIN <= z <= INT_MAX.
Proof.
  unfold fits_int. rewrite andb_true_iff, !Z.leb_le. reflexivity.
Qed.

Lemma main_run n m e es extra :
  0 < n < INT_MAX -> 0 < m < INT_MAX -> zlen es = e -> e <= INT_MAX ->
  int_pairs es ->
  exists g k,
    maxMatching (addEdges (construct n m) es) = Ok (g, k) /\
    Valid g /\ nLeft g = n /\
    k = msize g /\
    is_matching (fun u v => In (u, v) (accepted n m es)) (pairs_of g) /\
    (n < INF \/ m < INF ->
     forall M, is_matching (fun u v => In (u, v) (accepted n m es)) M ->
               zlen M <= k) /\
    main (n :: m :: e :: flatten es ++ extra) =
    Ok (Some (mkExit 0 (report e k (pairs_of g)) (warnings n m es))).
Proof.
  intros Hn Hm He Hemax Hint.
  pose proof (reachable_fresh n m es ltac:(lia) ltac:(lia)) as Hreach.
  destruct (reachable_maximum n m es _ Hreach) as (g & k & E & V & Hk & HM & Hmax).
  pose proof (reachable_Engine _ _ _ _ Hreach) as Heng.
  destruct (maxMatching_spec _ (en_valid _ _ _ _ Heng)) as (g2 & k2 & E2 & V2 & G2 & _).
  rewrite E in E2. injection E2 as <- <-.
  rewrite msize_fresh in Hk.
  exists g, k. split; [exact E|]. split; [exact V|].
  split; [rewrite (proj1 G2); exact (en_l _ _ _ _ Heng)|].
  split; [lia|]. split; [exact HM|]. split.
  { intros Hinf M HMM. specialize (Hmax Hinf M HMM). lia. }
  assert (Fn : fits_int n = true) by (apply fits_int_spec; unfold INT_MIN; lia).
  assert (Fm : fits_int m = true) by (apply fits_int_spec; unfold INT_MIN; lia).
  assert (Fe : fits_int e = true) by (apply fits_int_spec; unfold INT_MIN; lia).
  unfold main.
  rewrite (read_int_fits n _ Fn), (read_int_fits m _ Fm), (read_int_fits e _ Fe).
  cbn [failbit].
  destruct (Z.leb_spec n 0); [lia|]. destruct (Z.leb_spec m 0); [lia|].
  destruct (Z.ltb_spec e 0); [lia|]. cbn [orb].
  unfold construct_int.
  destruct (Z.leb_spec (-1) n); [|lia]. destruct (Z.ltb_spec n INT_MAX); [|lia].
  destruct (Z.leb_spec (-1) m); [|lia]. destruct (Z.ltb_spec m INT_MAX); [|lia].
  cbn [andb].
  replace (Z.to_nat e) with (length es) by lia.
  rewrite (read_edges_flatten es extra (construct n m) [] Hint).
  cbn [app construct nLeft nRight].
  fold (construct n m). rewrite E. cbn [rbind].
  rewrite (printMatching_spec g _ (va_shape _ V)). cbn [rbind].
  unfold report. rewrite <- !List.app_assoc. reflexivity.
Qed.

(** The test of [main] on the three integers it reads first: each is an
    [int], and [n > 0], [m > 0], [e >= 0]. *)
Definition header_ok (input : list Z) : bool :=
  match input with
  | n :: m :: e :: _ =>
      fits_int n && fits_int m && fits_int e &&
      negb ((n <=? 0) || (m <=? 0) || (e <? 0))
  | _ => false
  end.

Lemma main_bad_header input :
  header_ok input = false ->
  main input = Ok (Some (mkExit 1 prompt invalid_input)).
Proof.
  intros H. unfold main, read_int. cbn [failbit pending].
  destruct input as [|n input]; [reflexivity|].
  cbn [failbit pending].
  destruct (fits_int n) eqn:Fn; cbn [negb failbit pending]; [|reflexivity].
  destruct input as [|m input]; [reflexivity|].
  cbn [failbit pending].
  destruct (fits_int m) eqn:Fm; cbn [negb failbit pending]; [|reflexivity].
  destruct input as [|e input]; [reflexivity|].
  cbn [failbit pending].
  destruct (fits_int e) eqn:Fe; cbn [negb failbit pending]; [|reflexivity].
  cbn [header_ok] in H. rewrite Fn, Fm, Fe in H. cbn [andb] in H.
  apply negb_false_iff in H.
  rewrite (clamp_fits n Fn), (clamp_fits m Fm), (clamp_fits e Fe), H. reflexivity.
Qed.

Lemma main_short n m e rest :
  header_ok (n :: m :: e :: rest) = true -> zlen rest < 2 * e ->
  main (n :: m :: e :: rest) = Ok None.
Proof.
  intros H Hshort. cbn [header_ok] in H.
  apply andb_true_iff in H as [H Hg]. apply andb_true_iff in H as [H Fe].
  apply andb_true_iff in H as [Fn Fm]. apply negb_true_iff in Hg.
  pose proof Hg as Hg'.
  apply orb_false_iff in Hg' as [_ He]. apply Z.ltb_ge in He.
  unfold main.
  rewrite (read_int_fits n _ Fn), (read_int_fits m _ Fm), (read_int_fits e _ Fe).
  cbn [failbit]. rewrite Hg.
  destruct (construct_int n m) as [g|]; [|reflexivity].
  rewrite read_edges_short by (cbn [pending]; lia). reflexivity.
Qed.

(** * Main theorems *)

(** C1 (as amended).  For every engine built by [BipartiteGraph(l, r)] with
    [0 <= l], [0 <= r] and [l < INF] or [r < INF], and any sequence of
    [addEdge] calls, [maxMatching] returns, and the value it returns is the
    size of a maximum matching of the graph of the accepted edges: the
    pairs of [getMatchingPairs] are a matching of that size, and no
    matching of the graph has more edges. *)
Theorem maxMatching_maximum l r es :
  0 <= l -> 0 <= r -> l < INF \/ r < INF ->
  exists g' k ps,
    maxMatching (addEdges (construct l r) es) = Ok (g', k) /\
    getMatchingPairs g' = Ok ps /\ zlen ps = k /\
    is_matching (fun u v => In (u, v) (accepted l r es)) ps /\
    forall M, is_matching (fun u v => In (u, v) (accepted l r es)) M ->
              zlen M <= k.
Proof.
  intros Hl Hr Hinf.
  destruct (reachable_maximum l r es _ (reachable_fresh l r es Hl Hr))
    as (g' & k & E & V' & Hk & HM & Hmax).
  rewrite msize_fresh in Hk.
  exists g', k, (pairs_of g').
  split; [exact E|]. split; [apply getMatchingPairs_spec; exact (va_shape _ V')|].
  split; [rewrite length_pairs_of; lia|]. split; [exact HM|].
  intros M HMM. specialize (Hmax Hinf M HMM). lia.
Qed.

Lemma maxMatching_maximum_witness :
  0 <= 2 /\ 0 <= 2 /\ (2 < INF \/ 2 < INF) /\
  exists g' k ps,
    maxMatching (addEdges (construct 2 2) [(1, 1); (1, 2); (2, 1)]) = Ok (g', k) /\
    getMatchingPairs g' = Ok ps /\ zlen ps = k /\
    is_matching (fun u v => In (u, v) (accepted 2 2 [(1, 1); (1, 2); (2, 1)])) ps /\
    forall M,
      is_matching (fun u v => In (u, v) (accepted 2 2 [(1, 1); (1, 2); (2, 1)])) M ->
      zlen M <= k.
Proof.
  split; [lia|]. split; [lia|]. split; [left; reflexivity|].
  apply (maxMatching_maximum 2 2 [(1, 1); (1, 2); (2, 1)]);
    [lia|lia|left; reflexivity].
Defined.

(** C1 as stated fails: on the engine [BipartiteGraph(INF, INF)] with the
    edges [(i, i)] and [(i, i + 1)] for [i < INF] and the edge [(INF, 1)],
    [maxMatching] returns [INF - 1], and the graph has a matching with
    [INF] edges.  The first phase matches [i] with [i]; in the second phase
    the layering pass reaches the sentinel vertex in layer [INF], which
    [bfs] cannot tell from "not reached". *)
Lemma maxMatching_misses_maximum :
  exists g' M,
    maxMatching (addEdges (construct INF INF) (chain_calls true INF)) =
      Ok (g', INF - 1) /\
    is_matching (fun u v => In (u, v) (accepted INF INF (chain_calls true INF))) M /\
    zlen M = INF.
Proof.
  destruct (chain_maxMatching_with INF INF_ge_2 eq_refl) as [g' E].
  exists g', (chain_perfect INF).
  rewrite (chain_built true INF INF_ge_2).
  split; [exact E|]. exact (chain_perfect_matching INF INF_ge_2).
Qed.

(** C2.  In every call of [maxMatching] on a reachable engine, after every
    phase, and after the call has returned, the pairing state is a valid
    matching: [pairU[u] = v] iff [pairV[v] = u], every entry is [0] or a
    vertex id within bounds, and no vertex is in two matched pairs. *)
Theorem matching_valid_after_every_phase l r calls g0 :
  reachable l r calls g0 ->
  (forall g m, phase_state (bfs_budget g0) (dfs_budget g0) g0 g m ->
               MatchingOK g) /\
  exists g' k, maxMatching g0 = Ok (g', k) /\ MatchingOK g'.
Proof.
  intros Hreach.
  pose proof (en_valid _ _ _ _ (reachable_Engine _ _ _ _ Hreach)) as Hv.
  split.
  - intros g m Hps. apply Valid_MatchingOK.
    apply (phase_state_Valid _ _ g0 g m Hv (Nat.le_refl _) (Nat.le_refl _) Hps).
  - destruct (maxMatching_spec _ Hv) as (g' & k & E & V' & _).
    exists g', k. split; [exact E|apply Valid_MatchingOK; exact V'].
Qed.

Lemma matching_valid_after_every_phase_witness :
  reachable 2 2 [(1, 1); (1, 2); (2, 1)]
    (addEdges (construct 2 2) [(1, 1); (1, 2); (2, 1)]) /\
  ((forall g m,
      phase_state (bfs_budget (addEdges (construct 2 2) [(1, 1); (1, 2); (2, 1)]))
                  (dfs_budget (addEdges (construct 2 2) [(1, 1); (1, 2); (2, 1)]))
                  (addEdges (construct 2 2) [(1, 1); (1, 2); (2, 1)]) g m ->
      MatchingOK g) /\
   exists g' k,
     maxMatching (addEdges (construct 2 2) [(1, 1); (1, 2); (2, 1)]) = Ok (g', k) /\
     MatchingOK g').
Proof.
  assert (H : reachable 2 2 [(1, 1); (1, 2); (2, 1)]
                (addEdges (construct 2 2) [(1, 1); (1, 2); (2, 1)]))
    by (apply reachable_fresh; lia).
  split; [exact H|].
  exact (matching_valid_after_every_phase 2 2 _ _ H).
Defined.

(** C3.  On every reachable engine [maxMatching] returns: the phase loop
    stops within [phase_budget] iterations, every queue loop of [bfs]
    within [bfs_budget] iterations, every [dfs] within depth [dfs_budget],
    and no vector is indexed out of its bounds. *)
Theorem maxMatching_terminates l r calls g :
  reachable l r calls g ->
  exists g' k, maxMatching g = Ok (g', k).
Proof.
  intros Hreach.
  pose proof (en_valid _ _ _ _ (reachable_Engine _ _ _ _ Hreach)) as Hv.
  destruct (maxMatching_spec _ Hv) as (g' & k & E & _).
  exists g', k. exact E.
Qed.

Lemma maxMatching_terminates_witness :
  reachable 3 3 [(1, 1); (2, 1); (3, 1)]
    (addEdges (construct 3 3) [(1, 1); (2, 1); (3, 1)]) /\
  exists g' k,
    maxMatching (addEdges (construct 3 3) [(1, 1); (2, 1); (3, 1)]) = Ok (g', k).
Proof.
  assert (H : reachable 3 3 [(1, 1); (2, 1); (3, 1)]
                (addEdges (construct 3 3) [(1, 1); (2, 1); (3, 1)]))
    by (apply reachable_fresh; lia).
  split; [exact H|].
  exact (maxMatching_terminates 3 3 _ _ H).
Defined.

(** C4 (as amended).  On every reachable engine, after [maxMatching] has
    returned [k], [getMatchingPairs] returns exactly [k] pairs more than
    before the call; on an engine on which no matching was computed before
    (built by the constructor and [addEdge] calls only) it returns exactly
    [k] pairs. *)
Theorem pairs_grow_by_count l r calls g :
  reachable l r calls g ->
  (exists g' k ps0 ps,
     maxMatching g = Ok (g', k) /\
     getMatchingPairs g = Ok ps0 /\ getMatchingPairs g' = Ok ps /\
     zlen ps = zlen ps0 + k) /\
  (forall es, exists g' k ps,
     maxMatching (addEdges (construct l r) es) = Ok (g', k) /\
     getMatchingPairs g' = Ok ps /\ zlen ps = k).
Proof.
  intros Hreach.
  pose proof (reachable_Engine _ _ _ _ Hreach) as [Hv El Er _].
  split.
  - destruct (maxMatching_spec _ Hv) as (g' & k & E & V' & G' & M' & _).
    exists g', k, (pairs_of g), (pairs_of g').
    split; [exact E|].
    split; [apply getMatchingPairs_spec; exact (va_shape _ Hv)|].
    split; [apply getMatchingPairs_spec; exact (va_shape _ V')|].
    rewrite !length_pairs_of. lia.
  - intros es.
    assert (Hl : 0 <= l) by (rewrite <- El; exact (sh_nl _ (va_shape _ Hv))).
    assert (Hr : 0 <= r) by (rewrite <- Er; exact (sh_nr _ (va_shape _ Hv))).
    pose proof (reachable_Engine _ _ _ _ (reachable_fresh l r es Hl Hr)) as [Hv0 _ _ _].
    destruct (maxMatching_spec _ Hv0) as (g' & k & E & V' & G' & M' & _).
    exists g', k, (pairs_of g').
    split; [exact E|].
    split; [apply getMatchingPairs_spec; exact (va_shape _ V')|].
    rewrite length_pairs_of, msize_fresh in *. lia.
Qed.

Lemma pairs_grow_by_count_witness :
  reachable 2 2 [(1, 1); (1, 2); (2, 1)]
    (addEdges (construct 2 2) [(1, 1); (1, 2); (2, 1)]) /\
  (exists g' k ps0 ps,
     maxMatching (addEdges (construct 2 2) [(1, 1); (1, 2); (2, 1)]) = Ok (g', k) /\
     getMatchingPairs (addEdges (construct 2 2) [(1, 1); (1, 2); (2, 1)]) = Ok ps0 /\
     getMatchingPairs g' = Ok ps /\
     zlen ps = zlen ps0 + k) /\
  (forall es, exists g' k ps,
     maxMatching (addEdges (construct 2 2) es) = Ok (g', k) /\
     getMatchingPairs g' = Ok ps /\ zlen ps = k).
Proof.
  assert (H : reachable 2 2 [(1, 1); (1, 2); (2, 1)]
                (addEdges (construct 2 2) [(1, 1); (1, 2); (2, 1)]))
    by (apply reachable_fresh; lia).
  split; [exact H|].
  exact (pairs_grow_by_count 2 2 _ _ H).
Defined.

(** C4 as stated fails: on the engine reached by [BipartiteGraph(1, 1)],
    [addEdge(1, 1)] and a first [maxMatching], a second [maxMatching]
    returns [0] while [getMatchingPairs] returns one pair. *)
Lemma count_differs_from_pairs :
  exists g g' k ps,
    reachable 1 1 [(1, 1)] g /\
    maxMatching g = Ok (g', k) /\
    getMatchingPairs g' = Ok ps /\
    zlen ps <> k.
Proof.
  exists (mkGraph 1 1 [[]; [1]] [INF; INF] [0; 1] [0; 1]),
         (mkGraph 1 1 [[]; [1]] [INF; INF] [0; 1] [0; 1]), 0, [(1, 1)].
  split; [|split; [|split]].
  - apply (reach_match 1 1 [(1, 1)] (addEdges (construct 1 1) [(1, 1)]) _ 1).
    + apply (reachable_fresh 1 1 [(1, 1)]); lia.
    + vm_compute. reflexivity.
  - vm_compute. reflexivity.
  - vm_compute. reflexivity.
  - simpl. lia.
Qed.

(** C5 (as amended).  On every reachable engine a second call of
    [maxMatching], with no [addEdge] in between, leaves the whole state,
    and so the pair set, as the first call left it, and returns [0], the
    number of augmentations it made. *)
Theorem second_call_keeps_pairs l r calls g :
  reachable l r calls g ->
  exists g1 k1 ps,
    maxMatching g = Ok (g1, k1) /\
    maxMatching g1 = Ok (g1, 0) /\
    getMatchingPairs g1 = Ok ps /\ zlen ps = msize g + k1.
Proof.
  intros Hreach.
  pose proof (en_valid _ _ _ _ (reachable_Engine _ _ _ _ Hreach)) as Hv.
  destruct (maxMatching_spec _ Hv) as (g1 & k1 & E & V1 & G1 & M1 & (log & Eb & _)).
  exists g1, k1, (pairs_of g1).
  split; [exact E|]. split; [|split].
  - destruct (budgets_same g g1 (va_shape _ Hv) (va_shape _ V1) G1) as (B1 & _ & _).
    unfold maxMatching, maxMatching_fuel, phase_budget. simpl.
    rewrite B1, Eb. reflexivity.
  - apply getMatchingPairs_spec. exact (va_shape _ V1).
  - rewrite length_pairs_of. lia.
Qed.

Lemma second_call_keeps_pairs_witness :
  reachable 2 2 [(1, 1); (1, 2); (2, 1)]
    (addEdges (construct 2 2) [(1, 1); (1, 2); (2, 1)]) /\
  exists g1 k1 ps,
    maxMatching (addEdges (construct 2 2) [(1, 1); (1, 2); (2, 1)]) = Ok (g1, k1) /\
    maxMatching g1 = Ok (g1, 0) /\
    getMatchingPairs g1 = Ok ps /\
    zlen ps = msize (addEdges (construct 2 2) [(1, 1); (1, 2); (2, 1)]) + k1.
Proof.
  assert (H : reachable 2 2 [(1, 1); (1, 2); (2, 1)]
                (addEdges (construct 2 2) [(1, 1); (1, 2); (2, 1)]))
    by (apply reachable_fresh; lia).
  split; [exact H|].
  exact (second_call_keeps_pairs 2 2 _ _ H).
Defined.

(** C5 as stated fails: with one left vertex, one right vertex and the
    edge [(1, 1)], the first call returns [1] and the second returns [0]. *)
Lemma second_call_returns_zero :
  exists g1 k1 g2 k2,
    maxMatching (addEdges (construct 1 1) [(1, 1)]) = Ok (g1, k1) /\
    maxMatching g1 = Ok (g2, k2) /\
    k2 <> k1.
Proof.
  exists (mkGraph 1 1 [[]; [1]] [INF; INF] [0; 1] [0; 1]), 1,
         (mkGraph 1 1 [[]; [1]] [INF; INF] [0; 1] [0; 1]), 0.
  split; [vm_compute; reflexivity|]. split; [vm_compute; reflexivity|]. lia.
Qed.

(** C6.  A call [addEdge(u, v)] with [u] outside [1..nLeft] or [v] outside
    [1..nRight] reports [InvalidEdge] and returns the engine unchanged, so
    every later result is that of the engine without the call, and later
    calls of [addEdge] behave as on that engine. *)
Theorem addEdge_out_of_range g u v :
  u < 1 \/ nLeft g < u \/ v < 1 \/ nRight g < v ->
  addEdge g u v = (g, Some (InvalidEdge u v)) /\
  (forall es, addEdges (fst (addEdge g u v)) es = addEdges g es) /\
  (forall es, maxMatching (addEdges (fst (addEdge g u v)) es) =
              maxMatching (addEdges g es)) /\
  (forall es, getMatchingPairs (addEdges (fst (addEdge g u v)) es) =
              getMatchingPairs (addEdges g es)).
Proof.
  intros H.
  assert (E : addEdge g u v = (g, Some (InvalidEdge u v))).
  { apply addEdge_rejected. unfold in_range; simpl.
    destruct (Z.ltb_spec u 1), (Z.ltb_spec (nLeft g) u), (Z.ltb_spec v 1),
      (Z.ltb_spec (nRight g) v); simpl; try reflexivity; lia. }
  rewrite E. simpl. repeat split; reflexivity.
Qed.

Lemma addEdge_out_of_range_witness :
  (0 < 1 \/ nLeft (construct 2 2) < 0 \/ 3 < 1 \/ nRight (construct 2 2) < 3) /\
  addEdge (construct 2 2) 0 3 = (construct 2 2, Some (InvalidEdge 0 3)) /\
  (forall es, addEdges (fst (addEdge (construct 2 2) 0 3)) es =
              addEdges (construct 2 2) es) /\
  (forall es, maxMatching (addEdges (fst (addEdge (construct 2 2) 0 3)) es) =
              maxMatching (addEdges (construct 2 2) es)) /\
  (forall es, getMatchingPairs (addEdges (fst (addEdge (construct 2 2) 0 3)) es) =
              getMatchingPairs (addEdges (construct 2 2) es)).
Proof.
  split; [left; lia|].
  apply (addEdge_out_of_range (construct 2 2) 0 3). left; lia.
Defined.

(** C7.  On every reachable engine [getMatchingPairs] returns, by strictly
    increasing left vertex, exactly the pairs [(u, pairU[u])] with
    [pairU[u] <> 0]; each returned pair is within the bounds and is an
    accepted [addEdge] call; before any [maxMatching] the result is empty.
    ([getMatchingPairs] is a function of the state only: it writes
    nothing.) *)
Theorem getMatchingPairs_correct l r calls g :
  reachable l r calls g ->
  (exists ps,
     getMatchingPairs g = Ok ps /\
     StronglySorted Z.lt (map fst ps) /\
     (forall u v, In (u, v) ps <->
                  1 <= u <= l /\ v = pairUA g u /\ v <> 0) /\
     (forall u v, In (u, v) ps ->
                  1 <= u <= l /\ 1 <= v <= r /\ In (u, v) (accepted l r calls))) /\
  (forall es, getMatchingPairs (addEdges (construct l r) es) = Ok []).
Proof.
  intros Hreach.
  pose proof (reachable_Engine _ _ _ _ Hreach) as [Hv El Er He].
  pose proof (va_shape _ Hv) as Hs.
  split.
  - exists (pairs_of g).
    split; [apply getMatchingPairs_spec; exact Hs|].
    split; [apply pairs_of_sorted|]. split.
    + intros u v. rewrite In_pairs_of, El. reflexivity.
    + intros u v Hin. apply In_pairs_of in Hin as (Hu & -> & Hne).
      pose proof (q_range _ _ (va_match _ Hv) u ltac:(lia)) as Hrg.
      split; [lia|]. split; [lia|].
      apply He. split; [exact Hu|]. apply (q_edge _ _ (va_match _ Hv)); assumption.
  - intros es.
    assert (Hl : 0 <= l) by (rewrite <- El; exact (sh_nl _ Hs)).
    assert (Hr : 0 <= r) by (rewrite <- Er; exact (sh_nr _ Hs)).
    pose proof (reachable_Engine _ _ _ _ (reachable_fresh l r es Hl Hr)) as [Hv0 _ _ _].
    rewrite (getMatchingPairs_spec _ (va_shape _ Hv0)). f_equal.
    pose proof (length_pairs_of (addEdges (construct l r) es)) as Hlen.
    rewrite msize_fresh in Hlen.
    destruct (pairs_of (addEdges (construct l r) es)); [reflexivity|simpl in Hlen; lia].
Qed.

Lemma getMatchingPairs_correct_witness :
  exists g,
    reachable 2 2 [(1, 1); (1, 2); (2, 1)] g /\
    (exists ps,
       getMatchingPairs g = Ok ps /\
       StronglySorted Z.lt (map fst ps) /\
       (forall u v, In (u, v) ps <->
                    1 <= u <= 2 /\ v = pairUA g u /\ v <> 0) /\
       (forall u v, In (u, v) ps ->
                    1 <= u <= 2 /\ 1 <= v <= 2 /\
                    In (u, v) (accepted 2 2 [(1, 1); (1, 2); (2, 1)]))) /\
    (forall es, getMatchingPairs (addEdges (construct 2 2) es) = Ok []).
Proof.
  exists (mkGraph 2 2 [[]; [1; 2]; [1]] [INF; INF; INF] [0; 2; 1] [0; 2; 1]).
  assert (H : reachable 2 2 [(1, 1); (1, 2); (2, 1)]
                (mkGraph 2 2 [[]; [1; 2]; [1]] [INF; INF; INF] [0; 2; 1] [0; 2; 1])).
  { apply (reach_match 2 2 _ (addEdges (construct 2 2) [(1, 1); (1, 2); (2, 1)]) _ 2).
    - apply (reachable_fresh 2 2 [(1, 1); (1, 2); (2, 1)]); lia.
    - vm_compute. reflexivity. }
  split; [exact H|].
  exact (getMatchingPairs_correct 2 2 _ _ H).
Defined.

(** C8 (as amended).  For two engines with the same [0 <= l] and
    [0 <= r], of which [l < INF] or [r < INF], whose accepted edges are the
    same except that one of them received one more valid edge [(u, v)]
    before the computation, the size returned for the engine with the extra
    edge is at least the size returned for the other. *)
Theorem extra_edge_monotone l r es0 es1 u v :
  0 <= l -> 0 <= r -> l < INF \/ r < INF ->
  1 <= u <= l -> 1 <= v <= r ->
  (forall e, In e (accepted l r es1) <->
             In e (accepted l r es0) \/ e = (u, v)) ->
  exists g0 k0 g1 k1,
    maxMatching (addEdges (construct l r) es0) = Ok (g0, k0) /\
    maxMatching (addEdges (construct l r) es1) = Ok (g1, k1) /\
    k0 <= k1.
Proof.
  intros Hl Hr Hinf Hu Hv Hacc.
  destruct (reachable_maximum l r es0 _ (reachable_fresh l r es0 Hl Hr))
    as (g0 & k0 & E0 & _ & Hk0 & Hm0 & _).
  destruct (reachable_maximum l r es1 _ (reachable_fresh l r es1 Hl Hr))
    as (g1 & k1 & E1 & _ & Hk1 & _ & Hmax1).
  rewrite msize_fresh in Hk0, Hk1.
  exists g0, k0, g1, k1. split; [exact E0|]. split; [exact E1|].
  assert (zlen (pairs_of g0) <= msize g1).
  { apply (Hmax1 Hinf).
    apply (is_matching_ext (fun a b => In (a, b) (accepted l r es0))); [|exact Hm0].
    intros a b Hin. apply Hacc. left. exact Hin. }
  rewrite length_pairs_of in *. lia.
Qed.

Lemma extra_edge_monotone_witness :
  0 <= 2 /\ 0 <= 2 /\ (2 < INF \/ 2 < INF) /\ 1 <= 2 <= 2 /\ 1 <= 2 <= 2 /\
  (forall e, In e (accepted 2 2 [(1, 1); (2, 2)]) <->
             In e (accepted 2 2 [(1, 1)]) \/ e = (2, 2)) /\
  exists g0 k0 g1 k1,
    maxMatching (addEdges (construct 2 2) [(1, 1)]) = Ok (g0, k0) /\
    maxMatching (addEdges (construct 2 2) [(1, 1); (2, 2)]) = Ok (g1, k1) /\
    k0 <= k1.
Proof.
  assert (H : forall e, In e (accepted 2 2 [(1, 1); (2, 2)]) <->
                        In e (accepted 2 2 [(1, 1)]) \/ e = (2, 2)).
  { intros e. simpl. split; intros Hx.
    - destruct Hx as [<-|[<-|[]]]; [left; left; reflexivity|right; reflexivity].
    - destruct Hx as [[<-|[]]| ->]; [left; reflexivity|right; left; reflexivity]. }
  split; [lia|]. split; [lia|]. split; [left; reflexivity|]. split; [lia|].
  split; [lia|]. split; [exact H|].
  apply (extra_edge_monotone 2 2 [(1, 1)] [(1, 1); (2, 2)] 2 2);
    [lia|lia|left; reflexivity|lia|lia|exact H].
Defined.

(** C8 as stated fails: with [INF] left and right vertices, the chain
    without the edge [(1, 1)] gets [INF] pairs, and the same chain with the
    valid edge [(1, 1)] added gets [INF - 1]. *)
Lemma extra_edge_loses_a_pair :
  (forall e, In e (accepted INF INF (chain_calls true INF)) <->
             In e (accepted INF INF (chain_calls false INF)) \/ e = (1, 1)) /\
  exists g0 g1,
    maxMatching (addEdges (construct INF INF) (chain_calls false INF)) = Ok (g0, INF) /\
    maxMatching (addEdges (construct INF INF) (chain_calls true INF)) = Ok (g1, INF - 1).
Proof.
  split; [exact (chain_edges_differ INF INF_ge_2)|].
  destruct (chain_maxMatching_without INF INF_ge_2) as [g0 E0].
  destruct (chain_maxMatching_with INF INF_ge_2 eq_refl) as [g1 E1].
  exists g0, g1.
  rewrite (chain_built true INF INF_ge_2), (chain_built false INF INF_ge_2).
  split; [exact E0|exact E1].
Qed.

(** C9 (as amended).  On every reachable engine, in every phase of
    [maxMatching], every layer number that the layering pass writes by
    [dist[pairV[v]] = dist[u] + 1] is at least [1] and at most the number
    of left vertices and the number of right vertices; so, when there are
    fewer than [INF] left vertices or fewer than [INF] right vertices, it
    is strictly below the sentinel [INF]. *)
Theorem layers_below_INF l r calls g0 :
  reachable l r calls g0 ->
  forall g m, phase_state (bfs_budget g0) (dfs_budget g0) g0 g m ->
  exists log,
    bfs_writes (bfs_budget g0) g = Ok log /\
    Forall (fun w => 1 <= w <= l /\ w <= r) log /\
    (l < INF \/ r < INF -> Forall (fun w => w < INF) log).
Proof.
  intros Hreach g m Hps.
  pose proof (reachable_Engine _ _ _ _ Hreach) as [Hv0 El Er _].
  destruct (phase_state_Valid _ _ g0 g m Hv0 (Nat.le_refl _) (Nat.le_refl _) Hps)
    as (Hv & G & _).
  destruct (budgets_same g0 g (va_shape _ Hv0) (va_shape _ Hv) G) as (B1 & _ & _).
  destruct (bfs_fuel_spec (bfs_budget g0) g Hv ltac:(lia))
    as (g' & more & log & E & Ew & Hpost).
  destruct (bfs_right (bfs_budget g0) g g' more Hv E) as (log' & Ew' & Hright & _).
  rewrite Ew in Ew'. injection Ew' as <-.
  assert (Hboth : Forall (fun w => 1 <= w <= l /\ w <= r) log).
  { apply List.Forall_forall. intros w Hw.
    pose proof (proj1 (List.Forall_forall _ _) (bp_log _ _ _ _ Hpost) w Hw) as H1.
    pose proof (proj1 (List.Forall_forall _ _) Hright w Hw) as H2.
    cbn beta in H1, H2. rewrite (proj1 G), El in H1.
    rewrite (proj1 (proj2 G)), Er in H2. lia. }
  exists log. split; [exact Ew|]. split; [exact Hboth|].
  intros Hinf. eapply List.Forall_impl; [|exact Hboth].
  intros w Hw. cbn beta in Hw. lia.
Qed.

Lemma layers_below_INF_witness :
  reachable 2 2 [(1, 1); (2, 1); (2, 2)]
    (addEdges (construct 2 2) [(1, 1); (2, 1); (2, 2)]) /\
  phase_state (bfs_budget (addEdges (construct 2 2) [(1, 1); (2, 1); (2, 2)]))
              (dfs_budget (addEdges (construct 2 2) [(1, 1); (2, 1); (2, 2)]))
              (addEdges (construct 2 2) [(1, 1); (2, 1); (2, 2)])
              (addEdges (construct 2 2) [(1, 1); (2, 1); (2, 2)]) 0 /\
  exists log,
    bfs_writes (bfs_budget (addEdges (construct 2 2) [(1, 1); (2, 1); (2, 2)]))
               (addEdges (construct 2 2) [(1, 1); (2, 1); (2, 2)]) = Ok log /\
    Forall (fun w => 1 <= w <= 2 /\ w <= 2) log /\
    (2 < INF \/ 2 < INF -> Forall (fun w => w < INF) log).
Proof.
  assert (H : reachable 2 2 [(1, 1); (2, 1); (2, 2)]
                (addEdges (construct 2 2) [(1, 1); (2, 1); (2, 2)]))
    by (apply reachable_fresh; lia).
  split; [exact H|]. split; [apply ps_start|].
  apply (layers_below_INF 2 2 _ _ H _ 0). apply ps_start.
Defined.

(** C9 as stated fails: on the chain with [INF] left vertices, the
    layering pass of the second phase writes the layer number [INF]
    itself. *)
Lemma layer_reaches_INF :
  exists g0 g m log,
    reachable INF INF (chain_calls true INF) g0 /\
    phase_state (bfs_budget g0) (dfs_budget g0) g0 g m /\
    bfs_writes (bfs_budget g0) g = Ok log /\
    In INF log.
Proof.
  destruct (chain_layer_N INF INF_ge_2 (Z.le_refl INF)) as (Hps & log & Ew & Hin).
  exists (chain0 true INF), (chain_with INF), (INF - 1), log.
  split; [|split; [exact Hps|split; [exact Ew|exact Hin]]].
  rewrite <- (chain_built true INF INF_ge_2).
  apply reachable_fresh; unfold INF; lia.
Qed.

(** C10.  On every reachable engine, whatever the fuel, no access of
    [maxMatching], of [getMatchingPairs], or of [bfs] and [dfs] in a phase
    state, indexes a vector outside its bounds: [adj], [dist] and [pairU]
    have [l + 1] entries and [pairV] has [r + 1], and the out-of-bounds
    result is never produced. *)
Theorem accesses_in_bounds l r calls g0 :
  reachable l r calls g0 ->
  forall pfuel bfuel dfuel,
    maxMatching_fuel pfuel bfuel dfuel g0 <> OutOfBounds /\
    getMatchingPairs g0 <> OutOfBounds /\
    forall g m, phase_state bfuel dfuel g0 g m ->
      zlen (adj g) = l + 1 /\ zlen (dist g) = l + 1 /\
      zlen (pairU g) = l + 1 /\ zlen (pairV g) = r + 1 /\
      bfs_fuel bfuel g <> OutOfBounds /\
      forall u, 0 <= u <= l -> dfs_fuel dfuel g u <> OutOfBounds.
Proof.
  intros Hreach pfuel bfuel dfuel.
  pose proof (reachable_Engine _ _ _ _ Hreach) as [Hv El Er _].
  pose proof (va_shape _ Hv) as Hs.
  split; [|split].
  - unfold maxMatching_fuel. eapply no_oob_neq. apply phases_safe. exact Hs.
  - rewrite getMatchingPairs_spec by exact Hs. discriminate.
  - intros g m Hps.
    destruct (phase_state_Shape _ _ _ _ _ Hs Hps) as [Hsg (En & Enr & _)].
    rewrite <- El, <- Er, <- En, <- Enr.
    split; [exact (sh_adj _ Hsg)|]. split; [exact (sh_dist _ Hsg)|].
    split; [exact (sh_pairU _ Hsg)|]. split; [exact (sh_pairV _ Hsg)|].
    split.
    + eapply no_oob_neq. apply bfs_fuel_safe. exact Hsg.
    + intros u Hu. eapply no_oob_neq. apply dfs_fuel_safe; [exact Hsg|exact Hu].
Qed.

Lemma accesses_in_bounds_witness :
  reachable 3 3 [(1, 1); (2, 1); (3, 1); (4, 1)]
    (addEdges (construct 3 3) [(1, 1); (2, 1); (3, 1); (4, 1)]) /\
  forall pfuel bfuel dfuel,
    maxMatching_fuel pfuel bfuel dfuel
      (addEdges (construct 3 3) [(1, 1); (2, 1); (3, 1); (4, 1)]) <> OutOfBounds /\
    getMatchingPairs (addEdges (construct 3 3) [(1, 1); (2, 1); (3, 1); (4, 1)])
      <> OutOfBounds /\
    forall g m,
      phase_state bfuel dfuel
        (addEdges (construct 3 3) [(1, 1); (2, 1); (3, 1); (4, 1)]) g m ->
      zlen (adj g) = 3 + 1 /\ zlen (dist g) = 3 + 1 /\
      zlen (pairU g) = 3 + 1 /\ zlen (pairV g) = 3 + 1 /\
      bfs_fuel bfuel g <> OutOfBounds /\
      forall u, 0 <= u <= 3 -> dfs_fuel dfuel g u <> OutOfBounds.
Proof.
  assert (H : reachable 3 3 [(1, 1); (2, 1); (3, 1); (4, 1)]
                (addEdges (construct 3 3) [(1, 1); (2, 1); (3, 1); (4, 1)]))
    by (apply reachable_fresh; lia).
  split; [exact H|].
  exact (accesses_in_bounds 3 3 _ _ H).
Defined.

(** * Further theorems *)

(** X1.  [BipartiteGraph(l, r)] with [0 <= l < INT_MAX] and
    [0 <= r < INT_MAX] (so that [nLeft + 1] and [nRight + 1] are [int]s)
    gives the engine whose vectors [adj], [dist] and [pairU] have exactly
    the indices [0..l], and [pairV] exactly the indices [0..r]; every
    adjacency list is empty, every layer number is [INF], and every pair
    entry is the sentinel [0]. *)
Theorem construct_vectors l r i :
  0 <= l < INT_MAX -> 0 <= r < INT_MAX ->
  construct_int l r = Some (construct l r) /\
  nLeft (construct l r) = l /\ nRight (construct l r) = r /\
  vget (adj (construct l r)) i =
    (if (0 <=? i) && (i <=? l) then Ok [] else OutOfBounds) /\
  vget (dist (construct l r)) i =
    (if (0 <=? i) && (i <=? l) then Ok INF else OutOfBounds) /\
  vget (pairU (construct l r)) i =
    (if (0 <=? i) && (i <=? l) then Ok 0 else OutOfBounds) /\
  vget (pairV (construct l r)) i =
    (if (0 <=? i) && (i <=? r) then Ok 0 else OutOfBounds).
Proof.
  intros Hl Hr. split.
  { unfold construct_int.
    destruct (Z.leb_spec (-1) l); [|lia]. destruct (Z.ltb_spec l INT_MAX); [|lia].
    destruct (Z.leb_spec (-1) r); [|lia]. destruct (Z.ltb_spec r INT_MAX); [|lia].
    reflexivity. }
  unfold construct; cbn [nLeft nRight adj dist pairU pairV].
  rewrite !vget_repeat.
  replace (i <? Z.of_nat (Z.to_nat (l + 1))) with (i <=? l)
    by (destruct (Z.leb_spec i l), (Z.ltb_spec i (Z.of_nat (Z.to_nat (l + 1)))); lia).
  replace (i <? Z.of_nat (Z.to_nat (r + 1))) with (i <=? r)
    by (destruct (Z.leb_spec i r), (Z.ltb_spec i (Z.of_nat (Z.to_nat (r + 1)))); lia).
  repeat split.
Qed.

Lemma construct_vectors_witness :
  0 <= 2 < INT_MAX /\ 0 <= 1 < INT_MAX /\
  construct_int 2 1 = Some (construct 2 1) /\
  nLeft (construct 2 1) = 2 /\ nRight (construct 2 1) = 1 /\
  vget (adj (construct 2 1)) 2 =
    (if (0 <=? 2) && (2 <=? 2) then Ok [] else OutOfBounds) /\
  vget (dist (construct 2 1)) 2 =
    (if (0 <=? 2) && (2 <=? 2) then Ok INF else OutOfBounds) /\
  vget (pairU (construct 2 1)) 2 =
    (if (0 <=? 2) && (2 <=? 2) then Ok 0 else OutOfBounds) /\
  vget (pairV (construct 2 1)) 2 =
    (if (0 <=? 2) && (2 <=? 1) then Ok 0 else OutOfBounds).
Proof.
  split; [unfold INT_MAX; lia|]. split; [unfold INT_MAX; lia|].
  apply (construct_vectors 2 1 2); unfold INT_MAX; lia.
Defined.

(** X2.  A call [addEdge(u, v)] with [u] in [1..nLeft] and [v] in
    [1..nRight] writes no diagnostic, appends [v] at the end of [adj[u]],
    and leaves every other adjacency list, the sizes, [dist], [pairU] and
    [pairV] as they were. *)
Theorem addEdge_in_range g u v :
  Shape g -> 1 <= u <= nLeft g -> 1 <= v <= nRight g ->
  exists g',
    addEdge g u v = (g', None) /\
    Shape g' /\
    adjA g' u = adjA g u ++ [v] /\
    (forall x, 0 <= x -> x <> u -> adjA g' x = adjA g x) /\
    nLeft g' = nLeft g /\ nRight g' = nRight g /\
    dist g' = dist g /\ pairU g' = pairU g /\ pairV g' = pairV g.
Proof.
  intros Hs Hu Hv.
  assert (Hr : in_range (nLeft g) (nRight g) (u, v) = true)
    by (apply in_range_spec; split; assumption).
  pose proof (fun x => addEdge_adjA g u v x Hs Hr) as HA.
  rewrite (addEdge_accepted g u v Hr) in HA. cbn [fst] in HA.
  exists (set_adj g (alter (fun l => l ++ [v]) (Z.to_nat u) (adj g))).
  split; [apply addEdge_accepted; exact Hr|].
  split.
  - pose proof (Shape_addEdge g u v Hs) as Hs'.
    rewrite (addEdge_accepted g u v Hr) in Hs'. exact Hs'.
  - split; [rewrite HA by lia; rewrite Z.eqb_refl; reflexivity|].
    split; [|repeat split].
    intros x Hx Hne. rewrite HA by lia.
    destruct (Z.eqb_spec x u); [contradiction|reflexivity].
Qed.

Lemma addEdge_in_range_witness :
  Shape (construct 2 2) /\ 1 <= 2 <= nLeft (construct 2 2) /\
  1 <= 1 <= nRight (construct 2 2) /\
  exists g',
    addEdge (construct 2 2) 2 1 = (g', None) /\
    Shape g' /\
    adjA g' 2 = adjA (construct 2 2) 2 ++ [1] /\
    (forall x, 0 <= x -> x <> 2 -> adjA g' x = adjA (construct 2 2) x) /\
    nLeft g' = nLeft (construct 2 2) /\ nRight g' = nRight (construct 2 2) /\
    dist g' = dist (construct 2 2) /\ pairU g' = pairU (construct 2 2) /\
    pairV g' = pairV (construct 2 2).
Proof.
  assert (Hs : Shape (construct 2 2))
    by (apply va_shape, Valid_construct; lia).
  split; [exact Hs|]. split; [simpl; lia|]. split; [simpl; lia|].
  apply (addEdge_in_range (construct 2 2) 2 1 Hs); simpl; lia.
Defined.

(** X3.  On an engine built by the constructor and [addEdge] calls, the
    adjacency list of a left vertex [u] holds the right ends of the
    accepted calls [addEdge(u, _)], in the order of the calls and with
    their repetitions. *)
Theorem adjacency_in_call_order l r es u :
  0 <= l -> 0 <= r -> 0 <= u <= l ->
  vget (adj (addEdges (construct l r) es)) u =
  Ok (calls_at u (accepted l r es)).
Proof.
  intros Hl Hr Hu.
  pose proof (va_shape _ (Valid_construct l r Hl Hr)) as Hs.
  pose proof (reachable_Engine _ _ _ _ (reachable_fresh l r es Hl Hr)) as [Hv El _ _].
  rewrite (vget_ok []) by (rewrite (sh_adj _ (va_shape _ Hv)), El; lia).
  fold (adjA (addEdges (construct l r) es) u).
  rewrite (addEdges_adjA es (construct l r) u Hs) by lia.
  unfold adjA at 1; cbn [adj construct]. rewrite vat_repeat by lia. reflexivity.
Qed.

Lemma adjacency_in_call_order_witness :
  0 <= 2 /\ 0 <= 2 /\ 0 <= 1 <= 2 /\
  vget (adj (addEdges (construct 2 2) [(1, 2); (2, 1); (1, 3); (1, 1); (1, 2)])) 1 =
  Ok (calls_at 1 (accepted 2 2 [(1, 2); (2, 1); (1, 3); (1, 1); (1, 2)])).
Proof.
  split; [lia|]. split; [lia|]. split; [lia|].
  apply (adjacency_in_call_order 2 2 [(1, 2); (2, 1); (1, 3); (1, 1); (1, 2)] 1); lia.
Defined.

(** X4.  Two calls of [addEdge] for different left vertices commute: the
    engine they leave does not depend on their order. *)
Theorem addEdge_commute g u1 v1 u2 v2 :
  u1 <> u2 ->
  fst (addEdge (fst (addEdge g u1 v1)) u2 v2) =
  fst (addEdge (fst (addEdge g u2 v2)) u1 v1).
Proof.
  intros Hne. unfold addEdge.
  destruct ((u1 <? 1) || (nLeft g <? u1) || (v1 <? 1) || (nRight g <? v1)) eqn:H1;
    destruct ((u2 <? 1) || (nLeft g <? u2) || (v2 <? 1) || (nRight g <? v2)) eqn:H2;
    cbn [fst set_adj nLeft nRight adj dist pairU pairV];
    rewrite ?H1, ?H2; cbn [fst set_adj nLeft nRight adj dist pairU pairV];
    try reflexivity.
  f_equal. apply list_alter_alter_ne.
  apply orb_false_iff in H1 as [H1 _]. apply orb_false_iff in H1 as [H1 _].
  apply orb_false_iff in H1 as [H1 _]. apply Z.ltb_ge in H1.
  apply orb_false_iff in H2 as [H2 _]. apply orb_false_iff in H2 as [H2 _].
  apply orb_false_iff in H2 as [H2 _]. apply Z.ltb_ge in H2.
  lia.
Qed.

Lemma addEdge_commute_witness :
  1 <> 2 /\
  fst (addEdge (fst (addEdge (construct 2 2) 1 2)) 2 1) =
  fst (addEdge (fst (addEdge (construct 2 2) 2 1)) 1 2).
Proof.
  split; [lia|]. apply (addEdge_commute (construct 2 2) 1 2 2 1). lia.
Defined.

(** X5.  On a valid engine [bfs] returns; it writes [dist] only (the
    sizes, [adj], [pairU] and [pairV] are as before); every free left
    vertex is in layer [0], every layer number is between [0] and [INF],
    and the answer is [true] exactly when the sentinel vertex [0] got a
    layer number. *)
Theorem bfs_writes_dist_only g :
  Valid g ->
  exists g' more,
    bfs g = Ok (g', more) /\
    nLeft g' = nLeft g /\ nRight g' = nRight g /\ adj g' = adj g /\
    pairU g' = pairU g /\ pairV g' = pairV g /\
    zlen (dist g') = zlen (dist g) /\
    (forall u, 1 <= u <= nLeft g -> pairUA g u = 0 -> distA g' u = 0) /\
    (forall x, 0 <= x <= nLeft g -> 0 <= distA g' x <= INF) /\
    (more = true <-> distA g' 0 <> INF).
Proof.
  intros Hv. unfold bfs.
  destruct (bfs_fuel_spec (bfs_budget g) g Hv (Nat.le_refl _))
    as (g' & more & log & E & _ & Hpost).
  destruct (bp_same _ _ _ _ Hpost) as (En & Er & Ea).
  pose proof (bp_valid _ _ _ _ Hpost) as Hv'.
  exists g', more. split; [exact E|].
  split; [exact En|]. split; [exact Er|]. split; [exact Ea|].
  split; [exact (bp_pu _ _ _ _ Hpost)|]. split; [exact (bp_pv _ _ _ _ Hpost)|].
  split.
  { rewrite (sh_dist _ (va_shape _ Hv')), (sh_dist _ (va_shape _ Hv)), En. reflexivity. }
  split; [exact (bp_free _ _ _ _ Hpost)|].
  split.
  { intros x Hx. apply (va_dist _ Hv'). rewrite En. exact Hx. }
  rewrite (bp_more _ _ _ _ Hpost).
  destruct (Z.eqb_spec (distA g' 0) INF) as [Ei|Hne]; cbn [negb]; split;
    intros H; try reflexivity; try discriminate; try assumption; contradiction.
Qed.

Lemma bfs_writes_dist_only_witness :
  Valid (addEdges (construct 2 2) [(1, 1); (2, 1)]) /\
  exists g' more,
    bfs (addEdges (construct 2 2) [(1, 1); (2, 1)]) = Ok (g', more) /\
    nLeft g' = nLeft (addEdges (construct 2 2) [(1, 1); (2, 1)]) /\
    nRight g' = nRight (addEdges (construct 2 2) [(1, 1); (2, 1)]) /\
    adj g' = adj (addEdges (construct 2 2) [(1, 1); (2, 1)]) /\
    pairU g' = pairU (addEdges (construct 2 2) [(1, 1); (2, 1)]) /\
    pairV g' = pairV (addEdges (construct 2 2) [(1, 1); (2, 1)]) /\
    zlen (dist g') = zlen (dist (addEdges (construct 2 2) [(1, 1); (2, 1)])) /\
    (forall u, 1 <= u <= nLeft (addEdges (construct 2 2) [(1, 1); (2, 1)]) ->
               pairUA (addEdges (construct 2 2) [(1, 1); (2, 1)]) u = 0 ->
               distA g' u = 0) /\
    (forall x, 0 <= x <= nLeft (addEdges (construct 2 2) [(1, 1); (2, 1)]) ->
               0 <= distA g' x <= INF) /\
    (more = true <-> distA g' 0 <> INF).
Proof.
  assert (Hv : Valid (addEdges (construct 2 2) [(1, 1); (2, 1)])).
  { apply (en_valid 2 2 [(1, 1); (2, 1)]). apply reachable_Engine.
    apply reachable_fresh; lia. }
  split; [exact Hv|].
  exact (bfs_writes_dist_only _ Hv).
Defined.

(** X6.  [bfs] overwrites every entry of [dist] before it reads one: its
    result does not depend on the layer numbers left in [dist] by earlier
    calls. *)
Theorem bfs_ignores_old_dist g d :
  Shape g -> zlen d = zlen (dist g) ->
  bfs (set_dist g d) = bfs g.
Proof.
  intros Hs Hd.
  assert (Hs' : Shape (set_dist g d)) by (apply Shape_set_dist; assumption).
  assert (Eb : bfs_budget (set_dist g d) = bfs_budget g).
  { unfold bfs_budget, max_degree. cbn [set_dist dist adj].
    assert (length d = length (dist g)) by lia. congruence. }
  unfold bfs. rewrite Eb.
  rewrite (bfs_fuel_unfold _ _ Hs'), (bfs_fuel_unfold _ _ Hs).
  destruct (seeded_ext g (set_dist g d)) as [-> ->];
    [apply same_graph_set_dist|reflexivity|reflexivity|reflexivity].
Qed.

Lemma bfs_ignores_old_dist_witness :
  Shape (addEdges (construct 2 2) [(1, 1); (2, 1)]) /\
  zlen [5; 7; 9] = zlen (dist (addEdges (construct 2 2) [(1, 1); (2, 1)])) /\
  bfs (set_dist (addEdges (construct 2 2) [(1, 1); (2, 1)]) [5; 7; 9]) =
  bfs (addEdges (construct 2 2) [(1, 1); (2, 1)]).
Proof.
  assert (Hs : Shape (addEdges (construct 2 2) [(1, 1); (2, 1)])).
  { apply va_shape. apply (en_valid 2 2 [(1, 1); (2, 1)]). apply reachable_Engine.
    apply reachable_fresh; lia. }
  split; [exact Hs|]. split; [reflexivity|].
  apply (bfs_ignores_old_dist _ [5; 7; 9] Hs). reflexivity.
Defined.

(** X7.  When no left vertex is free the queue of [bfs] starts empty:
    [bfs] answers [false] and leaves every layer number at [INF]. *)
Theorem bfs_without_free_vertex g :
  Shape g ->
  (forall u, 1 <= u <= nLeft g -> pairUA g u <> 0) ->
  exists g',
    bfs g = Ok (g', false) /\
    (forall x, 0 <= x <= nLeft g -> vget (dist g') x = Ok INF) /\
    nLeft g' = nLeft g /\ nRight g' = nRight g /\ adj g' = adj g /\
    pairU g' = pairU g /\ pairV g' = pairV g.
Proof.
  intros Hs Hm.
  assert (Hq : seed_queue g = []).
  { unfold seed_queue. rewrite (List.filter_ext_in _ (fun _ => false)).
    - apply List.filter_false.
    - intros u Hu. apply In_range1 in Hu. unfold is_free.
      destruct (Z.eqb_spec (pairUA g u) 0) as [E|]; [|reflexivity].
      exfalso. exact (Hm u Hu E). }
  assert (Hd : forall x, 0 <= x <= nLeft g -> distA (seeded g) x = INF).
  { intros x Hx. rewrite seeded_distA by exact Hx. unfold seed_dist, is_free.
    destruct (Z.eqb_spec x 0); [reflexivity|].
    destruct (Z.eqb_spec (pairUA g x) 0) as [E|]; [|reflexivity].
    exfalso. apply (Hm x); [lia|exact E]. }
  pose proof (Shape_seeded g Hs) as Hss.
  exists (seeded g). unfold bfs. rewrite (bfs_fuel_unfold _ _ Hs), Hq.
  unfold bfs_budget at 1. cbn [bfs_loop rbind].
  assert (Hlen : zlen (dist (seeded g)) = nLeft g + 1)
    by (rewrite (sh_dist _ Hss); reflexivity).
  pose proof (sh_nl _ Hs) as Hn.
  rewrite (vget_ok 0) by lia. cbn [rbind].
  fold (distA (seeded g) 0). rewrite Hd by lia. rewrite Z.eqb_refl. cbn [negb].
  split; [reflexivity|]. split; [|repeat split].
  intros x Hx. rewrite (vget_ok 0) by lia.
  fold (distA (seeded g) x). rewrite Hd by exact Hx. reflexivity.
Qed.

Lemma bfs_without_free_vertex_witness :
  Shape (mkGraph 1 1 [[]; [1]] [INF; 0] [0; 1] [0; 1]) /\
  (forall u, 1 <= u <= nLeft (mkGraph 1 1 [[]; [1]] [INF; 0] [0; 1] [0; 1]) ->
             pairUA (mkGraph 1 1 [[]; [1]] [INF; 0] [0; 1] [0; 1]) u <> 0) /\
  exists g',
    bfs (mkGraph 1 1 [[]; [1]] [INF; 0] [0; 1] [0; 1]) = Ok (g', false) /\
    (forall x, 0 <= x <= nLeft (mkGraph 1 1 [[]; [1]] [INF; 0] [0; 1] [0; 1]) ->
               vget (dist g') x = Ok INF) /\
    nLeft g' = nLeft (mkGraph 1 1 [[]; [1]] [INF; 0] [0; 1] [0; 1]) /\
    nRight g' = nRight (mkGraph 1 1 [[]; [1]] [INF; 0] [0; 1] [0; 1]) /\
    adj g' = adj (mkGraph 1 1 [[]; [1]] [INF; 0] [0; 1] [0; 1]) /\
    pairU g' = pairU (mkGraph 1 1 [[]; [1]] [INF; 0] [0; 1] [0; 1]) /\
    pairV g' = pairV (mkGraph 1 1 [[]; [1]] [INF; 0] [0; 1] [0; 1]).
Proof.
  assert (Hm : forall u, 1 <= u <= nLeft (mkGraph 1 1 [[]; [1]] [INF; 0] [0; 1] [0; 1]) ->
             pairUA (mkGraph 1 1 [[]; [1]] [INF; 0] [0; 1] [0; 1]) u <> 0).
  { intros u Hu. cbn [nLeft] in Hu. assert (u = 1) as -> by lia. discriminate. }
  assert (Hs : Shape (mkGraph 1 1 [[]; [1]] [INF; 0] [0; 1] [0; 1])).
  { constructor; cbn [nLeft nRight adj dist pairU pairV length]; try lia.
    - intros u v Hu Hin. assert (u = 0 \/ u = 1) as [-> | ->] by lia.
      + destruct Hin.
      + destruct Hin as [<-|[]]. lia.
    - intros v Hv. assert (v = 0 \/ v = 1) as [-> | ->] by lia;
        unfold pairVA, vat; simpl; lia. }
  split; [exact Hs|]. split; [exact Hm|].
  exact (bfs_without_free_vertex _ Hs Hm).
Defined.

(** X18.  On a valid engine, every left vertex (and the sentinel) to which
    [bfs] gave a layer number is reached from a free left vertex of layer
    [0] along a path that goes, step by step, from a left vertex [u] over
    an edge [(u, v)] to the partner [pairV[v]], one layer up each time. *)
Theorem bfs_layers_are_paths g :
  Valid g ->
  exists g' more,
    bfs g = Ok (g', more) /\
    forall x, 0 <= x <= nLeft g -> distA g' x <> INF -> Reach g' x.
Proof.
  intros Hv. pose proof (va_shape _ Hv) as Hs. unfold bfs.
  destruct (bfs_fuel_spec (bfs_budget g) g Hv (Nat.le_refl _))
    as (g' & more & log & E & Ew & Hpost).
  exists g', more. split; [exact E|].
  rewrite (bfs_fuel_unfold _ g Hs) in E. rewrite (bfs_writes_unfold _ g Hs) in Ew.
  destruct (bfs_loop_log (bfs_budget g) (seeded g) (seed_queue g) [])
    as [[g2 log2]| |] eqn:Elog; cbn [rbind] in Ew; try discriminate.
  pose proof Elog as Eloop.
  apply (f_equal (rmap fst)) in Eloop. rewrite <- bfs_loop_erase in Eloop.
  cbn [rmap fst] in Eloop. rewrite Eloop in E. cbn [rbind] in E.
  destruct (vget (dist g2) 0) as [d0| |]; cbn [rbind] in E; try discriminate.
  injection E as <- _.
  pose proof (ReachInv_rule g _ _ _ _ _ _ (ReachInv_seeded g Hv) Elog)
    as (Hb & _ & Hreach).
  intros x Hx. apply Hreach. rewrite (proj1 (bb_same _ _ _ Hb)). exact Hx.
Qed.

Lemma bfs_layers_are_paths_witness :
  Valid (addEdges (construct 2 2) [(1, 1); (2, 1)]) /\
  exists g' more,
    bfs (addEdges (construct 2 2) [(1, 1); (2, 1)]) = Ok (g', more) /\
    forall x, 0 <= x <= nLeft (addEdges (construct 2 2) [(1, 1); (2, 1)]) ->
              distA g' x <> INF -> Reach g' x.
Proof.
  assert (Hv : Valid (addEdges (construct 2 2) [(1, 1); (2, 1)])).
  { apply (en_valid 2 2 [(1, 1); (2, 1)]). apply reachable_Engine.
    apply reachable_fresh; lia. }
  split; [exact Hv|].
  exact (bfs_layers_are_paths _ Hv).
Defined.

(** X8.  On a valid engine the answer of [bfs] tells whether the matching
    can grow: after [true] the graph has a matching with more edges than
    the current one; after [false], when there are fewer than [INF] left
    vertices, it has none. *)
Theorem bfs_answer_is_right g :
  Valid g ->
  exists g' more,
    bfs g = Ok (g', more) /\
    (more = true ->
       exists M, is_matching (edge g) M /\ msize g < zlen M) /\
    (more = false -> nLeft g < INF ->
       forall M, is_matching (edge g) M -> zlen M <= msize g).
Proof.
  intros Hv. unfold bfs.
  destruct (bfs_fuel_spec (bfs_budget g) g Hv (Nat.le_refl _))
    as (g1 & more & log & E & _ & Hpost).
  exists g1, more. split; [exact E|].
  pose proof (bp_valid _ _ _ _ Hpost) as Hv1.
  pose proof (bp_same _ _ _ _ Hpost) as G1.
  assert (Em : msize g1 = msize g)
    by (apply msize_ext; [exact (proj1 G1)|exact (bp_pu _ _ _ _ Hpost)]).
  split.
  - intros ->.
    destruct (augment_spec (dfs_budget g1) (range1 (nLeft g1)) g1 0 Hv1 (Nat.le_refl _))
      as (g2 & m2 & _ & V2 & G2 & M2 & _ & P2).
    { intros u Hu. apply In_range1. exact Hu. }
    assert (Hprog : 0 < m2).
    { apply P2. destruct (bp_path _ _ _ _ Hpost eq_refl) as (u & Hu & Hf & Hlr).
      exists u. split; [apply In_range1; rewrite (proj1 G1); exact Hu|].
      split; [|exact Hlr]. unfold pairUA. rewrite (bp_pu _ _ _ _ Hpost). exact Hf. }
    exists (pairs_of g2). split.
    + apply (is_matching_ext (edge g2)); [|apply pairs_of_matching; exact V2].
      intros u v He. apply (edge_same g g1 u v G1). apply (edge_same g1 g2 u v G2).
      exact He.
    + rewrite length_pairs_of. lia.
  - intros -> Hinf M HM.
    destruct (bfs_false_Final g g1 Hv E) as (_ & _ & _ & F).
    rewrite <- Em. apply (Final_maximum _ g1 Hv1 F).
    + rewrite (proj1 G1). exact Hinf.
    + apply (is_matching_ext (edge g)); [|exact HM].
      intros u v He. apply (edge_same g g1 u v G1). exact He.
Qed.

Lemma bfs_answer_is_right_witness :
  Valid (addEdges (construct 2 2) [(1, 1); (2, 1)]) /\
  exists g' more,
    bfs (addEdges (construct 2 2) [(1, 1); (2, 1)]) = Ok (g', more) /\
    (more = true ->
       exists M, is_matching (edge (addEdges (construct 2 2) [(1, 1); (2, 1)])) M /\
                 msize (addEdges (construct 2 2) [(1, 1); (2, 1)]) < zlen M) /\
    (more = false -> nLeft (addEdges (construct 2 2) [(1, 1); (2, 1)]) < INF ->
       forall M, is_matching (edge (addEdges (construct 2 2) [(1, 1); (2, 1)])) M ->
                 zlen M <= msize (addEdges (construct 2 2) [(1, 1); (2, 1)])).
Proof.
  assert (Hv : Valid (addEdges (construct 2 2) [(1, 1); (2, 1)])).
  { apply (en_valid 2 2 [(1, 1); (2, 1)]). apply reachable_Engine.
    apply reachable_fresh; lia. }
  split; [exact Hv|].
  exact (bfs_answer_is_right _ Hv).
Defined.

(** X9.  [dfs(u)] on a free left vertex [u] of a valid engine, after a
    layering pass, returns.  It answers [true] whenever a layered path
    leads from [u] to the sentinel.  After [true], [u] is matched, the
    pairs are again a valid matching with one pair more, and no other left
    vertex changed between free and matched.  After [false], [pairU] and
    [pairV] are untouched and [dist[u]] is [INF].  The graph is never
    written. *)
Theorem dfs_augments_or_kills g u :
  Valid g -> 1 <= u <= nLeft g -> pairUA g u = 0 ->
  exists g' found,
    dfs g u = Ok (g', found) /\
    Valid g' /\ same_graph g g' /\
    (LR g u -> found = true) /\
    (found = true ->
       pairUA g' u <> 0 /\ msize g' = msize g + 1 /\
       forall x, 1 <= x <= nLeft g -> x <> u ->
                 (pairUA g' x = 0 <-> pairUA g x = 0)) /\
    (found = false ->
       pairU g' = pairU g /\ pairV g' = pairV g /\ distA g' u = INF).
Proof.
  intros Hv Hu Hf. unfold dfs.
  destruct (dfs_fuel_spec (dfs_budget g) g u Hv Hu) as (g' & found & E & Hpost).
  { unfold dfs_budget. pose proof (above_le_length (distA g u) (dist g)). lia. }
  exists g', found. split; [exact E|].
  destruct found; cbn [dfs_post] in Hpost.
  - pose proof (Augmented_Valid g g' u Hv Hf Hpost) as Hv'.
    pose proof (Augmented_msize g g' u Hu Hf Hpost) as Hm.
    destruct Hpost as (Hfr & _ & Hne).
    split; [exact Hv'|]. split; [exact (fr_same _ _ _ _ Hfr)|].
    split; [reflexivity|]. split; [|discriminate].
    intros _. split; [exact Hne|]. split; [exact Hm|].
    exact (fr_free _ _ _ _ Hfr).
  - destruct Hpost as (Hl & Hn).
    split; [exact (Link_Valid _ _ _ Hv Hl)|]. split; [exact (lk_same _ _ _ Hl)|].
    split; [intros H; contradiction|]. split; [discriminate|].
    intros _. split; [exact (lk_pu _ _ _ Hl)|]. split; [exact (lk_pv _ _ _ Hl)|].
    exact (dfs_fuel_false _ _ _ _ E).
Qed.

Lemma dfs_augments_or_kills_witness :
  Valid (mkGraph 2 2 [[]; [1]; [1]] [1; 0; 0] [0; 0; 0] [0; 0; 0]) /\
  1 <= 1 <= nLeft (mkGraph 2 2 [[]; [1]; [1]] [1; 0; 0] [0; 0; 0] [0; 0; 0]) /\
  pairUA (mkGraph 2 2 [[]; [1]; [1]] [1; 0; 0] [0; 0; 0] [0; 0; 0]) 1 = 0 /\
  exists g' found,
    dfs (mkGraph 2 2 [[]; [1]; [1]] [1; 0; 0] [0; 0; 0] [0; 0; 0]) 1 = Ok (g', found) /\
    Valid g' /\
    same_graph (mkGraph 2 2 [[]; [1]; [1]] [1; 0; 0] [0; 0; 0] [0; 0; 0]) g' /\
    (LR (mkGraph 2 2 [[]; [1]; [1]] [1; 0; 0] [0; 0; 0] [0; 0; 0]) 1 -> found = true) /\
    (found = true ->
       pairUA g' 1 <> 0 /\
       msize g' = msize (mkGraph 2 2 [[]; [1]; [1]] [1; 0; 0] [0; 0; 0] [0; 0; 0]) + 1 /\
       forall x, 1 <= x <= nLeft (mkGraph 2 2 [[]; [1]; [1]] [1; 0; 0] [0; 0; 0] [0; 0; 0]) ->
                 x <> 1 ->
                 (pairUA g' x = 0 <->
                  pairUA (mkGraph 2 2 [[]; [1]; [1]] [1; 0; 0] [0; 0; 0] [0; 0; 0]) x = 0)) /\
    (found = false ->
       pairU g' = pairU (mkGraph 2 2 [[]; [1]; [1]] [1; 0; 0] [0; 0; 0] [0; 0; 0]) /\
       pairV g' = pairV (mkGraph 2 2 [[]; [1]; [1]] [1; 0; 0] [0; 0; 0] [0; 0; 0]) /\
       distA g' 1 = INF).
Proof.
  assert (Hv : Valid (mkGraph 2 2 [[]; [1]; [1]] [1; 0; 0] [0; 0; 0] [0; 0; 0])).
  { destruct (bfs_fuel_spec (bfs_budget (addEdges (construct 2 2) [(1, 1); (2, 1)]))
                (addEdges (construct 2 2) [(1, 1); (2, 1)])) as (g1 & more & log & E & _ & Hp).
    - apply (en_valid 2 2 [(1, 1); (2, 1)]). apply reachable_Engine.
      apply reachable_fresh; lia.
    - apply Nat.le_refl.
    - vm_compute in E. injection E as <- <-. exact (bp_valid _ _ _ _ Hp). }
  split; [exact Hv|]. split; [simpl; lia|]. split; [reflexivity|].
  apply (dfs_augments_or_kills _ 1 Hv); [simpl; lia|reflexivity].
Defined.

(** X10.  [maxMatching] never unmatches a vertex and never writes the
    graph: on every engine of the right shape, whatever the call returns,
    each left or right vertex that had a partner before the call has one
    after it, and the sizes and adjacency lists are unchanged. *)
Theorem maxMatching_keeps_matched g g' k :
  Shape g -> maxMatching g = Ok (g', k) ->
  (forall u, 0 <= u -> pairUA g u <> 0 -> pairUA g' u <> 0) /\
  (forall v, 0 <= v -> pairVA g v <> 0 -> pairVA g' v <> 0) /\
  nLeft g' = nLeft g /\ nRight g' = nRight g /\ adj g' = adj g.
Proof.
  intros Hs E.
  pose proof (phases_stays (phase_budget g) (bfs_budget g) (dfs_budget g) g 0 Hs) as H.
  unfold maxMatching, maxMatching_fuel in E. rewrite E in H.
  destruct H as [[_ G] [SU SV]]. cbn [fst] in *.
  split; [exact SU|]. split; [exact SV|]. exact G.
Qed.

Lemma maxMatching_keeps_matched_witness :
  Shape (mkGraph 2 2 [[]; [1; 2]; [1]] [INF; INF; INF] [0; 1; 0] [0; 1; 0]) /\
  maxMatching (mkGraph 2 2 [[]; [1; 2]; [1]] [INF; INF; INF] [0; 1; 0] [0; 1; 0]) =
    Ok (mkGraph 2 2 [[]; [1; 2]; [1]] [INF; INF; INF] [0; 2; 1] [0; 2; 1], 1) /\
  (forall u, 0 <= u ->
     pairUA (mkGraph 2 2 [[]; [1; 2]; [1]] [INF; INF; INF] [0; 1; 0] [0; 1; 0]) u <> 0 ->
     pairUA (mkGraph 2 2 [[]; [1; 2]; [1]] [INF; INF; INF] [0; 2; 1] [0; 2; 1]) u <> 0) /\
  (forall v, 0 <= v ->
     pairVA (mkGraph 2 2 [[]; [1; 2]; [1]] [INF; INF; INF] [0; 1; 0] [0; 1; 0]) v <> 0 ->
     pairVA (mkGraph 2 2 [[]; [1; 2]; [1]] [INF; INF; INF] [0; 2; 1] [0; 2; 1]) v <> 0) /\
  nLeft (mkGraph 2 2 [[]; [1; 2]; [1]] [INF; INF; INF] [0; 2; 1] [0; 2; 1]) =
    nLeft (mkGraph 2 2 [[]; [1; 2]; [1]] [INF; INF; INF] [0; 1; 0] [0; 1; 0]) /\
  nRight (mkGraph 2 2 [[]; [1; 2]; [1]] [INF; INF; INF] [0; 2; 1] [0; 2; 1]) =
    nRight (mkGraph 2 2 [[]; [1; 2]; [1]] [INF; INF; INF] [0; 1; 0] [0; 1; 0]) /\
  adj (mkGraph 2 2 [[]; [1; 2]; [1]] [INF; INF; INF] [0; 2; 1] [0; 2; 1]) =
    adj (mkGraph 2 2 [[]; [1; 2]; [1]] [INF; INF; INF] [0; 1; 0] [0; 1; 0]).
Proof.
  assert (Hs : Shape (mkGraph 2 2 [[]; [1; 2]; [1]] [INF; INF; INF] [0; 1; 0] [0; 1; 0])).
  { constructor; cbn [nLeft nRight adj dist pairU pairV length]; try lia.
    - intros u v Hu Hin.
      assert (u = 0 \/ u = 1 \/ u = 2) as [-> | [-> | ->]] by lia;
        unfold adjA, vat in Hin; simpl in Hin;
        repeat (destruct Hin as [<-|Hin]; [lia|]); destruct Hin.
    - intros v Hv.
      assert (v = 0 \/ v = 1 \/ v = 2) as [-> | [-> | ->]] by lia;
        unfold pairVA, vat; simpl; lia. }
  assert (E : maxMatching (mkGraph 2 2 [[]; [1; 2]; [1]] [INF; INF; INF] [0; 1; 0] [0; 1; 0]) =
    Ok (mkGraph 2 2 [[]; [1; 2]; [1]] [INF; INF; INF] [0; 2; 1] [0; 2; 1], 1))
    by (vm_compute; reflexivity).
  split; [exact Hs|]. split; [exact E|].
  exact (maxMatching_keeps_matched _ _ _ Hs E).
Defined.

(** X11.  On every reachable engine, the number [k] returned by
    [maxMatching] is not negative and not more than the number of pairs
    stored after the call, and that number is at most the number of left
    vertices, the number of right vertices, and the number of accepted
    [addEdge] calls. *)
Theorem maxMatching_count_bounds l r calls g :
  reachable l r calls g ->
  exists g' k ps,
    maxMatching g = Ok (g', k) /\ getMatchingPairs g' = Ok ps /\
    0 <= k <= zlen ps /\
    zlen ps <= l /\ zlen ps <= r /\ zlen ps <= zlen (accepted l r calls).
Proof.
  intros Hreach.
  destruct (reachable_maxMatching l r calls g Hreach)
    as (g' & k & E & V' & _ & Hl & Hr & Hk & H0 & HM & _).
  exists g', k, (pairs_of g'). split; [exact E|].
  split; [apply getMatchingPairs_spec; exact (va_shape _ V')|].
  pose proof (matching_size_bounds l r _ _ Hl Hr HM (accepted_in_range l r calls)) as HB.
  rewrite length_pairs_of in *.
  assert (msize g <= msize g').
  { pose proof (reachable_Engine _ _ _ _ Hreach) as [Hv _ _ _].
    pose proof (phases_stays (phase_budget g) (bfs_budget g) (dfs_budget g) g 0
                  (va_shape _ Hv)) as H.
    unfold maxMatching, maxMatching_fuel in E. rewrite E in H.
    destruct H as [[_ G] HS]. cbn [fst] in *.
    apply Stays_msize; [exact (proj1 G)|exact HS]. }
  lia.
Qed.

Lemma maxMatching_count_bounds_witness :
  reachable 2 3 [(1, 1); (2, 1); (2, 5)]
    (addEdges (construct 2 3) [(1, 1); (2, 1); (2, 5)]) /\
  exists g' k ps,
    maxMatching (addEdges (construct 2 3) [(1, 1); (2, 1); (2, 5)]) = Ok (g', k) /\
    getMatchingPairs g' = Ok ps /\
    0 <= k <= zlen ps /\
    zlen ps <= 2 /\ zlen ps <= 3 /\
    zlen ps <= zlen (accepted 2 3 [(1, 1); (2, 1); (2, 5)]).
Proof.
  assert (H : reachable 2 3 [(1, 1); (2, 1); (2, 5)]
                (addEdges (construct 2 3) [(1, 1); (2, 1); (2, 5)]))
    by (apply reachable_fresh; lia).
  split; [exact H|].
  exact (maxMatching_count_bounds 2 3 _ _ H).
Defined.

(** X12.  The engine can be used incrementally.  On every reachable engine
    with fewer than [INF] left vertices, whatever calls of [addEdge] and
    [maxMatching] came before, the pairs stored after a call of
    [maxMatching] are a maximum matching of the graph of all accepted
    edges. *)
Theorem stored_pairs_are_maximum l r calls g :
  reachable l r calls g -> l < INF ->
  exists g' k ps,
    maxMatching g = Ok (g', k) /\ getMatchingPairs g' = Ok ps /\
    is_matching (fun u v => In (u, v) (accepted l r calls)) ps /\
    forall M, is_matching (fun u v => In (u, v) (accepted l r calls)) M ->
              zlen M <= zlen ps.
Proof.
  intros Hreach Hinf.
  destruct (reachable_maxMatching l r calls g Hreach)
    as (g' & k & E & V' & _ & _ & _ & _ & _ & HM & Hmax).
  exists g', k, (pairs_of g'). split; [exact E|].
  split; [apply getMatchingPairs_spec; exact (va_shape _ V')|].
  split; [exact HM|].
  rewrite length_pairs_of. exact (Hmax Hinf).
Qed.

Lemma stored_pairs_are_maximum_witness :
  (exists g1 k1,
     maxMatching (addEdges (construct 2 2) [(1, 1)]) = Ok (g1, k1) /\
     reachable 2 2 ([(1, 1)] ++ [(2, 1); (1, 2)]) (addEdges g1 [(2, 1); (1, 2)]) /\
     2 < INF /\
     exists g' k ps,
       maxMatching (addEdges g1 [(2, 1); (1, 2)]) = Ok (g', k) /\
       getMatchingPairs g' = Ok ps /\
       is_matching
         (fun u v => In (u, v) (accepted 2 2 ([(1, 1)] ++ [(2, 1); (1, 2)]))) ps /\
       forall M,
         is_matching
           (fun u v => In (u, v) (accepted 2 2 ([(1, 1)] ++ [(2, 1); (1, 2)]))) M ->
         zlen M <= zlen ps).
Proof.
  assert (H0 : reachable 2 2 [(1, 1)] (addEdges (construct 2 2) [(1, 1)]))
    by (apply reachable_fresh; lia).
  destruct (reachable_maxMatching 2 2 _ _ H0) as (g1 & k1 & E1 & _).
  exists g1, k1. split; [exact E1|].
  assert (H : reachable 2 2 ([(1, 1)] ++ [(2, 1); (1, 2)]) (addEdges g1 [(2, 1); (1, 2)])).
  { apply reachable_addEdges. eapply reach_match; [exact H0|exact E1]. }
  split; [exact H|]. split; [reflexivity|].
  exact (stored_pairs_are_maximum 2 2 _ _ H eq_refl).
Defined.

(** X13.  With fewer than [INF] left vertices, the size returned on a
    fresh engine depends only on the set of accepted edges: neither the
    order of the [addEdge] calls, nor repeated edges, nor rejected calls
    change it. *)
Theorem size_depends_on_edge_set l r es1 es2 :
  0 <= l -> l < INF -> 0 <= r ->
  (forall e, In e (accepted l r es1) <-> In e (accepted l r es2)) ->
  exists g1 g2 k,
    maxMatching (addEdges (construct l r) es1) = Ok (g1, k) /\
    maxMatching (addEdges (construct l r) es2) = Ok (g2, k).
Proof.
  intros Hl Hinf Hr Hset.
  destruct (reachable_maxMatching l r es1 _ (reachable_fresh l r es1 Hl Hr))
    as (g1 & k1 & E1 & _ & _ & _ & _ & K1 & _ & M1 & X1).
  destruct (reachable_maxMatching l r es2 _ (reachable_fresh l r es2 Hl Hr))
    as (g2 & k2 & E2 & _ & _ & _ & _ & K2 & _ & M2 & X2).
  rewrite msize_fresh in K1, K2.
  assert (H12 : zlen (pairs_of g1) <= msize g2).
  { apply (X2 Hinf).
    apply (is_matching_ext (fun u v => In (u, v) (accepted l r es1))); [|exact M1].
    intros u v. apply Hset. }
  assert (H21 : zlen (pairs_of g2) <= msize g1).
  { apply (X1 Hinf).
    apply (is_matching_ext (fun u v => In (u, v) (accepted l r es2))); [|exact M2].
    intros u v. apply Hset. }
  rewrite length_pairs_of in H12, H21.
  assert (k1 = k2) as <- by lia.
  exists g1, g2, k1. split; assumption.
Qed.

Lemma size_depends_on_edge_set_witness :
  0 <= 2 /\ 2 < INF /\ 0 <= 2 /\
  (forall e, In e (accepted 2 2 [(1, 1); (2, 1); (1, 2)]) <->
             In e (accepted 2 2 [(1, 2); (0, 1); (2, 1); (1, 1); (1, 2)])) /\
  exists g1 g2 k,
    maxMatching (addEdges (construct 2 2) [(1, 1); (2, 1); (1, 2)]) = Ok (g1, k) /\
    maxMatching (addEdges (construct 2 2) [(1, 2); (0, 1); (2, 1); (1, 1); (1, 2)]) =
      Ok (g2, k).
Proof.
  assert (H : forall e, In e (accepted 2 2 [(1, 1); (2, 1); (1, 2)]) <->
                        In e (accepted 2 2 [(1, 2); (0, 1); (2, 1); (1, 1); (1, 2)])).
  { intros e. simpl. tauto. }
  split; [lia|]. split; [reflexivity|]. split; [lia|]. split; [exact H|].
  apply (size_depends_on_edge_set 2 2 _ _); [lia|reflexivity|lia|exact H].
Defined.

(** X14.  In a call of [maxMatching] on a reachable engine, at the head of
    the [while] loop the counter [matching] is the number of pairs gained
    since the call began; every iteration of the loop (a [bfs] that
    answers [true], then the augmentation loop) returns, keeps the pairs a
    valid matching, and raises the counter by at least one. *)
Theorem every_phase_augments l r calls g0 g m :
  reachable l r calls g0 ->
  phase_state (bfs_budget g0) (dfs_budget g0) g0 g m ->
  m = msize g - msize g0 /\
  exists g1 more,
    bfs_fuel (bfs_budget g0) g = Ok (g1, more) /\
    (more = true ->
     exists g2 m',
       augment (dfs_budget g0) (range1 (nLeft g1)) g1 m = Ok (g2, m') /\
       Valid g2 /\ m < m' /\ m' = msize g2 - msize g0).
Proof.
  intros Hreach Hps.
  pose proof (reachable_Engine _ _ _ _ Hreach) as [Hv0 _ _ _].
  destruct (phase_state_Valid _ _ g0 g m Hv0 (Nat.le_refl _) (Nat.le_refl _) Hps)
    as (Hv & G & Em).
  split; [exact Em|].
  destruct (budgets_same g0 g (va_shape _ Hv0) (va_shape _ Hv) G) as (B1 & B2 & _).
  destruct (bfs_fuel_spec (bfs_budget g0) g Hv ltac:(lia))
    as (g1 & more & log & E & _ & Hpost).
  exists g1, more. split; [exact E|]. intros ->.
  pose proof (bp_valid _ _ _ _ Hpost) as Hv1.
  pose proof (bp_same _ _ _ _ Hpost) as G1.
  destruct (budgets_same g g1 (va_shape _ Hv) (va_shape _ Hv1) G1) as (_ & B3 & _).
  assert (Em1 : msize g1 = msize g)
    by (apply msize_ext; [exact (proj1 G1)|exact (bp_pu _ _ _ _ Hpost)]).
  destruct (augment_spec (dfs_budget g0) (range1 (nLeft g1)) g1 m Hv1)
    as (g2 & m2 & E2 & V2 & G2 & M2 & _ & P2).
  { lia. }
  { intros u Hu. apply In_range1. exact Hu. }
  exists g2, m2. split; [exact E2|]. split; [exact V2|]. split; [|lia].
  apply P2. destruct (bp_path _ _ _ _ Hpost eq_refl) as (u & Hu & Hf & Hlr).
  exists u. split; [apply In_range1; rewrite (proj1 G1); exact Hu|].
  split; [|exact Hlr]. unfold pairUA. rewrite (bp_pu _ _ _ _ Hpost). exact Hf.
Qed.

Lemma every_phase_augments_witness :
  reachable 2 2 [(1, 1); (2, 1)] (addEdges (construct 2 2) [(1, 1); (2, 1)]) /\
  phase_state (bfs_budget (addEdges (construct 2 2) [(1, 1); (2, 1)]))
              (dfs_budget (addEdges (construct 2 2) [(1, 1); (2, 1)]))
              (addEdges (construct 2 2) [(1, 1); (2, 1)])
              (addEdges (construct 2 2) [(1, 1); (2, 1)]) 0 /\
  0 = msize (addEdges (construct 2 2) [(1, 1); (2, 1)]) -
      msize (addEdges (construct 2 2) [(1, 1); (2, 1)]) /\
  exists g1 more,
    bfs_fuel (bfs_budget (addEdges (construct 2 2) [(1, 1); (2, 1)]))
             (addEdges (construct 2 2) [(1, 1); (2, 1)]) = Ok (g1, more) /\
    (more = true ->
     exists g2 m',
       augment (dfs_budget (addEdges (construct 2 2) [(1, 1); (2, 1)]))
               (range1 (nLeft g1)) g1 0 = Ok (g2, m') /\
       Valid g2 /\ 0 < m' /\
       m' = msize g2 - msize (addEdges (construct 2 2) [(1, 1); (2, 1)])).
Proof.
  assert (H : reachable 2 2 [(1, 1); (2, 1)] (addEdges (construct 2 2) [(1, 1); (2, 1)]))
    by (apply reachable_fresh; lia).
  split; [exact H|]. split; [apply ps_start|].
  apply (every_phase_augments 2 2 _ _ _ 0 H). apply ps_start.
Defined.

(** X19.  On a valid engine the [while] loop of [maxMatching] calls
    [bfs] at most once more than there are free left vertices: with that
    many iterations allowed, the call returns what [maxMatching]
    returns. *)
Theorem phases_bounded_by_free_vertices g p :
  Valid g -> nLeft g - msize g < Z.of_nat p ->
  maxMatching_fuel p (bfs_budget g) (dfs_budget g) g = maxMatching g /\
  exists g' k, maxMatching g = Ok (g', k).
Proof.
  intros Hv Hp.
  destruct (phases_spec (bfs_budget g) (dfs_budget g) p g 0 Hv
              (Nat.le_refl _) (Nat.le_refl _) Hp) as (g1 & k1 & E1 & _).
  destruct (maxMatching_spec g Hv) as (g2 & k2 & E2 & _).
  split; [|exists g2, k2; exact E2].
  unfold maxMatching_fuel. rewrite E1, E2.
  unfold maxMatching, maxMatching_fuel in E2.
  pose proof (phases_more_fuel _ (phase_budget g) _ _ _ _ _ E1) as F1.
  pose proof (phases_more_fuel _ p _ _ _ _ _ E2) as F2.
  rewrite Nat.add_comm in F2. rewrite F1 in F2. exact F2.
Qed.

Lemma phases_bounded_by_free_vertices_witness :
  Valid (addEdges (construct 3 3) [(1, 1); (2, 1); (2, 2); (3, 3)]) /\
  nLeft (addEdges (construct 3 3) [(1, 1); (2, 1); (2, 2); (3, 3)]) -
  msize (addEdges (construct 3 3) [(1, 1); (2, 1); (2, 2); (3, 3)]) < Z.of_nat 4 /\
  maxMatching_fuel 4
    (bfs_budget (addEdges (construct 3 3) [(1, 1); (2, 1); (2, 2); (3, 3)]))
    (dfs_budget (addEdges (construct 3 3) [(1, 1); (2, 1); (2, 2); (3, 3)]))
    (addEdges (construct 3 3) [(1, 1); (2, 1); (2, 2); (3, 3)]) =
  maxMatching (addEdges (construct 3 3) [(1, 1); (2, 1); (2, 2); (3, 3)]) /\
  exists g' k,
    maxMatching (addEdges (construct 3 3) [(1, 1); (2, 1); (2, 2); (3, 3)]) = Ok (g', k).
Proof.
  assert (Hv : Valid (addEdges (construct 3 3) [(1, 1); (2, 1); (2, 2); (3, 3)])).
  { apply (en_valid 3 3 [(1, 1); (2, 1); (2, 2); (3, 3)]). apply reachable_Engine.
    apply reachable_fresh; lia. }
  assert (Hp : nLeft (addEdges (construct 3 3) [(1, 1); (2, 1); (2, 2); (3, 3)]) -
               msize (addEdges (construct 3 3) [(1, 1); (2, 1); (2, 2); (3, 3)]) <
               Z.of_nat 4) by (vm_compute; reflexivity).
  split; [exact Hv|]. split; [exact Hp|].
  exact (phases_bounded_by_free_vertices _ 4 Hv Hp).
Defined.

(** X20.  In a call of [maxMatching] on a reachable engine, at the head
    of the [while] loop every entry of [dist] is between [0] and [INF], the
    counter [matching] is between [0] and the number of left vertices, and
    every layer number that the next [bfs] writes is between [1] and [INF],
    however many left and right vertices there are. *)
Theorem values_stay_within_INF l r calls g0 g m :
  reachable l r calls g0 ->
  phase_state (bfs_budget g0) (dfs_budget g0) g0 g m ->
  (forall x, 0 <= x <= l -> 0 <= distA g x <= INF) /\
  0 <= m <= l /\
  exists log,
    bfs_writes (bfs_budget g0) g = Ok log /\
    Forall (fun w => 1 <= w <= INF) log.
Proof.
  intros Hreach Hps.
  pose proof (reachable_Engine _ _ _ _ Hreach) as [Hv0 El _ _].
  destruct (phase_state_Valid _ _ g0 g m Hv0 (Nat.le_refl _) (Nat.le_refl _) Hps)
    as (Hv & G & Em).
  pose proof (va_shape _ Hv) as Hs.
  split; [|split].
  - intros x Hx. apply (va_dist _ Hv). rewrite (proj1 G), El. exact Hx.
  - destruct (phase_state_Stays _ _ g0 g m (va_shape _ Hv0) Hps) as [_ HS].
    pose proof (Stays_msize g0 g (proj1 G) HS).
    pose proof (msize_bounds g (sh_nl _ Hs)).
    pose proof (msize_bounds g0 (sh_nl _ (va_shape _ Hv0))).
    rewrite (proj1 G), El in *. lia.
  - destruct (budgets_same g0 g (va_shape _ Hv0) Hs G) as (B1 & _ & _).
    destruct (bfs_fuel_spec (bfs_budget g0) g Hv ltac:(lia))
      as (g' & more & log & _ & Ew & _).
    exists log. split; [exact Ew|].
    rewrite (bfs_writes_unfold _ g Hs) in Ew.
    destruct (bfs_loop_log (bfs_budget g0) (seeded g) (seed_queue g) [])
      as [[g2 log2]| |] eqn:Elog; cbn [rbind] in Ew; try discriminate.
    injection Ew as <-.
    assert (HI : LogI g (seeded g) (seed_queue g) [])
      by (split; [apply BfsBase_seeded; exact Hs|constructor]).
    exact (proj2 (LogI_rule g _ _ _ _ _ _ HI Elog)).
Qed.

Lemma values_stay_within_INF_witness :
  reachable 2 2 [(1, 1); (2, 1)] (addEdges (construct 2 2) [(1, 1); (2, 1)]) /\
  phase_state (bfs_budget (addEdges (construct 2 2) [(1, 1); (2, 1)]))
              (dfs_budget (addEdges (construct 2 2) [(1, 1); (2, 1)]))
              (addEdges (construct 2 2) [(1, 1); (2, 1)])
              (addEdges (construct 2 2) [(1, 1); (2, 1)]) 0 /\
  (forall x, 0 <= x <= 2 ->
             0 <= distA (addEdges (construct 2 2) [(1, 1); (2, 1)]) x <= INF) /\
  0 <= 0 <= 2 /\
  exists log,
    bfs_writes (bfs_budget (addEdges (construct 2 2) [(1, 1); (2, 1)]))
               (addEdges (construct 2 2) [(1, 1); (2, 1)]) = Ok log /\
    Forall (fun w => 1 <= w <= INF) log.
Proof.
  assert (H : reachable 2 2 [(1, 1); (2, 1)] (addEdges (construct 2 2) [(1, 1); (2, 1)]))
    by (apply reachable_fresh; lia).
  split; [exact H|]. split; [apply ps_start|].
  apply (values_stay_within_INF 2 2 _ _ _ 0 H). apply ps_start.
Defined.

(** X15.  On an engine of the right shape [printMatching] appends to
    [cout] the header and then one line [Left u <-> Right v] for each pair
    that [getMatchingPairs] returns, in the same order, and nothing
    else. *)
Theorem printMatching_prints_the_pairs g out :
  Shape g ->
  exists ps,
    getMatchingPairs g = Ok ps /\
    printMatching g out = Ok (out ++ matched_header :: pair_lines ps).
Proof.
  intros Hs. exists (pairs_of g).
  split; [apply getMatchingPairs_spec; exact Hs|].
  apply printMatching_spec. exact Hs.
Qed.

Lemma printMatching_prints_the_pairs_witness :
  Shape (mkGraph 2 2 [[]; [1; 2]; [1]] [INF; INF; INF] [0; 2; 1] [0; 2; 1]) /\
  exists ps,
    getMatchingPairs
      (mkGraph 2 2 [[]; [1; 2]; [1]] [INF; INF; INF] [0; 2; 1] [0; 2; 1]) = Ok ps /\
    printMatching
      (mkGraph 2 2 [[]; [1; 2]; [1]] [INF; INF; INF] [0; 2; 1] [0; 2; 1]) [] =
    Ok ([] ++ matched_header :: pair_lines ps).
Proof.
  assert (Hs : Shape (mkGraph 2 2 [[]; [1; 2]; [1]] [INF; INF; INF] [0; 2; 1] [0; 2; 1])).
  { constructor; cbn [nLeft nRight adj dist pairU pairV length]; try lia.
    - intros u v Hu Hin.
      assert (u = 0 \/ u = 1 \/ u = 2) as [-> | [-> | ->]] by lia;
        unfold adjA, vat in Hin; simpl in Hin;
        repeat (destruct Hin as [<-|Hin]; [lia|]); destruct Hin.
    - intros v Hv.
      assert (v = 0 \/ v = 1 \/ v = 2) as [-> | [-> | ->]] by lia;
        unfold pairVA, vat; simpl; lia. }
  split; [exact Hs|].
  exact (printMatching_prints_the_pairs _ [] Hs).
Defined.

(** X16.  The exit code of [main].  When fewer than three integers
    arrive, or one of the first three is not an [int], or [n <= 0],
    [m <= 0] or [e < 0], [main] prints the prompt and the error message and
    returns [1], whatever follows.  When the header is valid, [n] and [m]
    are below [INT_MAX], and [e] pairs of [int]s follow, it returns [0]
    and never faults.  When the header is valid and fewer than [2 * e]
    integers follow, the loop calls [addEdge] with an indeterminate [u] or
    [v], which the model reports as [None]. *)
Theorem main_exit_code input :
  (header_ok input = false ->
   main input = Ok (Some (mkExit 1 prompt invalid_input))) /\
  (forall n m e es extra,
     input = n :: m :: e :: flatten es ++ extra -> header_ok input = true ->
     n < INT_MAX -> m < INT_MAX -> zlen es = e -> int_pairs es ->
     exists out err, main input = Ok (Some (mkExit 0 out err))) /\
  (forall n m e rest,
     input = n :: m :: e :: rest -> header_ok input = true ->
     zlen rest < 2 * e -> main input = Ok None).
Proof.
  split; [apply main_bad_header|]. split.
  - intros n m e es extra -> H Hn Hm He Hint. cbn [header_ok] in H.
    apply andb_true_iff in H as [H Hg]. apply andb_true_iff in H as [H Fe].
    apply negb_true_iff in Hg.
    apply orb_false_iff in Hg as [Hg _]. apply orb_false_iff in Hg as [Hn0 Hm0].
    apply Z.leb_gt in Hn0, Hm0. apply fits_int_spec in Fe.
    destruct (main_run n m e es extra ltac:(lia) ltac:(lia) He ltac:(lia) Hint)
      as (g & k & _ & _ & _ & _ & _ & _ & Emain).
    eexists _, _. exact Emain.
  - intros n m e rest -> H Hshort. apply main_short; assumption.
Qed.

Lemma main_exit_code_witness :
  main [2; 0; 1; 1; 1] = Ok (Some (mkExit 1 prompt invalid_input)) /\
  main [2147483648; 1; 0] = Ok (Some (mkExit 1 prompt invalid_input)) /\
  (exists out err, main [2; 2; 1; 1; 1; 9] = Ok (Some (mkExit 0 out err))) /\
  main [2; 2; 2; 1; 1; 2] = Ok None.
Proof.
  split; [|split; [|split]].
  - apply (proj1 (main_exit_code [2; 0; 1; 1; 1])). reflexivity.
  - apply (proj1 (main_exit_code [2147483648; 1; 0])). reflexivity.
  - apply (proj1 (proj2 (main_exit_code [2; 2; 1; 1; 1; 9])) 2 2 1 [(1, 1)] [9]);
      try reflexivity.
    repeat constructor.
  - apply (proj2 (proj2 (main_exit_code [2; 2; 2; 1; 1; 2])) 2 2 2 [1; 1; 2]
             eq_refl eq_refl).
    simpl. lia.
Defined.

(** X17.  A complete run.  When the input is [n], [m], [e] and then [e]
    pairs [es], all of them [int]s, with [0 < n < INT_MAX] and
    [0 < m < INT_MAX], [main] returns [0]; [cerr] holds one warning for
    each pair outside the ranges, in input order; [cout] holds the prompts,
    the size [k] that [maxMatching] returned on the engine with these
    edges, and one line for each of the [k] pairs of [getMatchingPairs].
    The pairs are a matching of the edges in range, and with [n < INF] or
    [m < INF] no matching of these edges is larger than the size printed.
    What follows the last pair on the input is not read. *)
Theorem main_reports_the_matching n m e es extra :
  0 < n < INT_MAX -> 0 < m < INT_MAX -> zlen es = e -> e <= INT_MAX ->
  int_pairs es ->
  exists g k ps,
    maxMatching (addEdges (construct n m) es) = Ok (g, k) /\
    getMatchingPairs g = Ok ps /\
    main (n :: m :: e :: flatten es ++ extra) =
      Ok (Some (mkExit 0 (report e k ps) (warnings n m es))) /\
    zlen ps = k /\
    is_matching (fun u v => In (u, v) (accepted n m es)) ps /\
    (n < INF \/ m < INF ->
     forall M, is_matching (fun u v => In (u, v) (accepted n m es)) M ->
               zlen M <= k).
Proof.
  intros Hn Hm He Hemax Hint.
  destruct (main_run n m e es extra Hn Hm He Hemax Hint)
    as (g & k & E & V & _ & Hk & HM & Hmax & Emain).
  exists g, k, (pairs_of g). split; [exact E|].
  split; [apply getMatchingPairs_spec; exact (va_shape _ V)|].
  split; [exact Emain|]. split; [rewrite length_pairs_of; lia|].
  split; [exact HM|exact Hmax].
Qed.

Lemma main_reports_the_matching_witness :
  0 < 2 < INT_MAX /\ 0 < 2 < INT_MAX /\ zlen [(1, 1); (3, 1); (2, 1)] = 3 /\
  3 <= INT_MAX /\ int_pairs [(1, 1); (3, 1); (2, 1)] /\
  exists g k ps,
    maxMatching (addEdges (construct 2 2) [(1, 1); (3, 1); (2, 1)]) = Ok (g, k) /\
    getMatchingPairs g = Ok ps /\
    main (2 :: 2 :: 3 :: flatten [(1, 1); (3, 1); (2, 1)] ++ [7]) =
      Ok (Some (mkExit 0 (report 3 k ps) (warnings 2 2 [(1, 1); (3, 1); (2, 1)]))) /\
    zlen ps = k /\
    is_matching (fun u v => In (u, v) (accepted 2 2 [(1, 1); (3, 1); (2, 1)])) ps /\
    (2 < INF \/ 2 < INF ->
     forall M,
       is_matching (fun u v => In (u, v) (accepted 2 2 [(1, 1); (3, 1); (2, 1)])) M ->
       zlen M <= k).
Proof.
  assert (Hint : int_pairs [(1, 1); (3, 1); (2, 1)]) by (repeat constructor).
  split; [unfold INT_MAX; lia|]. split; [unfold INT_MAX; lia|].
  split; [reflexivity|]. split; [unfold INT_MAX; lia|]. split; [exact Hint|].
  apply (main_reports_the_matching 2 2 3 [(1, 1); (3, 1); (2, 1)] [7]);
    [unfold INT_MAX; lia|unfold INT_MAX; lia|reflexivity|unfold INT_MAX; lia|exact Hint].
Defined.
